(** * acre.core: resolution of dynamic environments

    A shallow embedding of [src/acre/core.py] ([build], [prepare], [join])
    and the properties of the resolution engine.

    Python values are modelled as follows:
    - [str] is [string] (a sequence of one-byte characters);
    - a [dict] from [str] to [str] is an association list with pairwise
      distinct keys, in insertion order ([dict_set] overwrites in place and
      appends new keys at the end, as CPython's dict does);
    - an exception is a constructor of [error], and a function that may
      raise returns a [result];
    - [os.pathsep] is a one-character string, passed as the parameter
      [pathsep]. *)

From Stdlib Require Import String Ascii List Bool Arith Lia Relations.
Import ListNotations.
Open Scope string_scope.
Open Scope list_scope.

(* ================================================================== *)
(** ** Strings *)

Module Str.

Definition newline : ascii := "010"%char.
Definition lbrace : ascii := "{"%char.
Definition rbrace : ascii := "}"%char.

(** [str.isspace] on the one-byte code points. *)
Definition is_space (c : ascii) : bool :=
  let n := nat_of_ascii c in
  (Nat.leb 9 n && Nat.leb n 13) || (Nat.leb 28 n && Nat.leb n 32)
  || Nat.eqb n 133 || Nat.eqb n 160.

(** [bool(p.strip())]: some character of [p] is not white space. *)
Fixpoint nonblank (p : string) : bool :=
  match p with
  | EmptyString => false
  | String c p' => negb (is_space c) || nonblank p'
  end.

(** [bool(p)]: the string is not empty. *)
Definition nonempty (p : string) : bool :=
  match p with EmptyString => false | _ => true end.

(** [c in s] for one character. *)
Fixpoint mem (c : ascii) (s : string) : bool :=
  match s with
  | EmptyString => false
  | String d s' => Ascii.eqb d c || mem c s'
  end.

(** [value.split(sep)] for a one-character separator: the segments
    between the occurrences of [sep]; never the empty list. *)
Fixpoint split (sep : ascii) (s : string) : list string :=
  match s with
  | EmptyString => [EmptyString]
  | String c s' =>
      if Ascii.eqb c sep then EmptyString :: split sep s'
      else match split sep s' with
           | [] => [String c EmptyString]
           | seg :: segs => String c seg :: segs
           end
  end.

(** [sep.join(segs)]. *)
Fixpoint join (sep : string) (segs : list string) : string :=
  match segs with
  | [] => EmptyString
  | [seg] => seg
  | seg :: segs' => seg ++ sep ++ join sep segs'
  end.

Definition of_char (c : ascii) : string := String c EmptyString.

(** [sub in s]: [sub] occurs in [s] as a contiguous substring. *)
Fixpoint contains (sub s : string) : bool :=
  prefix sub s ||
  match s with
  | EmptyString => false
  | String _ s' => contains sub s'
  end.

End Str.

(* ================================================================== *)
(** ** Dictionaries *)

Definition dict := list (string * string).

Definition keys (d : dict) : list string := map fst d.
Definition values (d : dict) : list string := map snd d.

(** [d.get(k)] *)
Fixpoint dict_get (d : dict) (k : string) : option string :=
  match d with
  | [] => None
  | (k', v) :: d' => if String.eqb k' k then Some v else dict_get d' k
  end.

(** [k in d] *)
Definition dict_mem (d : dict) (k : string) : bool :=
  match dict_get d k with Some _ => true | None => false end.

(** [d[k] = v]: an existing key keeps its position. *)
Fixpoint dict_set (d : dict) (k v : string) : dict :=
  match d with
  | [] => [(k, v)]
  | (k', v') :: d' =>
      if String.eqb k' k then (k', v) :: d' else (k', v') :: dict_set d' k v
  end.

(** [d.pop(k)] for a key that is present (the only use in [build]). *)
Fixpoint dict_pop (d : dict) (k : string) : dict :=
  match d with
  | [] => []
  | (k', v') :: d' =>
      if String.eqb k' k then d' else (k', v') :: dict_pop d' k
  end.

(** The well-formed dictionaries: no key occurs twice. *)
Definition wf_dict (d : dict) : Prop := NoDup (keys d).

(* ================================================================== *)
(** ** Placeholders: the pattern [{(.+?)}] *)

Inductive token : Type :=
| Lit (c : ascii)
| Hole (name : string).

(** After the first character of a name: the shortest continuation that
    reaches a closing brace; [.] does not match a newline. Returns the
    rest of the name and the text after the brace. *)
Fixpoint close_brace (s : string) : option (string * string) :=
  match s with
  | EmptyString => None
  | String c s' =>
      if Ascii.eqb c Str.rbrace then Some (EmptyString, s')
      else if Ascii.eqb c Str.newline then None
      else match close_brace s' with
           | Some (n, r) => Some (String c n, r)
           | None => None
           end
  end.

(** A match of [(.+?)}] at the start of [s] (the text after an opening
    brace): one character that is not a newline, then [close_brace]. *)
Definition match_name (s : string) : option (string * string) :=
  match s with
  | EmptyString => None
  | String c s' =>
      if Ascii.eqb c Str.newline then None
      else match close_brace s' with
           | Some (n, r) => Some (String c n, r)
           | None => None
           end
  end.

(** The scan of [re.findall]/[re.sub]: left to right, matches do not
    overlap; [skip] counts the characters of the current match that are
    still to be passed over. *)
Fixpoint scan (skip : nat) (s : string) : list token :=
  match s with
  | EmptyString => []
  | String c s' =>
      match skip with
      | S k => scan k s'
      | O =>
          if Ascii.eqb c Str.lbrace then
            match match_name s' with
            | Some (n, _) => Hole n :: scan (S (String.length n)) s'
            | None => Lit c :: scan 0 s'
            end
          else Lit c :: scan 0 s'
      end
  end.

Definition tokens (s : string) : list token := scan 0 s.

Fixpoint holes (ts : list token) : list string :=
  match ts with
  | [] => []
  | Lit _ :: ts' => holes ts'
  | Hole n :: ts' => n :: holes ts'
  end.

(** [re.findall("{(.+?)}", value)] *)
Definition findall (value : string) : list string := holes (tokens value).

(** The text of a placeholder, braces included. *)
Definition placeholder (name : string) : string :=
  String Str.lbrace (name ++ String Str.rbrace EmptyString).

(* ================================================================== *)
(** ** The helpers of [acre.lib] used by [build] *)

Fixpoint mem_str (x : string) (l : list string) : bool :=
  match l with
  | [] => false
  | y :: l' => String.eqb y x || mem_str x l'
  end.

Fixpoint uniq_from (seen seq : list string) : list string :=
  match seq with
  | [] => []
  | x :: seq' =>
      if mem_str x seen then uniq_from seen seq'
      else x :: uniq_from (x :: seen) seq'
  end.

(** Modelled from the spec: [lib.uniqify_ordered], whose source is not
    part of the files at hand. Order-preserving de-duplication: the first
    occurrence of each element is kept. *)
Definition uniqify_ordered (seq : list string) : list string :=
  uniq_from [] seq.

Definition render (data : dict) (missing : option string) (t : token)
  : string :=
  match t with
  | Lit c => Str.of_char c
  | Hole n =>
      match dict_get data n with
      | Some v => v
      | None =>
          match missing with
          | Some m => m
          | None => placeholder n
          end
      end
  end.

(** Modelled from the spec: [lib.partial_format], whose source is not part
    of the files at hand. Every placeholder [{name}] of the template is
    replaced by the mapping's value for [name] if present; an absent name
    is left verbatim, braces included, unless a [missing] replacement is
    given. The placeholders are the matches of the pattern that [build]
    itself uses to find them. *)
Definition partial_format (s : string) (data : dict)
  (missing : option string) : string :=
  String.concat EmptyString (map (render data missing) (tokens s)).

(** *** Topological sort *)

Definition edge : Type := string * string.

Record Results : Type := mkResults {
  sorted : list string;
  cyclic : list string
}.

(** The distinct node names of the edges, in first-seen order. *)
Definition nodes (es : list edge) : list string :=
  uniqify_ordered (flat_map (fun e => [fst e; snd e]) es).

Definition succs (es : list edge) (n : string) : list string :=
  map snd (filter (fun e => String.eqb (fst e) n) es).

(** Add to [acc] the elements of [xs] it does not hold yet. *)
Fixpoint add_all (acc xs : list string) : list string :=
  match xs with
  | [] => acc
  | x :: xs' =>
      if mem_str x acc then add_all acc xs' else add_all (acc ++ [x]) xs'
  end.

Definition expand (es : list edge) (acc : list string) : list string :=
  add_all acc (flat_map (succs es) acc).

Fixpoint closure (fuel : nat) (es : list edge) (acc : list string)
  : list string :=
  match fuel with
  | O => acc
  | S fuel' => closure fuel' es (expand es acc)
  end.

(** The nodes reached from [n] along one edge or more. *)
Definition reachable (es : list edge) (n : string) : list string :=
  closure (List.length (nodes es)) es (add_all [] (succs es n)).

Definition on_cycle (es : list edge) (n : string) : bool :=
  mem_str n (reachable es n).

(** A node can be placed once each of its predecessors is placed or is
    cyclic (the order constrains the acyclic nodes only). *)
Definition ready (es : list edge) (cyc placed : list string) (n : string)
  : bool :=
  forallb (fun e => negb (String.eqb (snd e) n)
                    || mem_str (fst e) placed || mem_str (fst e) cyc) es.

Fixpoint remove_str (x : string) (l : list string) : list string :=
  match l with
  | [] => []
  | y :: l' => if String.eqb y x then remove_str x l' else y :: remove_str x l'
  end.

(** Repeatedly place the first-seen node that is ready. *)
Fixpoint place (fuel : nat) (es : list edge) (cyc placed todo : list string)
  : list string :=
  match fuel with
  | O => placed
  | S fuel' =>
      match find (ready es cyc placed) todo with
      | None => placed
      | Some n => place fuel' es cyc (placed ++ [n]) (remove_str n todo)
      end
  end.

(** Modelled from the spec: [lib.topological_sort], whose source is not
    part of the files at hand. Over the distinct node names of the edges:
    [cyclic] holds the nodes that belong to at least one cycle; [sorted]
    holds the others, no predecessor after a successor, ties broken by
    first-seen order. An edge is a pair (dependent, dependency), so a
    dependent precedes what it depends on; [build] walks [sorted] back to
    front. *)
Definition topological_sort (dependency_pairs : list edge) : Results :=
  let ns := nodes dependency_pairs in
  let cyc := filter (on_cycle dependency_pairs) ns in
  let acyc := filter (fun n => negb (on_cycle dependency_pairs n)) ns in
  mkResults (place (List.length acyc) dependency_pairs cyc [] acyc) cyc.

(* ================================================================== *)
(** ** [build] *)

Inductive error : Type :=
| CycleError (cyclic : list string)
| DynamicKeyClashError (new_key key : string)
| KeyError (key : string).

Inductive result (A : Type) : Type :=
| Ok (a : A)
| Raise (e : error).
Arguments Ok {A} a.
Arguments Raise {A} e.

(** Lines 47-56: the dependency pairs, a key's references to itself left
    out. *)
Definition dependencies_of (key value : string) : list edge :=
  map (fun dependency => (key, dependency))
      (filter (fun dependency => negb (String.eqb dependency key))
              (findall value)).

Definition dependencies (env : dict) : list edge :=
  flat_map (fun kv => dependencies_of (fst kv) (snd kv)) env.

(** Lines 70-73 and 77-80: format one key against the environment without
    that key. *)
Definition format_value (env : dict) (key : string) : dict :=
  match dict_get env key with
  | Some value =>
      let data := dict_pop env key in
      dict_set env key (partial_format value data None)
  | None => env
  end.

Definition format_values (order : list string) (env : dict) : dict :=
  fold_left format_value order env.

(** Lines 84-96: the dictionary keyed by the formatted keys. *)
Fixpoint format_keys (allow_key_clash : bool) (env : dict)
  (items formatted : dict) : result dict :=
  match items with
  | [] => Ok formatted
  | (key, value) :: items' =>
      let new_key := partial_format key env None in
      if dict_mem formatted new_key && negb allow_key_clash
      then Raise (DynamicKeyClashError new_key key)
      else format_keys allow_key_clash env items'
             (dict_set formatted new_key value)
  end.

(** Lines 101-109: one value, cleaned. *)
Definition clean_value (separator : ascii) (value : string) : string :=
  let paths := Str.split separator value in
  let paths := uniqify_ordered paths in
  let paths := filter Str.nonblank paths in
  Str.join (Str.of_char separator) paths.

Definition cleanup_env (separator : ascii) (env : dict) : dict :=
  fold_left (fun env kv => dict_set env (fst kv) (clean_value separator (snd kv)))
            env env.

(** The values after lines 69-80. *)
Definition resolve_values (env : dict) : dict :=
  let result := topological_sort (dependencies env) in
  format_values (cyclic result) (format_values (rev (sorted result)) env).

Definition build (pathsep : ascii) (env : dict)
  (dynamic_keys allow_cycle allow_key_clash cleanup : bool) : result dict :=
  let result := topological_sort (dependencies env) in
  if negb (Nat.eqb (List.length (cyclic result)) 0) && negb allow_cycle
  then Raise (CycleError (cyclic result))
  else
    let env := format_values (rev (sorted result)) env in
    let env := format_values (cyclic result) env in
    match (if dynamic_keys then format_keys allow_key_clash env env []
           else Ok env) with
    | Raise e => Raise e
    | Ok env =>
        Ok (if cleanup then cleanup_env pathsep env else env)
    end.

(** The example of the specification. *)
Definition tools_env : dict :=
  [("ROOT", "/tools"); ("BIN", "{ROOT}/bin");
   ("LIB", "{ROOT}/lib;{ROOT}/lib;")].

(** The value of the last pair of [items] whose formatted key is [name]. *)
Fixpoint last_produced (env items : dict) (name : string) : option string :=
  match items with
  | [] => None
  | (key, value) :: items' =>
      match last_produced env items' name with
      | Some v => Some v
      | None =>
          if String.eqb (partial_format key env None) name
          then Some value else None
      end
  end.

(** The example of a key clash: both dynamic keys resolve to [X]. *)
Definition clash_env : dict :=
  [("{A}", "1"); ("{B}", "2"); ("A", "X"); ("B", "X")].

(** *** The dependency graph, as a relation *)

Definition depends_on (es : list edge) (a b : string) : Prop := In (a, b) es.

(** [a] reaches [b] along one edge or more. *)
Definition path (es : list edge) : string -> string -> Prop :=
  clos_trans string (depends_on es).

Definition has_cycle (es : list edge) : Prop := exists n, path es n n.

Definition acyclic (es : list edge) : Prop := forall n, ~ path es n n.

(** A set of nodes closed under the edges. *)
Definition closed (es : list edge) (acc : list string) : Prop :=
  forall a b, In a acc -> depends_on es a b -> In b acc.



(** [sub] occurs in [s]: the propositional reading of [Str.contains]. *)
Definition occurs (sub s : string) : Prop :=
  exists pre post, s = (pre ++ sub ++ post)%string.





(** *** Well-formed templates *)

Definition not_brace (c : ascii) : bool :=
  negb (Ascii.eqb c Str.lbrace) && negb (Ascii.eqb c Str.rbrace).

Definition brace_free (s : string) : bool :=
  negb (Str.mem Str.lbrace s) && negb (Str.mem Str.rbrace s).

Definition ok_token (t : token) : bool :=
  match t with
  | Lit c => not_brace c
  | Hole n => brace_free n
  end.

(** Every brace of the text belongs to a placeholder whose name holds no
    brace. *)
Definition well_formed (s : string) : bool := forallb ok_token (tokens s).

(** [key] refers to itself in its own value. *)
Definition self_ref (env : dict) (key : string) : Prop :=
  exists value, dict_get env key = Some value /\ In key (findall value).

(** The names that [build] cannot substitute: absent from the
    environment, or a key's reference to itself. *)
Definition unresolvable (env : dict) (name : string) : Prop :=
  ~ In name (keys env) \/ self_ref env name.

(** A value whose remaining placeholders are all unresolvable. *)
Definition resolved (env : dict) (value : string) : Prop :=
  well_formed value = true
  /\ forall name, In name (findall value) -> unresolvable env name.

(** [b] has no unresolved external dependency: [b] and every key it
    depends on, directly or transitively, exist in the environment and do
    not refer to themselves. *)
Definition no_unresolved (env : dict) (b : string) : Prop :=
  forall c, c = b \/ path (dependencies env) b c ->
            In c (keys env) /\ ~ self_ref env c.

(** An acyclic environment whose values hold braces outside placeholders:
    formatting [A] pastes a brace in front of the text [B}]. *)
Definition braces_env : dict := [("A", "{B}{C}B}"); ("B", "x"); ("C", "{")].

(** An acyclic environment of well-formed templates in which the cleanup
    turns the absent [{x;;y}] into the text of [{x;y}]. *)
Definition segment_env : dict := [("A", "{x;y}{x;;y}"); ("x;y", "v")].

(** A chain of dependencies. *)
Definition chain_env : dict :=
  [("A", "{B}/a"); ("B", "{C}/b"); ("C", "/c")].

(* ================================================================== *)
(** ** [build] on a store of dictionaries

    Python's dictionaries are mutable objects, and [build] receives a
    reference to the caller's one. Here the store holds the dictionary
    objects alive, a reference is a position in it, and [build] is the
    source's sequence of reads, writes and allocations. *)

Module Heap.

Definition ref : Type := nat.
Definition store : Type := list dict.

(** A computation on the store that returns or raises. *)
Definition M (A : Type) : Type := store -> result A * store.

Definition ret {A : Type} (a : A) : M A := fun st => (Ok a, st).

Definition raise {A : Type} (e : error) : M A := fun st => (Raise e, st).

Definition bind {A B : Type} (c : M A) (k : A -> M B) : M B :=
  fun st =>
    match c st with
    | (Ok a, st') => k a st'
    | (Raise e, st') => (Raise e, st')
    end.

Notation "x <- c ;; k" := (bind c (fun x => k))
  (at level 61, c at next level, right associativity).
Notation "c ;;; k" := (bind c (fun _ => k))
  (at level 61, right associativity).

Fixpoint upd (r : ref) (d : dict) (st : store) : store :=
  match st, r with
  | [], _ => []
  | _ :: st', O => d :: st'
  | x :: st', S r' => x :: upd r' d st'
  end.

(** The dictionary a reference points to. *)
Definition read (r : ref) : M dict := fun st => (Ok (nth r st []), st).

Definition write (r : ref) (d : dict) : M unit :=
  fun st => (Ok tt, upd r d st).

(** A new object, at the end of the store. *)
Definition alloc (d : dict) : M ref :=
  fun st => (Ok (List.length st), st ++ [d]).

(** [{}] *)
Definition new_dict : M ref := alloc [].

(** [d.copy()] *)
Definition copy (r : ref) : M ref := d <- read r ;; alloc d.

(** [d.items()], visited in insertion order. *)
Definition items (r : ref) : M (list (string * string)) := read r.

(** [k in d] *)
Definition contains (r : ref) (k : string) : M bool :=
  d <- read r ;; ret (dict_mem d k).

(** [d[k]] *)
Definition getitem (r : ref) (k : string) : M string :=
  d <- read r ;;
  match dict_get d k with
  | Some v => ret v
  | None => raise (KeyError k)
  end.

(** [d[k] = v] *)
Definition setitem (r : ref) (k v : string) : M unit :=
  d <- read r ;; write r (dict_set d k v).

(** [d.pop(k)] *)
Definition pop (r : ref) (k : string) : M unit :=
  d <- read r ;;
  match dict_get d k with
  | Some _ => write r (dict_pop d k)
  | None => raise (KeyError k)
  end.

Fixpoint for_each {A : Type} (l : list A) (body : A -> M unit) : M unit :=
  match l with
  | [] => ret tt
  | x :: l' => body x ;;; for_each l' body
  end.

(** Lines 70-73 and 77-80. *)
Definition format_step (env : ref) (key : string) : M unit :=
  present <- contains env key ;;
  if present then
    data <- copy env ;;
    pop data key ;;;
    value <- getitem env key ;;
    d <- read data ;;
    setitem env key (partial_format value d None)
  else ret tt.

(** Lines 85-95. *)
Definition key_step (allow_key_clash : bool) (env formatted : ref)
  (kv : string * string) : M unit :=
  d <- read env ;;
  let new_key := partial_format (fst kv) d None in
  clash <- contains formatted new_key ;;
  (if clash && negb allow_key_clash
   then raise (DynamicKeyClashError new_key (fst kv))
   else ret tt) ;;;
  setitem formatted new_key (snd kv).

(** Lines 100-110. *)
Definition clean_step (separator : ascii) (env : ref)
  (kv : string * string) : M unit :=
  setitem env (fst kv) (clean_value separator (snd kv)).

Definition build (pathsep : ascii) (env : ref)
  (dynamic_keys allow_cycle allow_key_clash cleanup : bool) : M ref :=
  env <- copy env ;;
  its <- items env ;;
  let dependencies :=
    flat_map (fun kv => dependencies_of (fst kv) (snd kv)) its in
  let result := topological_sort dependencies in
  (if negb (Nat.eqb (List.length (cyclic result)) 0) && negb allow_cycle
   then raise (CycleError (cyclic result))
   else ret tt) ;;;
  for_each (rev (sorted result)) (format_step env) ;;;
  for_each (cyclic result) (format_step env) ;;;
  env <- (if dynamic_keys then
            formatted <- new_dict ;;
            its <- items env ;;
            for_each its (key_step allow_key_clash env formatted) ;;;
            ret formatted
          else ret env) ;;
  (if cleanup then
     its <- items env ;;
     for_each its (clean_step pathsep env)
   else ret tt) ;;;
  ret env.

(** What a call leaves to its caller: the returned dictionary, or the
    exception. *)
Definition outcome (r : result ref * store) : result dict :=
  match r with
  | (Ok out, st) => Ok (nth out st [])
  | (Raise e, _) => Raise e
  end.

(** [build] without line 44, for comparison. *)
Definition build_in_place (pathsep : ascii) (env : ref)
  (dynamic_keys allow_cycle allow_key_clash cleanup : bool) : M ref :=
  its <- items env ;;
  let dependencies :=
    flat_map (fun kv => dependencies_of (fst kv) (snd kv)) its in
  let result := topological_sort dependencies in
  (if negb (Nat.eqb (List.length (cyclic result)) 0) && negb allow_cycle
   then raise (CycleError (cyclic result))
   else ret tt) ;;;
  for_each (rev (sorted result)) (format_step env) ;;;
  for_each (cyclic result) (format_step env) ;;;
  env <- (if dynamic_keys then
            formatted <- new_dict ;;
            its <- items env ;;
            for_each its (key_step allow_key_clash env formatted) ;;;
            ret formatted
          else ret env) ;;
  (if cleanup then
     its <- items env ;;
     for_each its (clean_step pathsep env)
   else ret tt) ;;;
  ret env.

End Heap.

(** The objects below position [n] are the same in both stores, and no
    object is lost. *)
Definition keeps (n : nat) (st st' : Heap.store) : Prop :=
  List.length st <= List.length st'
  /\ forall q, q < n -> nth q st' [] = nth q st [].

(* ================================================================== *)
(** ** [prepare] and [join] *)

(** The values of a tool environment before [prepare]: a string or a list
    of strings, or a dictionary of those keyed by platform name. *)
Inductive flat_value : Type :=
| VStr (s : string)
| VList (items : list string).

Inductive raw_value : Type :=
| Flat (v : flat_value)
| PerPlatform (d : list (string * flat_value)).

Fixpoint assoc {A : Type} (d : list (string * A)) (k : string) : option A :=
  match d with
  | [] => None
  | (k', v) :: d' => if String.eqb k' k then Some v else assoc d' k
  end.

(** [bool(value)] *)
Definition truthy (v : flat_value) : bool :=
  match v with
  | VStr s => Str.nonempty s
  | VList items => negb (Nat.eqb (List.length items) 0)
  end.

(** Lines 131-133. *)
Definition lookup : list (string * (string * string)) :=
  [("windows", ("/", "\")); ("linux", ("\", "/")); ("darwin", ("\", "/"))].

(** Lines 142-153: one variable of the source environment. *)
Definition prepare_item (platform_name : string) (result : dict)
  (item : string * raw_value) : dict :=
  let value :=
    match snd item with
    | PerPlatform d =>
        match assoc d platform_name with
        | Some v => v
        | None => VStr ""
        end
    | Flat v => v
    end in
  if negb (truthy value) then result
  else
    let value :=
      match value with
      | VList items => Str.join ";" items
      | VStr s => s
      end in
    dict_set result (fst item) value.

(** [prepare]; [PLATFORM] is the module constant of line 12.  The text of
    the [KeyError] is shortened: line 137 formats it with the module
    [platform], whose printed form depends on the host. *)
Definition prepare (PLATFORM : string) (env : list (string * raw_value))
  (platform_name : option string) : result dict :=
  let platform_name :=
    match platform_name with
    | Some (String c s) => String c s
    | _ => PLATFORM
    end in
  match assoc lookup platform_name with
  | None => Raise (KeyError "Given platform name is not supported")
  | Some translate => Ok (fold_left (prepare_item platform_name) env [])
  end.

Section Join.

(** [lib.append_path], whose source is not part of the files at hand:
    it updates [env] for one path of one variable. *)
Variable append_path : dict -> string -> string -> dict.

(** Lines 166-170: the paths of one variable. *)
Definition join_paths (variable : string) (env : dict)
  (paths : list string) : dict :=
  fold_left (fun env path =>
               if negb (Str.nonempty path) then env
               else append_path env variable path)
            paths env.

Definition join (env env_b : dict) : dict :=
  fold_left (fun env kv =>
               join_paths (fst kv) env (Str.split ";" (snd kv)))
            env_b env.

End Join.

(** The segments that [clean_value] keeps. *)
Definition kept (separator : ascii) (value : string) : list string :=
  filter Str.nonblank (uniqify_ordered (Str.split separator value)).

(** In [l] every predecessor of an element stands before it, unless it
    is one of [cyc]. *)
Definition predecessors_first (es : list edge) (cyc l : list string) : Prop :=
  forall l1 t l2 h,
    l = l1 ++ t :: l2 -> depends_on es h t -> In h l1 \/ In h cyc.

(* ================================================================== *)
(** ** [merge] *)

(** Lines 257-262. *)
Definition merge (env current_env : dict) : dict :=
  fold_left
    (fun result kv =>
       dict_set result (fst kv)
         (partial_format (snd kv) current_env (Some EmptyString)))
    env current_env.

(** [merge] on the store: [result] is a copy of the caller's current
    environment. *)
Definition merge_step (current_env result : Heap.ref)
  (kv : string * string) : Heap.M unit :=
  Heap.bind (Heap.read current_env) (fun d =>
    Heap.setitem result (fst kv)
      (partial_format (snd kv) d (Some EmptyString))).

Definition merge_in (env current_env : Heap.ref) : Heap.M Heap.ref :=
  Heap.bind (Heap.copy current_env) (fun result =>
  Heap.bind (Heap.items env) (fun its =>
  Heap.bind (Heap.for_each its (merge_step current_env result)) (fun _ =>
  Heap.ret result))).

(* ================================================================== *)
(** ** [locate] *)

Definition dquote : ascii := "034"%char.

(** [c.lower()] on the one-byte code points. *)
Definition lower_char (c : ascii) : ascii :=
  let n := nat_of_ascii c in
  if (Nat.leb 65 n && Nat.leb n 90)
     || (Nat.leb 192 n && Nat.leb n 214)
     || (Nat.leb 216 n && Nat.leb n 222)
  then ascii_of_nat (n + 32) else c.

(** [s.lower()] *)
Fixpoint lower (s : string) : string :=
  match s with
  | EmptyString => EmptyString
  | String c s' => String (lower_char c) (lower s')
  end.

(** [s.lstrip(c)] and [s.rstrip(c)] for one character. *)
Fixpoint lstrip_char (c : ascii) (s : string) : string :=
  match s with
  | EmptyString => EmptyString
  | String d s' => if Ascii.eqb d c then lstrip_char c s' else s
  end.

Fixpoint rstrip_char (c : ascii) (s : string) : string :=
  match s with
  | EmptyString => EmptyString
  | String d s' =>
      match rstrip_char c s' with
      | EmptyString => if Ascii.eqb d c then EmptyString
                       else String d EmptyString
      | r => String d r
      end
  end.

(** [s.strip(c)] *)
Definition strip_char (c : ascii) (s : string) : string :=
  rstrip_char c (lstrip_char c s).

Section Locate.

(** What [locate] asks of the operating system: [os.pathsep], the test
    [is_exe] of lines 279-282 on the file system, [os.path.join], and
    [os.getenv]. *)
Variable pathsep : ascii.
Variable is_exe : string -> bool.
Variable path_join : string -> string -> string.
Variable os_getenv : string -> option string.

(** Lines 289-292. *)
Definition candidate (program path ext : string) : string :=
  let fname := (program ++ lower ext)%string in
  path_join (strip_char dquote path) fname.

(** Lines 288-292: the extensions tried in one directory. *)
Fixpoint locate_in (program path : string) (exts : list string)
  : option string :=
  match exts with
  | [] => None
  | ext :: exts' =>
      let abspath := candidate program path ext in
      if is_exe abspath then Some abspath
      else locate_in program path exts'
  end.

(** Lines 287-294. *)
Fixpoint locate_paths (program : string) (paths exts : list string)
  : option string :=
  match paths with
  | [] => None
  | path :: paths' =>
      match locate_in program path exts with
      | Some abspath => Some abspath
      | None => locate_paths program paths' exts
      end
  end.

Definition locate (program : string) (env : dict) : result (option string) :=
  match dict_get env "PATH" with
  | None => Raise (KeyError "PATH")
  | Some path_value =>
      let paths := Str.split pathsep path_value in
      let extensions :=
        match dict_get env "PATHEXT" with
        | Some e => e
        | None =>
            match os_getenv "PATHEXT" with
            | Some e => e
            | None => EmptyString
            end
        end in
      Ok (locate_paths program paths (Str.split pathsep extensions))
  end.

(** Every path [locate] tests, in the order of the tests. *)
Definition candidates (program : string) (paths exts : list string)
  : list string :=
  flat_map (fun path => map (candidate program path) exts) paths.

End Locate.

(* ================================================================== *)
(** ** [discover] *)

Section Discover.

(** What [discover] asks of its surroundings: [os.pathsep], [os.environ],
    [os.path.join], the reading of a tool file ([None] when [open] raises
    [IOError] or [json.load] raises [ValueError]), the constant
    [PLATFORM], and [lib.append_path]. *)
Variable pathsep : ascii.
Variable environ : dict.
Variable path_join : string -> string -> string.
Variable load : string -> option (list (string * raw_value)).
Variable PLATFORM : string.
Variable append_path : dict -> string -> string -> dict.

(** Lines 208-211. *)
Definition tool_paths (env_paths tools : list string) : list string :=
  flat_map
    (fun env_path =>
       map (fun tool => path_join env_path (tool ++ ".json")) tools)
    env_paths.

(** Lines 214-234. *)
Fixpoint discover_files (paths : list string) (platform_name : option string)
  (environment : dict) : result dict :=
  match paths with
  | [] => Ok environment
  | tool_path :: paths' =>
      match load tool_path with
      | None => discover_files paths' platform_name environment
      | Some tool_env =>
          match prepare PLATFORM tool_env platform_name with
          | Raise e => Raise e
          | Ok tool_env =>
              discover_files paths' platform_name
                (join append_path environment tool_env)
          end
      end
  end.

Definition discover (tools : list string) (platform_name : option string)
  : result dict :=
  match dict_get environ "TOOL_ENV" with
  | None =>
      Raise (KeyError
               (String dquote
                  ("TOOL_ENV" ++
                   String dquote " environment variable not found. Please create it and point it to a folder with your .json config files.")))
  | Some v =>
      discover_files (tool_paths (Str.split pathsep v) tools)
        platform_name []
  end.

End Discover.

(** Every placeholder of every value names another key of the
    environment. *)
Definition closed_env (env : dict) : Prop :=
  forall k v name,
    In (k, v) env -> In name (findall v) -> In name (keys env) /\ name <> k.

(** [name] is a placeholder of some value of [env]. *)
Definition referenced (env : dict) (name : string) : Prop :=
  exists k v, In (k, v) env /\ In name (findall v).

(** The value [prepare] reads for a platform, and the string it stores. *)
Definition select_value (platform_name : string) (raw : raw_value)
  : flat_value :=
  match raw with
  | PerPlatform d =>
      match assoc d platform_name with
      | Some v => v
      | None => VStr ""
      end
  | Flat v => v
  end.

Definition flatten_value (v : flat_value) : string :=
  match v with
  | VList items => Str.join ";" items
  | VStr s => s
  end.

(** The platform [prepare] works for: the given name, or [PLATFORM] when
    none (or an empty one) is given. *)
Definition effective_platform (PLATFORM : string)
  (platform_name : option string) : string :=
  match platform_name with
  | Some (String c s) => String c s
  | _ => PLATFORM
  end.

(** The calls of [lib.append_path] that [join] makes for [env_b], in
    order: the variable and the path. *)
Definition join_calls (env_b : dict) : list (string * string) :=
  flat_map
    (fun kv =>
       map (fun path => (fst kv, path))
         (filter Str.nonempty (Str.split ";" (snd kv))))
    env_b.

(** The extensions [locate] tries: the environment's [PATHEXT], else the
    process's, else the empty string. *)
Definition path_extensions (os_getenv : string -> option string)
  (env : dict) : string :=
  match dict_get env "PATHEXT" with
  | Some e => e
  | None =>
      match os_getenv "PATHEXT" with
      | Some e => e
      | None => EmptyString
      end
  end.

(** The tool environments that can be read, in the order of the paths. *)
Definition loaded_tools (load : string -> option (list (string * raw_value)))
  (paths : list string) : list (list (string * raw_value)) :=
  flat_map (fun path => match load path with
                        | Some tool_env => [tool_env]
                        | None => []
                        end) paths.

(* ================================================================== *)
(** * Properties *)

(** ** Lists of strings *)

Lemma mem_str_In (x : string) (l : list string) :
  mem_str x l = true <-> In x l.
Proof.
  induction l as [|y l IH]; simpl.
  - split; [discriminate | tauto].
  - rewrite orb_true_iff, IH, String.eqb_eq. tauto.
Qed.

Lemma mem_str_not_In (x : string) (l : list string) :
  mem_str x l = false <-> ~ In x l.
Proof.
  rewrite <- mem_str_In. destruct (mem_str x l); split; congruence.
Qed.

Lemma uniq_from_spec (seq seen : list string) :
  NoDup (uniq_from seen seq)
  /\ (forall x, In x (uniq_from seen seq) <-> In x seq /\ ~ In x seen).
Proof.
  revert seen. induction seq as [|y seq IH]; intros seen; simpl.
  - split; [constructor | tauto].
  - destruct (mem_str y seen) eqn:E.
    + destruct (IH seen) as [Hnd Hin]. split; [exact Hnd|].
      intros x. rewrite Hin. apply mem_str_In in E.
      split; [tauto|]. intros [[->|H] Hn]; tauto.
    + destruct (IH (y :: seen)) as [Hnd Hin]. apply mem_str_not_In in E.
      split.
      * constructor; [|exact Hnd]. rewrite Hin. simpl. tauto.
      * intros x. simpl. rewrite Hin. simpl.
        destruct (string_dec y x) as [->|Hne]; tauto.
Qed.

Lemma uniqify_ordered_NoDup (seq : list string) : NoDup (uniqify_ordered seq).
Proof. apply uniq_from_spec. Qed.

Lemma uniqify_ordered_In (seq : list string) (x : string) :
  In x (uniqify_ordered seq) <-> In x seq.
Proof.
  unfold uniqify_ordered. rewrite (proj2 (uniq_from_spec seq [])).
  simpl. tauto.
Qed.

Lemma uniq_from_fixed (seq seen : list string) :
  NoDup seq -> (forall x, In x seq -> ~ In x seen) ->
  uniq_from seen seq = seq.
Proof.
  revert seen. induction seq as [|y seq IH]; intros seen Hnd Hdis; simpl.
  - reflexivity.
  - inversion Hnd as [|? ? Hy Hnd']; subst.
    assert (E : mem_str y seen = false).
    { apply mem_str_not_In. apply Hdis. now left. }
    rewrite E. f_equal. apply IH; [exact Hnd'|].
    intros x Hx [<-|Hs]; [tauto|]. apply (Hdis x); [now right | exact Hs].
Qed.

Lemma uniqify_ordered_fixed (seq : list string) :
  NoDup seq -> uniqify_ordered seq = seq.
Proof. intros H. apply uniq_from_fixed; [exact H | simpl; tauto]. Qed.

Lemma filter_fixed {A : Type} (f : A -> bool) (l : list A) :
  (forall x, In x l -> f x = true) -> filter f l = l.
Proof.
  induction l as [|a l IH]; simpl; intros H; [reflexivity|].
  rewrite (H a (or_introl eq_refl)). f_equal. apply IH. auto.
Qed.

(** ** Splitting and joining *)

Lemma split_not_nil (sep : ascii) (s : string) : Str.split sep s <> [].
Proof.
  destruct s as [|c s]; simpl; [discriminate|].
  destruct (Ascii.eqb c sep); [discriminate|].
  destruct (Str.split sep s); discriminate.
Qed.

Lemma split_no_sep (sep : ascii) (s seg : string) :
  In seg (Str.split sep s) -> Str.mem sep seg = false.
Proof.
  revert seg. induction s as [|c s IH]; simpl; intros seg H.
  - destruct H as [<-|[]]. reflexivity.
  - destruct (Ascii.eqb c sep) eqn:E.
    + destruct H as [<-|H]; [reflexivity | now apply IH].
    + destruct (Str.split sep s) as [|seg0 segs] eqn:Es.
      * destruct H as [<-|[]]. simpl. now rewrite E.
      * destruct H as [<-|H].
        -- simpl. rewrite E. simpl. apply IH. now left.
        -- apply IH. now right.
Qed.

Lemma split_app_sep (sep : ascii) (seg rest : string) :
  Str.mem sep seg = false ->
  Str.split sep (seg ++ String sep rest) = seg :: Str.split sep rest.
Proof.
  induction seg as [|c seg IH]; simpl; intros H.
  - now rewrite Ascii.eqb_refl.
  - apply orb_false_iff in H. destruct H as [Hc Hseg].
    rewrite Hc, (IH Hseg). reflexivity.
Qed.

Lemma split_single (sep : ascii) (seg : string) :
  Str.mem sep seg = false -> Str.split sep seg = [seg].
Proof.
  induction seg as [|c seg IH]; simpl; intros H; [reflexivity|].
  apply orb_false_iff in H. destruct H as [Hc Hseg].
  now rewrite Hc, (IH Hseg).
Qed.

Lemma split_join (sep : ascii) (segs : list string) :
  segs <> [] ->
  (forall seg, In seg segs -> Str.mem sep seg = false) ->
  Str.split sep (Str.join (Str.of_char sep) segs) = segs.
Proof.
  induction segs as [|seg segs IH]; intros Hne Hall; [congruence|].
  destruct segs as [|seg' segs].
  - simpl. apply split_single. apply Hall. now left.
  - change (Str.join (Str.of_char sep) (seg :: seg' :: segs))
      with (seg ++ String sep (Str.join (Str.of_char sep) (seg' :: segs)))%string.
    rewrite split_app_sep by (apply Hall; now left).
    f_equal. apply IH; [discriminate|].
    intros s Hs. apply Hall. now right.
Qed.

Lemma join_split (sep : ascii) (s : string) :
  Str.join (Str.of_char sep) (Str.split sep s) = s.
Proof.
  induction s as [|c s IH]; simpl; [reflexivity|].
  destruct (Ascii.eqb c sep) eqn:E.
  - apply Ascii.eqb_eq in E. subst c.
    pose proof (split_not_nil sep s) as Hne.
    destruct (Str.split sep s) as [|seg segs]; [congruence|].
    change (Str.join (Str.of_char sep) (EmptyString :: seg :: segs))
      with (String sep (Str.join (Str.of_char sep) (seg :: segs))).
    now rewrite IH.
  - pose proof (split_not_nil sep s) as Hne.
    destruct (Str.split sep s) as [|seg segs]; [congruence|].
    destruct segs as [|seg' segs]; simpl in *; now rewrite <- IH.
Qed.

Lemma kept_spec (separator : ascii) (value seg : string) :
  In seg (kept separator value) <->
  In seg (Str.split separator value) /\ Str.nonblank seg = true.
Proof.
  unfold kept. rewrite filter_In, uniqify_ordered_In. tauto.
Qed.

Lemma kept_NoDup (separator : ascii) (value : string) :
  NoDup (kept separator value).
Proof. apply NoDup_filter, uniqify_ordered_NoDup. Qed.

Lemma kept_clean (separator : ascii) (value : string) :
  kept separator (clean_value separator value) = kept separator value.
Proof.
  unfold clean_value. fold (kept separator value).
  destruct (kept separator value) as [|seg segs] eqn:E.
  - reflexivity.
  - rewrite <- E. unfold kept at 1.
    rewrite split_join.
    + rewrite uniqify_ordered_fixed by apply kept_NoDup.
      apply filter_fixed. intros x Hx. now apply kept_spec in Hx.
    + rewrite E. discriminate.
    + intros s Hs. apply kept_spec in Hs. destruct Hs as [Hs _].
      now apply split_no_sep in Hs.
Qed.

(** C7. Path normalization is idempotent: for every value and every
    one-character separator, cleaning a cleaned value gives the cleaned
    value again. *)
Theorem clean_value_idempotent (separator : ascii) (value : string) :
  clean_value separator (clean_value separator value)
  = clean_value separator value.
Proof.
  change (Str.join (Str.of_char separator)
            (kept separator (clean_value separator value))
          = Str.join (Str.of_char separator) (kept separator value)).
  now rewrite kept_clean.
Qed.



(** ** Dictionaries *)

Lemma dict_get_set (d : dict) (k v k' : string) :
  dict_get (dict_set d k v) k'
  = if String.eqb k k' then Some v else dict_get d k'.
Proof.
  induction d as [|[k0 v0] d IH]; simpl.
  - reflexivity.
  - destruct (String.eqb k0 k) eqn:E; simpl.
    + apply String.eqb_eq in E. subst k0.
      destruct (String.eqb k k'); reflexivity.
    + rewrite IH. destruct (String.eqb k0 k') eqn:E'; [|reflexivity].
      apply String.eqb_eq in E'. subst k0. now rewrite String.eqb_sym, E.
Qed.

Lemma dict_get_In (d : dict) (k : string) :
  In k (keys d) <-> dict_get d k <> None.
Proof.
  induction d as [|[k0 v0] d IH]; simpl.
  - tauto.
  - destruct (String.eqb k0 k) eqn:E.
    + apply String.eqb_eq in E. split; [discriminate | auto].
    + apply String.eqb_neq in E. rewrite <- IH. tauto.
Qed.

Lemma dict_mem_In (d : dict) (k : string) :
  dict_mem d k = true <-> In k (keys d).
Proof.
  unfold dict_mem. rewrite dict_get_In.
  destruct (dict_get d k); split; congruence.
Qed.

Lemma keys_dict_set (d : dict) (k v : string) :
  keys (dict_set d k v) = if dict_mem d k then keys d else keys d ++ [k].
Proof.
  unfold dict_mem. induction d as [|[k0 v0] d IH]; simpl; [reflexivity|].
  destruct (String.eqb k0 k) eqn:E; simpl; [reflexivity|].
  rewrite IH. now destruct (dict_get d k).
Qed.

Lemma wf_dict_set (d : dict) (k v : string) :
  wf_dict d -> wf_dict (dict_set d k v).
Proof.
  unfold wf_dict. intros H. rewrite keys_dict_set.
  destruct (dict_mem d k) eqn:E; [exact H|].
  assert (Hk : ~ In k (keys d)).
  { rewrite <- dict_mem_In. congruence. }
  apply NoDup_app; [exact H | repeat constructor; simpl; tauto |].
  intros x Hx [<-|[]]. tauto.
Qed.

Lemma dict_get_In_pair (d : dict) (k v : string) :
  wf_dict d -> In (k, v) d -> dict_get d k = Some v.
Proof.
  unfold wf_dict. induction d as [|[k0 v0] d IH]; simpl; intros Hnd H.
  - destruct H.
  - inversion Hnd as [|? ? Hk0 Hnd']; subst.
    destruct H as [H|H].
    + inversion H; subst. now rewrite String.eqb_refl.
    + destruct (String.eqb k0 k) eqn:E; [|now apply IH].
      apply String.eqb_eq in E. subst k0. exfalso. apply Hk0.
      apply (in_map fst) in H. exact H.
Qed.

Lemma dict_get_Some_In (d : dict) (k v : string) :
  dict_get d k = Some v -> In (k, v) d.
Proof.
  induction d as [|[k0 v0] d IH]; simpl; [discriminate|].
  destruct (String.eqb k0 k) eqn:E.
  - apply String.eqb_eq in E. intros [= ->]. subst. now left.
  - intros H. right. now apply IH.
Qed.

(** ** The cleanup loop *)

Lemma cleanup_env_fold (separator : ascii) (items env : dict) (k : string) :
  NoDup (keys items) ->
  (forall k' v', In (k', v') items -> dict_get env k' = Some v') ->
  dict_get (fold_left
              (fun env kv =>
                 dict_set env (fst kv) (clean_value separator (snd kv)))
              items env) k
  = match dict_get items k with
    | Some v => Some (clean_value separator v)
    | None => dict_get env k
    end.
Proof.
  revert env. induction items as [|[k0 v0] items IH]; intros env Hnd Hin.
  - reflexivity.
  - simpl. inversion Hnd as [|? ? Hk0 Hnd']; subst.
    rewrite IH; [|exact Hnd'|].
    + rewrite dict_get_set. destruct (String.eqb k0 k) eqn:E.
      * apply String.eqb_eq in E. subst k0.
        destruct (dict_get items k) eqn:G; [|reflexivity].
        exfalso. apply Hk0. apply dict_get_In. congruence.
      * reflexivity.
    + intros k' v' H'. rewrite dict_get_set.
      destruct (String.eqb k0 k') eqn:E.
      * apply String.eqb_eq in E. subst k0. exfalso. apply Hk0.
        apply (in_map fst) in H'. exact H'.
      * apply Hin. now right.
Qed.

Lemma dict_get_cleanup (separator : ascii) (env : dict) (k : string) :
  wf_dict env ->
  dict_get (cleanup_env separator env) k
  = option_map (clean_value separator) (dict_get env k).
Proof.
  intros Hwf. unfold cleanup_env. rewrite cleanup_env_fold.
  - now destruct (dict_get env k).
  - exact Hwf.
  - intros k' v'. now apply dict_get_In_pair.
Qed.

(** ** Dynamic keys *)

Lemma format_keys_allowed (env items formatted : dict) :
  exists out,
    format_keys true env items formatted = Ok out
    /\ (wf_dict formatted -> wf_dict out)
    /\ forall name,
         dict_get out name
         = match last_produced env items name with
           | Some v => Some v
           | None => dict_get formatted name
           end.
Proof.
  revert formatted. induction items as [|[key value] items IH];
    intros formatted; simpl.
  - exists formatted. repeat split; auto.
  - rewrite andb_false_r.
    destruct (IH (dict_set formatted (partial_format key env None) value))
      as (out & Hout & Hwf & Hget).
    exists out. split; [exact Hout|]. split.
    + intros H. apply Hwf. now apply wf_dict_set.
    + intros name. rewrite Hget, dict_get_set.
      destruct (last_produced env items name); [reflexivity|].
      destruct (String.eqb (partial_format key env None) name); reflexivity.
Qed.

Lemma wf_dict_nil : wf_dict [].
Proof. constructor. Qed.

(** C1, as stated, fails: in [clash_env] the keys [{A}] (value 1, earlier)
    and [{B}] (value 2, later) both resolve to [X]; with the clash allowed
    [build] returns 2 for [X], the value of the later pair, and 1 is
    lost. *)
Lemma build_key_clash_not_first :
  partial_format "{A}" (resolve_values clash_env) None = "X"
  /\ partial_format "{B}" (resolve_values clash_env) None = "X"
  /\ build ":" clash_env true false true true
     = Ok [("X", "2"); ("A", "X"); ("B", "X")].
Proof. vm_compute. repeat split. Qed.

(** C1, amended. Whenever [build] gets past the cycle check (no cyclic
    node, or cycles allowed), [build] with dynamic keys and
    [allow_key_clash] completes, and the returned environment maps every
    resolved name to the value (cleaned, under [cleanup]) of the LAST
    source key that produced it: on a clash the earlier value is
    overwritten. *)
Theorem build_key_clash_keeps_last (pathsep : ascii) (env : dict)
  (allow_cycle cleanup : bool)
  (Hcycle : cyclic (topological_sort (dependencies env)) = []
            \/ allow_cycle = true) :
  exists out,
    build pathsep env true allow_cycle true cleanup = Ok out
    /\ forall name,
         dict_get out name
         = option_map (if cleanup then clean_value pathsep else fun v => v)
             (last_produced (resolve_values env) (resolve_values env) name).
Proof.
  unfold build.
  assert (Hgate :
    negb (Nat.eqb
            (List.length (cyclic (topological_sort (dependencies env)))) 0)
    && negb allow_cycle = false).
  { destruct Hcycle as [-> | ->]; [reflexivity | apply andb_false_r]. }
  rewrite Hgate. fold (resolve_values env).
  destruct (format_keys_allowed (resolve_values env) (resolve_values env) [])
    as (out & Hout & Hwf & Hget).
  rewrite Hout. eexists. split; [reflexivity|].
  intros name. destruct cleanup.
  - rewrite dict_get_cleanup by (apply Hwf, wf_dict_nil).
    rewrite Hget. simpl.
    now destruct (last_produced (resolve_values env) (resolve_values env) name).
  - rewrite Hget. simpl.
    now destruct (last_produced (resolve_values env) (resolve_values env) name).
Qed.

Lemma build_key_clash_keeps_last_witness :
  exists out,
    build ":" clash_env true false true true = Ok out
    /\ forall name,
         dict_get out name
         = option_map (clean_value ":")
             (last_produced (resolve_values clash_env)
                (resolve_values clash_env) name).
Proof.
  apply (build_key_clash_keeps_last ":" clash_env false true).
  left. vm_compute. reflexivity.
Defined.

(** ** Reachability *)

Lemma succs_In (es : list edge) (a b : string) :
  In b (succs es a) <-> depends_on es a b.
Proof.
  unfold succs, depends_on. rewrite in_map_iff. split.
  - intros ([a' b'] & <- & H). apply filter_In in H. destruct H as [H E].
    simpl in *. apply String.eqb_eq in E. now subst.
  - intros H. exists (a, b). split; [reflexivity|].
    apply filter_In. split; [exact H|]. simpl. apply String.eqb_refl.
Qed.

Lemma nodes_In (es : list edge) (n : string) :
  In n (nodes es) <-> exists e, In e es /\ (fst e = n \/ snd e = n).
Proof.
  unfold nodes. rewrite uniqify_ordered_In, in_flat_map. simpl.
  split; intros (e & He & H); exists e; tauto.
Qed.

Lemma add_all_In (xs acc : list string) (x : string) :
  In x (add_all acc xs) <-> In x acc \/ In x xs.
Proof.
  revert acc. induction xs as [|y xs IH]; intros acc; simpl.
  - tauto.
  - destruct (mem_str y acc) eqn:E.
    + rewrite IH. apply mem_str_In in E.
      split; [tauto|]. intros [H|[<-|H]]; tauto.
    + rewrite IH, in_app_iff. simpl. tauto.
Qed.

Lemma add_all_NoDup (xs acc : list string) :
  NoDup acc -> NoDup (add_all acc xs).
Proof.
  revert acc. induction xs as [|y xs IH]; intros acc H; simpl; [exact H|].
  destruct (mem_str y acc) eqn:E; [now apply IH|].
  apply IH. apply mem_str_not_In in E.
  apply NoDup_app; [exact H | repeat constructor; simpl; tauto |].
  intros x Hx [<-|[]]. tauto.
Qed.

Lemma add_all_length (xs acc : list string) :
  List.length acc <= List.length (add_all acc xs).
Proof.
  revert acc. induction xs as [|y xs IH]; intros acc; simpl; [lia|].
  destruct (mem_str y acc); [apply IH|].
  specialize (IH (acc ++ [y])). rewrite length_app in IH. simpl in IH. lia.
Qed.

Lemma add_all_same_length (xs acc : list string) :
  List.length (add_all acc xs) = List.length acc ->
  incl xs acc /\ add_all acc xs = acc.
Proof.
  revert acc. induction xs as [|y xs IH]; intros acc H; simpl in *.
  - split; [intros x [] | reflexivity].
  - destruct (mem_str y acc) eqn:E.
    + destruct (IH acc H) as [Hi He]. split; [|exact He].
      apply mem_str_In in E. intros x [<-|Hx]; auto.
    + pose proof (add_all_length xs (acc ++ [y])) as Hl.
      rewrite length_app in Hl. simpl in Hl. lia.
Qed.

Lemma add_all_incl (xs acc : list string) :
  incl xs acc -> add_all acc xs = acc.
Proof.
  revert acc. induction xs as [|y xs IH]; intros acc H; simpl; [reflexivity|].
  assert (E : mem_str y acc = true).
  { apply mem_str_In. apply H. now left. }
  rewrite E. apply IH. intros x Hx. apply H. now right.
Qed.

Lemma closed_flat_succs (es : list edge) (acc : list string) :
  closed es acc <-> incl (flat_map (succs es) acc) acc.
Proof.
  unfold closed, incl. split.
  - intros H b Hb. apply in_flat_map in Hb. destruct Hb as (a & Ha & Hb).
    apply succs_In in Hb. eauto.
  - intros H a b Ha Hab. apply H. apply in_flat_map. exists a.
    split; [exact Ha | now apply succs_In].
Qed.

Lemma expand_In (es : list edge) (acc : list string) (x : string) :
  In x (expand es acc) <->
  In x acc \/ exists a, In a acc /\ depends_on es a x.
Proof.
  unfold expand. rewrite add_all_In, in_flat_map.
  split; intros [H|(a & Ha & H)]; auto; right; exists a;
    (split; [exact Ha|]); now apply succs_In.
Qed.

Lemma closure_closed_id (fuel : nat) (es : list edge) (acc : list string) :
  closed es acc -> closure fuel es acc = acc.
Proof.
  intros H. induction fuel as [|fuel IH]; simpl; [reflexivity|].
  unfold expand. rewrite add_all_incl; [exact IH|].
  now apply closed_flat_succs.
Qed.

Lemma closure_closed (es : list edge) (fuel : nat) (acc : list string) :
  NoDup acc -> incl acc (nodes es) ->
  List.length (nodes es) <= fuel + List.length acc ->
  closed es (closure fuel es acc).
Proof.
  revert acc. induction fuel as [|fuel IH]; intros acc Hnd Hin Hlen; simpl.
  - intros a b Ha Hab.
    apply (@NoDup_length_incl _ acc (nodes es) Hnd); [simpl in Hlen; lia | exact Hin |].
    apply nodes_In. exists (a, b). split; [exact Hab | now right].
  - destruct (Nat.eq_dec (List.length (expand es acc)) (List.length acc))
      as [E|E].
    + apply add_all_same_length in E. destruct E as [Hi He].
      unfold expand. rewrite He.
      rewrite closure_closed_id; now apply closed_flat_succs.
    + apply IH.
      * now apply add_all_NoDup.
      * intros x Hx. apply expand_In in Hx.
        destruct Hx as [Hx|(a & Ha & Hax)]; [now apply Hin|].
        apply nodes_In. exists (a, x). split; [exact Hax | now right].
      * pose proof (add_all_length (flat_map (succs es) acc) acc) as Hl.
        fold (expand es acc) in Hl. lia.
Qed.

Lemma closure_In_acc (es : list edge) (fuel : nat) (acc : list string)
  (x : string) :
  In x acc -> In x (closure fuel es acc).
Proof.
  revert acc. induction fuel as [|fuel IH]; intros acc H; simpl; [exact H|].
  apply IH. apply expand_In. now left.
Qed.

Lemma closure_sound (es : list edge) (n : string) (fuel : nat)
  (acc : list string) :
  (forall x, In x acc -> path es n x) ->
  forall x, In x (closure fuel es acc) -> path es n x.
Proof.
  revert acc. induction fuel as [|fuel IH]; intros acc H x Hx; simpl in Hx.
  - now apply H.
  - apply (IH (expand es acc)); [|exact Hx].
    intros y Hy. apply expand_In in Hy.
    destruct Hy as [Hy|(a & Ha & Hay)]; [now apply H|].
    apply t_trans with a; [now apply H | now apply t_step].
Qed.

Lemma reachable_spec (es : list edge) (a b : string) :
  In b (reachable es a) <-> path es a b.
Proof.
  unfold reachable. split.
  - apply closure_sound. intros x Hx. apply add_all_In in Hx.
    destruct Hx as [[]|Hx]. apply t_step. now apply succs_In.
  - intros H.
    assert (Hc : closed es (closure (List.length (nodes es)) es
                              (add_all [] (succs es a)))).
    { apply closure_closed.
      - apply add_all_NoDup. constructor.
      - intros x Hx. apply add_all_In in Hx. destruct Hx as [[]|Hx].
        apply succs_In in Hx. apply nodes_In. exists (a, x).
        split; [exact Hx | now right].
      - lia. }
    apply clos_trans_tn1 in H. induction H as [b Hab | b c Hbc _ IH].
    + apply closure_In_acc. apply add_all_In. right. now apply succs_In.
    + apply (Hc b c IH Hbc).
Qed.

Lemma on_cycle_spec (es : list edge) (n : string) :
  on_cycle es n = true <-> path es n n.
Proof. unfold on_cycle. now rewrite mem_str_In, reachable_spec. Qed.

Lemma path_In_nodes (es : list edge) (a b : string) :
  path es a b -> In a (nodes es) /\ In b (nodes es).
Proof.
  induction 1 as [a b H | a b c _ [Ha _] _ [_ Hc]].
  - split; apply nodes_In; exists (a, b); auto.
  - now split.
Qed.

Lemma cyclic_spec (es : list edge) (n : string) :
  In n (cyclic (topological_sort es)) <-> path es n n.
Proof.
  simpl. rewrite filter_In, on_cycle_spec. split; [tauto|].
  intros H. split; [|exact H]. now apply path_In_nodes in H.
Qed.

(** ** The cycle check *)

Lemma format_keys_raises (allow_key_clash : bool) (env items formatted : dict)
  (e : error) :
  format_keys allow_key_clash env items formatted = Raise e ->
  exists new_key key, e = DynamicKeyClashError new_key key.
Proof.
  revert formatted. induction items as [|[key value] items IH];
    intros formatted; simpl; [discriminate|].
  destruct (dict_mem formatted (partial_format key env None)
            && negb allow_key_clash).
  - intros [= <-]. eauto.
  - apply IH.
Qed.

Lemma cyclic_nonempty (es : list edge) :
  has_cycle es ->
  Nat.eqb (List.length (cyclic (topological_sort es))) 0 = false.
Proof.
  intros [n Hn]. apply cyclic_spec in Hn.
  destruct (cyclic (topological_sort es)); [destruct Hn | reflexivity].
Qed.





(** ** Substrings *)

Lemma sapp_assoc (a b c : string) :
  ((a ++ b) ++ c = a ++ (b ++ c))%string.
Proof. induction a as [|x a IH]; simpl; [reflexivity | now rewrite IH]. Qed.

Lemma sapp_nil_r (a : string) : (a ++ "" = a)%string.
Proof. induction a as [|x a IH]; simpl; [reflexivity | now rewrite IH]. Qed.

Lemma slength_app (a b : string) :
  String.length (a ++ b) = String.length a + String.length b.
Proof. induction a as [|x a IH]; simpl; [reflexivity | now rewrite IH]. Qed.

Lemma prefix_spec (p s : string) :
  prefix p s = true <-> exists t, s = (p ++ t)%string.
Proof.
  revert s. induction p as [|x p IH]; intros s.
  - split; [intros _; now exists s | intros _; now destruct s].
  - destruct s as [|y s]; simpl.
    + split; [discriminate | intros [t H]; discriminate].
    + destruct (ascii_dec x y) as [->|Hne].
      * rewrite IH. split; intros [t H]; exists t; [now rewrite H|].
        now inversion H.
      * split; [discriminate|]. intros [t H]. inversion H. congruence.
Qed.

Lemma contains_spec (sub s : string) :
  Str.contains sub s = true <-> occurs sub s.
Proof.
  unfold occurs. induction s as [|y s IH].
  - cbn [Str.contains]. rewrite orb_false_r, prefix_spec. split.
    + intros [t H]. now exists "", t.
    + intros (pre & post & H). destruct pre; [|discriminate].
      now exists post.
  - cbn [Str.contains]. rewrite orb_true_iff, prefix_spec, IH. split.
    + intros [[t H] | (pre & post & H)].
      * now exists "", t.
      * exists (String y pre), post. simpl. now rewrite H.
    + intros (pre & post & H). destruct pre as [|x pre]; simpl in H.
      * left. now exists post.
      * right. inversion H. now exists pre, post.
Qed.

Lemma occurs_refl (s : string) : occurs s s.
Proof. exists "", "". simpl. now rewrite sapp_nil_r. Qed.

Lemma occurs_app_l (sub a b : string) : occurs sub a -> occurs sub (a ++ b).
Proof.
  intros (pre & post & ->). exists pre, (post ++ b)%string.
  now rewrite !sapp_assoc.
Qed.

Lemma occurs_app_r (sub a b : string) : occurs sub b -> occurs sub (a ++ b).
Proof.
  intros (pre & post & ->). exists (a ++ pre)%string, post.
  now rewrite !sapp_assoc.
Qed.

Lemma occurs_trans (a b c : string) : occurs a b -> occurs b c -> occurs a c.
Proof.
  intros (p1 & q1 & ->) (p2 & q2 & ->).
  exists (p2 ++ p1)%string, (q1 ++ q2)%string. now rewrite !sapp_assoc.
Qed.

Lemma prefix_before_char (c : ascii) (sub post a b : string) :
  Str.mem c sub = false ->
  (sub ++ post = a ++ String c b)%string ->
  exists t, a = (sub ++ t)%string.
Proof.
  revert a. induction sub as [|y sub IH]; intros a Hm H; simpl in *.
  - now exists a.
  - apply orb_false_iff in Hm. destruct Hm as [Hy Hm].
    destruct a as [|x a]; simpl in H; injection H as <- Hrest.
    + now rewrite Ascii.eqb_refl in Hy.
    + destruct (IH a Hm Hrest) as [t ->]. now exists t.
Qed.

Lemma occurs_around_char (c : ascii) (sub a b : string) :
  Str.mem c sub = false ->
  occurs sub (a ++ String c b) -> occurs sub a \/ occurs sub b.
Proof.
  intros Hm (pre & post & H). revert pre H.
  induction a as [|x a IH]; intros pre H; simpl in H.
  - destruct pre as [|p pre]; simpl in H.
    + left. destruct sub as [|y sub]; [apply occurs_refl|].
      simpl in *. injection H as <- _.
      now rewrite Ascii.eqb_refl in Hm.
    + right. injection H as _ Hrest. now exists pre, post.
  - destruct pre as [|p pre]; simpl in H.
    + left. symmetry in H.
      destruct (prefix_before_char c sub post (String x a) b Hm H) as [t ->].
      exists "", t. reflexivity.
    + injection H as <- Hrest.
      destruct (IH pre Hrest) as [Ho|Ho]; [left|now right].
      destruct Ho as (p1 & q1 & ->). now exists (String x p1), q1.
Qed.

Lemma occurs_join (sep : ascii) (sub : string) (segs : list string) :
  Str.mem sep sub = false ->
  occurs sub (Str.join (Str.of_char sep) segs) ->
  sub = "" \/ exists seg, In seg segs /\ occurs sub seg.
Proof.
  intros Hm. induction segs as [|seg segs IH]; intros H.
  - left. destruct H as (pre & post & H). simpl in H.
    destruct pre; [|discriminate]. destruct sub; [reflexivity|discriminate].
  - destruct segs as [|seg' segs].
    + right. exists seg. split; [now left | exact H].
    + change (Str.join (Str.of_char sep) (seg :: seg' :: segs))
        with (seg ++ String sep (Str.join (Str.of_char sep) (seg' :: segs)))%string
        in H.
      apply occurs_around_char in H; [|exact Hm].
      destruct H as [H|H].
      * right. exists seg. split; [now left | exact H].
      * destruct (IH H) as [->|(s & Hs & Ho)]; [now left|].
        right. exists s. split; [now right | exact Ho].
Qed.

Lemma occurs_in_join (sep sub seg : string) (segs : list string) :
  In seg segs -> occurs sub seg -> occurs sub (Str.join sep segs).
Proof.
  induction segs as [|s segs IH]; intros Hin Ho; [destruct Hin|].
  destruct segs as [|s' segs].
  - destruct Hin as [->|[]]. exact Ho.
  - change (Str.join sep (s :: s' :: segs))
      with (s ++ sep ++ Str.join sep (s' :: segs))%string.
    destruct Hin as [->|Hin].
    + now apply occurs_app_l.
    + apply occurs_app_r, occurs_app_r. now apply IH.
Qed.

Lemma nonblank_app (a b : string) :
  Str.nonblank (a ++ b) = Str.nonblank a || Str.nonblank b.
Proof.
  induction a as [|x a IH]; simpl; [reflexivity|].
  now rewrite IH, orb_assoc.
Qed.

Lemma nonblank_occurs (sub s : string) :
  occurs sub s -> Str.nonblank sub = true -> Str.nonblank s = true.
Proof.
  intros (pre & post & ->) H. rewrite !nonblank_app, H.
  now rewrite orb_true_r.
Qed.

(** What cleaning does to the occurrences of a text free of the
    separator. *)
Lemma occurs_clean_value (separator : ascii) (sub value : string) :
  Str.mem separator sub = false -> Str.nonblank sub = true ->
  (occurs sub (clean_value separator value) <-> occurs sub value).
Proof.
  intros Hm Hb. unfold clean_value. fold (kept separator value). split.
  - intros H. apply occurs_join in H; [|exact Hm].
    destruct H as [->|(seg & Hseg & Ho)]; [discriminate|].
    apply kept_spec in Hseg. destruct Hseg as [Hseg _].
    rewrite <- (join_split separator value).
    now apply occurs_in_join with seg.
  - intros H. rewrite <- (join_split separator value) in H.
    apply occurs_join in H; [|exact Hm].
    destruct H as [->|(seg & Hseg & Ho)]; [discriminate|].
    apply occurs_in_join with seg; [|exact Ho].
    apply kept_spec. split; [exact Hseg|].
    now apply nonblank_occurs with sub.
Qed.

(** ** The scan for placeholders *)

Lemma close_brace_spec (s m r : string) :
  close_brace s = Some (m, r) ->
  s = (m ++ String Str.rbrace r)%string /\ Str.mem Str.rbrace m = false.
Proof.
  revert m. induction s as [|c s IH]; intros m; simpl; [discriminate|].
  destruct (Ascii.eqb c Str.rbrace) eqn:E.
  - apply Ascii.eqb_eq in E. intros [= <- <-]. now subst.
  - destruct (Ascii.eqb c Str.newline); [discriminate|].
    destruct (close_brace s) as [[m' r']|]; [|discriminate].
    intros [= <- <-]. destruct (IH m' eq_refl) as [-> Hm].
    simpl. now rewrite E.
Qed.

Lemma close_brace_none (s : string) :
  Str.mem Str.rbrace s = false -> close_brace s = None.
Proof.
  induction s as [|c s IH]; simpl; [reflexivity|].
  intros H. apply orb_false_iff in H. destruct H as [Hc Hs].
  rewrite Hc, (IH Hs). now destruct (Ascii.eqb c Str.newline).
Qed.

Lemma match_name_spec (s n r : string) :
  match_name s = Some (n, r) ->
  s = (n ++ String Str.rbrace r)%string
  /\ exists c m, n = String c m /\ Str.mem Str.rbrace m = false.
Proof.
  destruct s as [|c s]; simpl; [discriminate|].
  destruct (Ascii.eqb c Str.newline); [discriminate|].
  destruct (close_brace s) as [[m r']|] eqn:E; [|discriminate].
  intros [= <- <-]. apply close_brace_spec in E. destruct E as [-> Hm].
  split; [reflexivity | eauto].
Qed.

Lemma scan_skip (p r : string) :
  scan (String.length p) (p ++ r) = scan 0 r.
Proof. induction p as [|c p IH]; simpl; [reflexivity | exact IH]. Qed.

Lemma tokens_nil : tokens "" = [].
Proof. reflexivity. Qed.

Lemma tokens_lit (c : ascii) (s : string) :
  Ascii.eqb c Str.lbrace = false \/ match_name s = None ->
  tokens (String c s) = Lit c :: tokens s.
Proof.
  unfold tokens. simpl. intros [-> | ->]; [reflexivity|].
  now destruct (Ascii.eqb c Str.lbrace).
Qed.

Lemma tokens_hole (s n r : string) :
  match_name s = Some (n, r) ->
  tokens (String Str.lbrace s) = Hole n :: tokens r.
Proof.
  intros H. unfold tokens. simpl. rewrite H. f_equal.
  apply match_name_spec in H. destruct H as [-> _].
  change (String Str.rbrace r) with ("}" ++ r)%string.
  rewrite <- sapp_assoc.
  replace (S (String.length n)) with (String.length (n ++ "}")).
  - apply scan_skip.
  - rewrite slength_app. simpl. lia.
Qed.

(** Induction along the scan. *)
Lemma tokens_ind (P : string -> Prop) :
  P "" ->
  (forall c s,
     Ascii.eqb c Str.lbrace = false \/ match_name s = None ->
     P s -> P (String c s)) ->
  (forall s n r,
     match_name s = Some (n, r) -> P r -> P (String Str.lbrace s)) ->
  forall s, P s.
Proof.
  intros Hnil Hlit Hhole s.
  remember (String.length s) as len eqn:Hlen.
  revert s Hlen. induction len as [len IH] using lt_wf_ind. intros s Hlen.
  destruct s as [|c s]; [exact Hnil|].
  destruct (Ascii.eqb c Str.lbrace) eqn:E.
  - destruct (match_name s) as [[n r]|] eqn:M.
    + apply Ascii.eqb_eq in E. subst c. apply (Hhole s n r M).
      apply (IH (String.length r)); [|reflexivity].
      apply match_name_spec in M. destruct M as [-> _].
      subst len. simpl. rewrite slength_app. simpl. lia.
    + apply Hlit; [now right|].
      apply (IH (String.length s)); [subst len; simpl; lia | reflexivity].
  - apply Hlit; [now left|].
    apply (IH (String.length s)); [subst len; simpl; lia | reflexivity].
Qed.

Lemma concat_cons (x : string) (xs : list string) :
  String.concat "" (x :: xs) = (x ++ String.concat "" xs)%string.
Proof.
  destruct xs as [|y xs]; simpl; [now rewrite sapp_nil_r | reflexivity].
Qed.

Lemma partial_format_lit (c : ascii) (s : string) (data : dict)
  (missing : option string) :
  Ascii.eqb c Str.lbrace = false \/ match_name s = None ->
  partial_format (String c s) data missing
  = String c (partial_format s data missing).
Proof.
  intros H. unfold partial_format. rewrite (tokens_lit c s H).
  cbn [map]. now rewrite concat_cons.
Qed.

Lemma partial_format_hole (s n r : string) (data : dict)
  (missing : option string) :
  match_name s = Some (n, r) ->
  partial_format (String Str.lbrace s) data missing
  = (render data missing (Hole n) ++ partial_format r data missing)%string.
Proof.
  intros H. unfold partial_format. rewrite (tokens_hole s n r H).
  cbn [map]. now rewrite concat_cons.
Qed.

Lemma findall_lit (c : ascii) (s : string) :
  Ascii.eqb c Str.lbrace = false \/ match_name s = None ->
  findall (String c s) = findall s.
Proof. intros H. unfold findall. now rewrite (tokens_lit c s H). Qed.

Lemma findall_hole (s n r : string) :
  match_name s = Some (n, r) ->
  findall (String Str.lbrace s) = n :: findall r.
Proof. intros H. unfold findall. now rewrite (tokens_hole s n r H). Qed.



(** A template without placeholders is formatted to itself. *)
Lemma partial_format_plain (data : dict) (missing : option string)
  (s : string) :
  findall s = [] -> partial_format s data missing = s.
Proof.
  induction s as [|c s Hc IH|s n' r M IH] using tokens_ind.
  - reflexivity.
  - rewrite (findall_lit c s Hc), (partial_format_lit c s data missing Hc).
    intros H. now rewrite IH.
  - rewrite (findall_hole s n' r M). discriminate.
Qed.

Lemma findall_no_rbrace (s : string) :
  Str.mem Str.rbrace s = false -> findall s = [].
Proof.
  induction s as [|c s IH]; [reflexivity|]. simpl.
  intros H. apply orb_false_iff in H. destruct H as [Hc Hs].
  rewrite findall_lit; [now apply IH|]. right.
  destruct s as [|d s]; [reflexivity|]. simpl.
  simpl in Hs. apply orb_false_iff in Hs. destruct Hs as [_ Hs].
  rewrite (close_brace_none s Hs). now destruct (Ascii.eqb d Str.newline).
Qed.


(** ** The value passes *)

Lemma dict_get_pop (d : dict) (k k' : string) :
  wf_dict d ->
  dict_get (dict_pop d k) k'
  = if String.eqb k k' then None else dict_get d k'.
Proof.
  unfold wf_dict. induction d as [|[k0 v0] d IH]; simpl; intros Hnd.
  - now destruct (String.eqb k k').
  - inversion Hnd as [|? ? Hk0 Hnd']; subst.
    destruct (String.eqb k0 k) eqn:E.
    + apply String.eqb_eq in E. subst k0.
      destruct (String.eqb k k') eqn:E'; [|reflexivity].
      apply String.eqb_eq in E'. subst k'.
      destruct (dict_get d k) eqn:G; [|reflexivity].
      exfalso. apply Hk0. apply dict_get_In. congruence.
    + simpl. rewrite (IH Hnd').
      destruct (String.eqb k0 k') eqn:E'; [|reflexivity].
      apply String.eqb_eq in E'. subst k'.
      now rewrite String.eqb_sym, E.
Qed.

Lemma keys_format_value (env : dict) (k : string) :
  keys (format_value env k) = keys env.
Proof.
  unfold format_value. destruct (dict_get env k) as [v|] eqn:G; [|reflexivity].
  rewrite keys_dict_set. unfold dict_mem. now rewrite G.
Qed.

Lemma keys_format_values (order : list string) (env : dict) :
  keys (format_values order env) = keys env.
Proof.
  revert env. induction order as [|k order IH]; intros env; simpl.
  - reflexivity.
  - unfold format_values in IH. now rewrite IH, keys_format_value.
Qed.

Lemma dict_get_format_value_other (env : dict) (k k' : string) :
  k <> k' -> dict_get (format_value env k) k' = dict_get env k'.
Proof.
  intros Hne. unfold format_value.
  destruct (dict_get env k) as [v|]; [|reflexivity].
  rewrite dict_get_set. apply String.eqb_neq in Hne. now rewrite Hne.
Qed.

Lemma dict_get_format_value_same (env : dict) (k v : string) :
  dict_get env k = Some v ->
  dict_get (format_value env k) k
  = Some (partial_format v (dict_pop env k) None).
Proof.
  intros G. unfold format_value. rewrite G, dict_get_set.
  now rewrite String.eqb_refl.
Qed.


Lemma format_values_app (o1 o2 : list string) (env : dict) :
  format_values (o1 ++ o2) env = format_values o2 (format_values o1 env).
Proof. apply fold_left_app. Qed.


(** ** The order of the passes *)

Lemma remove_str_In (n x : string) (l : list string) :
  In x (remove_str n l) <-> In x l /\ x <> n.
Proof.
  induction l as [|y l IH]; simpl; [tauto|].
  destruct (String.eqb y n) eqn:E.
  - apply String.eqb_eq in E. subst y. rewrite IH.
    split; [tauto|]. intros [[<-|H] Hne]; tauto.
  - apply String.eqb_neq in E. simpl. rewrite IH.
    split; [intros [<-|H]; tauto | tauto].
Qed.

Lemma remove_str_NoDup (n : string) (l : list string) :
  NoDup l -> NoDup (remove_str n l).
Proof.
  induction 1 as [|y l Hy Hnd IH]; simpl; [constructor|].
  destruct (String.eqb y n); [exact IH|].
  constructor; [|exact IH]. rewrite remove_str_In. tauto.
Qed.

Lemma remove_str_length (n : string) (l : list string) :
  In n l -> List.length (remove_str n l) < List.length l.
Proof.
  induction l as [|y l IH]; simpl; [tauto|].
  destruct (String.eqb y n) eqn:E.
  - intros _. clear IH E. induction l as [|z l IH]; simpl; [lia|].
    destruct (String.eqb z n); simpl; lia.
  - apply String.eqb_neq in E. intros [H|H]; [congruence|].
    simpl. specialize (IH H). lia.
Qed.

Lemma place_spec (es : list edge) (cyc : list string) (fuel : nat)
  (placed todo : list string) :
  NoDup placed -> NoDup todo ->
  (forall x, In x placed -> ~ In x todo) ->
  NoDup (place fuel es cyc placed todo)
  /\ forall x, In x (place fuel es cyc placed todo) ->
               In x placed \/ In x todo.
Proof.
  revert placed todo.
  induction fuel as [|fuel IH]; intros placed todo Hp Ht Hd; simpl.
  - split; [exact Hp | tauto].
  - destruct (find (ready es cyc placed) todo) as [n|] eqn:F.
    + apply find_some in F. destruct F as [Hn _].
      destruct (IH (placed ++ [n]) (remove_str n todo)) as [Hnd Hin].
      * apply NoDup_app; [exact Hp | repeat constructor; simpl; tauto |].
        intros x Hx [E|[]]. subst x. now apply (Hd n).
      * now apply remove_str_NoDup.
      * intros x Hx. rewrite remove_str_In. apply in_app_iff in Hx.
        destruct Hx as [Hx|[E|[]]]; [|subst x; tauto].
        intros [Hx' _]. now apply (Hd x).
      * split; [exact Hnd|]. intros x Hx. apply Hin in Hx.
        rewrite in_app_iff, remove_str_In in Hx. simpl in Hx.
        destruct Hx as [[Hx|[E|[]]]|[Hx _]]; subst; tauto.
    + split; [exact Hp | tauto].
Qed.

Lemma nodes_NoDup (es : list edge) : NoDup (nodes es).
Proof. apply uniqify_ordered_NoDup. Qed.

Lemma sorted_spec (es : list edge) :
  NoDup (sorted (topological_sort es))
  /\ forall x, In x (sorted (topological_sort es)) ->
               In x (nodes es) /\ ~ path es x x.
Proof.
  simpl.
  destruct (place_spec es (filter (on_cycle es) (nodes es))
              (List.length (filter (fun n => negb (on_cycle es n)) (nodes es)))
              [] (filter (fun n => negb (on_cycle es n)) (nodes es)))
    as [Hnd Hin].
  - constructor.
  - apply NoDup_filter, nodes_NoDup.
  - intros x [].
  - split; [exact Hnd|]. intros x Hx. apply Hin in Hx.
    destruct Hx as [[]|Hx]. apply filter_In in Hx. destruct Hx as [Hx Hc].
    split; [exact Hx|]. rewrite <- on_cycle_spec.
    now destruct (on_cycle es x).
Qed.


Lemma resolve_values_app (env : dict) :
  resolve_values env
  = format_values (rev (sorted (topological_sort (dependencies env)))
                   ++ cyclic (topological_sort (dependencies env))) env.
Proof. unfold resolve_values. now rewrite format_values_app. Qed.

Lemma keys_resolve_values (env : dict) :
  keys (resolve_values env) = keys env.
Proof. rewrite resolve_values_app. apply keys_format_values. Qed.


(** ** The returned environment *)

Lemma format_keys_get (allow_key_clash : bool) (env items formatted out : dict) :
  format_keys allow_key_clash env items formatted = Ok out ->
  (wf_dict formatted -> wf_dict out)
  /\ forall name,
       dict_get out name
       = match last_produced env items name with
         | Some v => Some v
         | None => dict_get formatted name
         end.
Proof.
  revert formatted. induction items as [|[key value] items IH];
    intros formatted; simpl.
  - intros [= <-]. split; auto.
  - destruct (dict_mem formatted (partial_format key env None)
              && negb allow_key_clash); [discriminate|].
    intros H. destruct (IH _ H) as [Hwf Hget]. split.
    + intros Hf. apply Hwf. now apply wf_dict_set.
    + intros name. rewrite Hget, dict_get_set.
      destruct (last_produced env items name); [reflexivity|].
      destruct (String.eqb (partial_format key env None) name); reflexivity.
Qed.

Lemma format_keys_strict (env items formatted out : dict) :
  format_keys false env items formatted = Ok out ->
  NoDup (map (fun kv => partial_format (fst kv) env None) items)
  /\ forall kv, In kv items ->
                ~ In (partial_format (fst kv) env None) (keys formatted).
Proof.
  revert formatted. induction items as [|[key value] items IH];
    intros formatted; simpl.
  - intros _. split; [constructor | tauto].
  - rewrite andb_true_r.
    destruct (dict_mem formatted (partial_format key env None)) eqn:E;
      [discriminate|].
    intros H. destruct (IH _ H) as [Hnd Hout].
    assert (Hsub : forall x, In x (keys formatted)
                             \/ x = partial_format key env None ->
              In x (keys (dict_set formatted
                            (partial_format key env None) value))).
    { intros x Hx. rewrite keys_dict_set, E, in_app_iff. simpl.
      destruct Hx as [Hx | ->]; auto. }
    split.
    + constructor; [|exact Hnd]. rewrite in_map_iff.
      intros (kv & Hkv & Hin). apply (Hout kv Hin). apply Hsub. now right.
    + intros kv [<-|Hin]; simpl.
      * rewrite <- dict_mem_In. congruence.
      * intros Hk. apply (Hout kv Hin). apply Hsub. now left.
Qed.

Lemma last_produced_Some (env items : dict) (name v : string) :
  last_produced env items name = Some v ->
  exists key, In (key, v) items /\ partial_format key env None = name.
Proof.
  induction items as [|[key value] items IH]; simpl; [discriminate|].
  destruct (last_produced env items name) as [v'|].
  - intros [= ->]. destruct (IH eq_refl) as (k & Hk & E). eauto.
  - destruct (String.eqb (partial_format key env None) name) eqn:E;
      [|discriminate].
    apply String.eqb_eq in E. intros [= ->]. eauto.
Qed.

Lemma last_produced_unique (env items : dict) (key value : string) :
  NoDup (map (fun kv => partial_format (fst kv) env None) items) ->
  In (key, value) items ->
  last_produced env items (partial_format key env None) = Some value.
Proof.
  induction items as [|[k0 v0] items IH]; simpl; intros Hnd Hin;
    [destruct Hin|].
  inversion Hnd as [|? ? Hk0 Hnd']; subst.
  destruct Hin as [[= -> ->]|Hin].
  - destruct (last_produced env items (partial_format key env None))
      as [v'|] eqn:L.
    + exfalso. apply Hk0. apply last_produced_Some in L.
      destruct L as (k & Hk & E). apply in_map_iff. now exists (k, v').
    + now rewrite String.eqb_refl.
  - now rewrite (IH Hnd' Hin).
Qed.

Lemma wf_resolve_values (env : dict) : wf_dict env -> wf_dict (resolve_values env).
Proof. unfold wf_dict. now rewrite keys_resolve_values. Qed.

Lemma last_produced_In (env items : dict) (key value : string) :
  In (key, value) items ->
  exists v, last_produced env items (partial_format key env None) = Some v.
Proof.
  induction items as [|[k0 v0] items IH]; simpl; intros Hin; [destruct Hin|].
  destruct (last_produced env items (partial_format key env None))
    as [v'|] eqn:L; [eauto|].
  destruct Hin as [[= -> ->]|Hin].
  - rewrite String.eqb_refl. eauto.
  - destruct (IH Hin) as [v Hv]. discriminate.
Qed.

Lemma dict_get_cleaned (pathsep : ascii) (cleanup : bool) (d : dict)
  (name w : string) :
  wf_dict d -> dict_get d name = Some w ->
  dict_get (if cleanup then cleanup_env pathsep d else d) name
  = Some (if cleanup then clean_value pathsep w else w).
Proof.
  intros Hd Hg. destruct cleanup; [|exact Hg].
  now rewrite dict_get_cleanup, Hg.
Qed.

(** A completed [build] returns, under the resolved name of each key, the
    resolved value of some key (cleaned, under [cleanup]). *)
Lemma build_output (pathsep : ascii) (env : dict)
  (dynamic_keys allow_cycle allow_key_clash cleanup : bool) (out : dict)
  (key v : string) :
  wf_dict env ->
  build pathsep env dynamic_keys allow_cycle allow_key_clash cleanup = Ok out ->
  dict_get (resolve_values env) key = Some v ->
  exists key' v',
    dict_get (resolve_values env) key' = Some v'
    /\ dict_get out (if dynamic_keys
                     then partial_format key (resolve_values env) None
                     else key)
       = Some (if cleanup then clean_value pathsep v' else v').
Proof.
  intros Hwf Hb G. unfold build in Hb.
  destruct (negb (Nat.eqb (List.length
              (cyclic (topological_sort (dependencies env)))) 0)
            && negb allow_cycle); [discriminate|].
  fold (resolve_values env) in Hb.
  destruct dynamic_keys.
  - destruct (format_keys allow_key_clash (resolve_values env)
                (resolve_values env) []) as [o|e] eqn:F; [|discriminate].
    injection Hb as <-.
    destruct (format_keys_get _ _ _ _ _ F) as [Hwfo Hget].
    destruct (last_produced_In (resolve_values env) (resolve_values env)
                key v (dict_get_Some_In _ _ _ G)) as [v' Hv'].
    destruct (last_produced_Some _ _ _ _ Hv') as (key' & Hin & _).
    exists key', v'. split.
    + apply dict_get_In_pair; [now apply wf_resolve_values | exact Hin].
    + apply dict_get_cleaned; [apply Hwfo, wf_dict_nil|].
      now rewrite Hget, Hv'.
  - injection Hb as <-. exists key, v. split; [exact G|].
    apply dict_get_cleaned; [now apply wf_resolve_values | exact G].
Qed.

(** Without an allowed key clash, that value is the key's own. *)
Lemma build_strict_output (pathsep : ascii) (env : dict)
  (dynamic_keys allow_cycle allow_key_clash cleanup : bool) (out : dict)
  (key v : string) :
  wf_dict env ->
  dynamic_keys = false \/ allow_key_clash = false ->
  build pathsep env dynamic_keys allow_cycle allow_key_clash cleanup = Ok out ->
  dict_get (resolve_values env) key = Some v ->
  dict_get out (if dynamic_keys
                then partial_format key (resolve_values env) None
                else key)
  = Some (if cleanup then clean_value pathsep v else v).
Proof.
  intros Hwf Hclash Hb G. unfold build in Hb.
  destruct (negb (Nat.eqb (List.length
              (cyclic (topological_sort (dependencies env)))) 0)
            && negb allow_cycle); [discriminate|].
  fold (resolve_values env) in Hb.
  destruct dynamic_keys.
  - destruct Hclash as [Hclash | ->]; [discriminate|].
    destruct (format_keys false (resolve_values env) (resolve_values env) [])
      as [o|e] eqn:F; [|discriminate].
    injection Hb as <-.
    destruct (format_keys_get _ _ _ _ _ F) as [Hwfo Hget].
    destruct (format_keys_strict _ _ _ _ F) as [Hnd _].
    apply dict_get_cleaned; [apply Hwfo, wf_dict_nil|].
    rewrite Hget.
    now rewrite (last_produced_unique _ _ key v Hnd (dict_get_Some_In _ _ _ G)).
  - injection Hb as <-.
    apply dict_get_cleaned; [now apply wf_resolve_values | exact G].
Qed.


Lemma placeholder_nonblank (name : string) :
  Str.nonblank (placeholder name) = true.
Proof. reflexivity. Qed.








(** ** Well-formed templates *)

Lemma close_brace_app (s m r y : string) :
  close_brace s = Some (m, r) ->
  close_brace (s ++ y) = Some (m, (r ++ y)%string).
Proof.
  revert m. induction s as [|c s IH]; intros m; simpl; [discriminate|].
  destruct (Ascii.eqb c Str.rbrace); [now intros [= <- <-]|].
  destruct (Ascii.eqb c Str.newline); [discriminate|].
  destruct (close_brace s) as [[m' r']|]; [|discriminate].
  intros [= <- <-]. now rewrite (IH m' eq_refl).
Qed.

Lemma match_name_app (s n r y : string) :
  match_name s = Some (n, r) ->
  match_name (s ++ y) = Some (n, (r ++ y)%string).
Proof.
  destruct s as [|c s]; simpl; [discriminate|].
  destruct (Ascii.eqb c Str.newline); [discriminate|].
  destruct (close_brace s) as [[m r']|] eqn:E; [|discriminate].
  intros [= <- <-]. now rewrite (close_brace_app s m r' y E).
Qed.

Lemma well_formed_lit (c : ascii) (s : string) :
  Ascii.eqb c Str.lbrace = false \/ match_name s = None ->
  well_formed (String c s) = not_brace c && well_formed s.
Proof. intros H. unfold well_formed. now rewrite (tokens_lit c s H). Qed.

Lemma well_formed_hole (s n r : string) :
  match_name s = Some (n, r) ->
  well_formed (String Str.lbrace s) = brace_free n && well_formed r.
Proof. intros H. unfold well_formed. now rewrite (tokens_hole s n r H). Qed.

Lemma not_brace_lbrace (c : ascii) :
  not_brace c = true -> Ascii.eqb c Str.lbrace = false.
Proof.
  unfold not_brace. intros H. apply andb_true_iff in H.
  destruct H as [H _]. now apply negb_true_iff in H.
Qed.

(** The scan of a well-formed text ends where the text ends. *)
Lemma tokens_app (x y : string) :
  well_formed x = true -> tokens (x ++ y) = tokens x ++ tokens y.
Proof.
  induction x as [|c s Hc IH|s n r M IH] using tokens_ind.
  - reflexivity.
  - rewrite (well_formed_lit c s Hc). intros H.
    apply andb_true_iff in H. destruct H as [Hb Hs].
    apply not_brace_lbrace in Hb. cbn [append].
    rewrite !tokens_lit by now left. now rewrite (IH Hs).
  - rewrite (well_formed_hole s n r M). intros H.
    apply andb_true_iff in H. destruct H as [_ Hr]. cbn [append].
    rewrite (tokens_hole _ _ _ (match_name_app s n r y M)).
    rewrite (tokens_hole s n r M). now rewrite (IH Hr).
Qed.

Lemma holes_app (ts1 ts2 : list token) :
  holes (ts1 ++ ts2) = holes ts1 ++ holes ts2.
Proof.
  induction ts1 as [|[c|n] ts1 IH]; simpl; [reflexivity | exact IH |].
  now rewrite IH.
Qed.

Lemma findall_app (x y : string) :
  well_formed x = true -> findall (x ++ y) = findall x ++ findall y.
Proof.
  intros H. unfold findall. now rewrite (tokens_app x y H), holes_app.
Qed.

Lemma well_formed_app (x y : string) :
  well_formed x = true -> well_formed (x ++ y) = well_formed y.
Proof.
  intros H. unfold well_formed in *.
  now rewrite (tokens_app x y H), forallb_app, H.
Qed.

Lemma brace_free_spec (s : string) :
  brace_free s = true <->
  Str.mem Str.lbrace s = false /\ Str.mem Str.rbrace s = false.
Proof.
  unfold brace_free. rewrite andb_true_iff, !negb_true_iff. tauto.
Qed.

Lemma match_name_brace_free (n r : string) :
  n <> "" -> Str.mem Str.newline n = false -> brace_free n = true ->
  match_name (n ++ String Str.rbrace r) = Some (n, r).
Proof.
  intros Hne Hnl Hbf. apply brace_free_spec in Hbf. destruct Hbf as [_ Hr].
  destruct n as [|c m]; [congruence|]. simpl in *.
  apply orb_false_iff in Hnl. destruct Hnl as [Hc Hm].
  apply orb_false_iff in Hr. destruct Hr as [_ Hr].
  rewrite Hc.
  assert (E : close_brace (m ++ String Str.rbrace r) = Some (m, r)).
  { clear Hc Hne. induction m as [|d m IH]; simpl.
    - reflexivity.
    - simpl in Hm, Hr. apply orb_false_iff in Hm, Hr.
      destruct Hm as [Hd Hm], Hr as [Hd' Hr].
      rewrite Hd', Hd, (IH Hm Hr). reflexivity. }
  now rewrite E.
Qed.

Lemma findall_names (name s : string) :
  In name (findall s) ->
  name <> "" /\ Str.mem Str.newline name = false.
Proof.
  induction s as [|c s Hc IH|s n r M IH] using tokens_ind.
  - intros [].
  - now rewrite (findall_lit c s Hc).
  - rewrite (findall_hole s n r M). intros [->|H]; [|now apply IH].
    clear IH. destruct s as [|c s]; simpl in M; [discriminate|].
    destruct (Ascii.eqb c Str.newline) eqn:Ec; [discriminate|].
    destruct (close_brace s) as [[m r']|] eqn:E; [|discriminate].
    injection M as <- <-. split; [discriminate|]. simpl. rewrite Ec. simpl.
    clear Ec. revert m r' E. induction s as [|d s IHs]; intros m r'; simpl;
      [discriminate|].
    destruct (Ascii.eqb d Str.rbrace); [now intros [= <- _]|].
    destruct (Ascii.eqb d Str.newline) eqn:Ed; [discriminate|].
    destruct (close_brace s) as [[m' r'']|]; [|discriminate].
    intros [= <- _]. simpl. rewrite Ed. simpl. now apply (IHs m' r'').
Qed.

Lemma well_formed_names (name s : string) :
  well_formed s = true -> In name (findall s) -> brace_free name = true.
Proof.
  induction s as [|c s Hc IH|s n r M IH] using tokens_ind.
  - intros _ [].
  - rewrite (well_formed_lit c s Hc), (findall_lit c s Hc).
    intros H. apply andb_true_iff in H. now apply IH.
  - rewrite (well_formed_hole s n r M), (findall_hole s n r M).
    intros H. apply andb_true_iff in H. destruct H as [Hn Hr].
    intros [<-|H]; [exact Hn | now apply IH].
Qed.

(** A placeholder of a brace-free name is a well-formed text with that
    one placeholder. *)
Lemma tokens_placeholder (name : string) :
  name <> "" -> Str.mem Str.newline name = false ->
  brace_free name = true ->
  tokens (placeholder name) = [Hole name].
Proof.
  intros Hne Hnl Hbf. unfold placeholder.
  now rewrite (tokens_hole _ _ _ (match_name_brace_free name "" Hne Hnl Hbf)).
Qed.

Lemma placeholder_well_formed (name s : string) :
  In name (findall s) -> brace_free name = true ->
  well_formed (placeholder name) = true
  /\ findall (placeholder name) = [name].
Proof.
  intros Hin Hbf. destruct (findall_names name s Hin) as [Hne Hnl].
  unfold well_formed, findall.
  rewrite (tokens_placeholder name Hne Hnl Hbf). simpl.
  now rewrite Hbf.
Qed.

Lemma partial_format_well_formed (data : dict) (s : string) :
  well_formed s = true ->
  (forall h w, In h (findall s) -> dict_get data h = Some w ->
               well_formed w = true) ->
  well_formed (partial_format s data None) = true.
Proof.
  induction s as [|c s Hc IH|s n r M IH] using tokens_ind.
  - reflexivity.
  - rewrite (well_formed_lit c s Hc), (findall_lit c s Hc).
    rewrite (partial_format_lit c s data None Hc).
    intros H Hd. apply andb_true_iff in H. destruct H as [Hb Hs].
    rewrite well_formed_lit by (left; now apply not_brace_lbrace).
    now rewrite Hb, (IH Hs Hd).
  - intros Hwf Hd.
    assert (Hn : In n (findall (String Str.lbrace s))).
    { rewrite (findall_hole s n r M). now left. }
    pose proof (well_formed_names n _ Hwf Hn) as Hbf.
    rewrite (well_formed_hole s n r M) in Hwf.
    apply andb_true_iff in Hwf. destruct Hwf as [_ Hr].
    rewrite (partial_format_hole s n r data None M).
    rewrite well_formed_app.
    + apply (IH Hr). intros h w Hh. apply Hd.
      rewrite (findall_hole s n r M). now right.
    + simpl. destruct (dict_get data n) as [w|] eqn:G.
      * now apply (Hd n w).
      * now apply (placeholder_well_formed n _ Hn).
Qed.

Lemma partial_format_holes (data : dict) (s x : string) :
  well_formed s = true ->
  (forall h w, In h (findall s) -> dict_get data h = Some w ->
               well_formed w = true) ->
  In x (findall (partial_format s data None)) ->
  exists h, In h (findall s)
            /\ match dict_get data h with
               | Some w => In x (findall w)
               | None => x = h
               end.
Proof.
  induction s as [|c s Hc IH|s n r M IH] using tokens_ind.
  - intros _ _ [].
  - rewrite (well_formed_lit c s Hc), (findall_lit c s Hc).
    rewrite (partial_format_lit c s data None Hc).
    intros H Hd. apply andb_true_iff in H. destruct H as [Hb Hs].
    rewrite findall_lit by (left; now apply not_brace_lbrace).
    now apply IH.
  - intros Hwf Hd.
    assert (Hn : In n (findall (String Str.lbrace s))).
    { rewrite (findall_hole s n r M). now left. }
    pose proof (well_formed_names n _ Hwf Hn) as Hbf.
    rewrite (well_formed_hole s n r M) in Hwf.
    apply andb_true_iff in Hwf. destruct Hwf as [_ Hr].
    rewrite (partial_format_hole s n r data None M).
    assert (Hrw : well_formed (render data None (Hole n)) = true).
    { simpl. destruct (dict_get data n) as [w|] eqn:G.
      - now apply (Hd n w).
      - now apply (placeholder_well_formed n _ Hn). }
    rewrite (findall_app _ _ Hrw), in_app_iff. intros [H|H].
    + exists n. split; [exact Hn|]. simpl in H.
      destruct (dict_get data n) as [w|]; [exact H|].
      rewrite (proj2 (placeholder_well_formed n _ Hn Hbf)) in H.
      destruct H as [H|[]]. now symmetry.
    + assert (Hd' : forall h w, In h (findall r) ->
                      dict_get data h = Some w -> well_formed w = true).
      { intros h w Hh. apply Hd. rewrite (findall_hole s n r M). now right. }
      destruct (IH Hr Hd' H) as (h & Hh & Hm).
      exists h. split; [|exact Hm].
      rewrite (findall_hole s n r M). now right.
Qed.

Lemma occurs_nil (sub : string) : occurs sub "" -> sub = "".
Proof.
  intros (pre & post & H). destruct pre; [|discriminate].
  destruct sub; [reflexivity | discriminate].
Qed.

Lemma occurs_skip_char (c0 c : ascii) (x s : string) :
  Ascii.eqb c c0 = false ->
  occurs (String c0 x) (String c s) -> occurs (String c0 x) s.
Proof.
  intros Hne (pre & post & H). destruct pre as [|p pre]; simpl in H.
  - injection H as -> _. now rewrite Ascii.eqb_refl in Hne.
  - injection H as _ ->. now exists pre, post.
Qed.

Lemma occurs_skip (c0 : ascii) (x p s : string) :
  Str.mem c0 p = false ->
  occurs (String c0 x) (p ++ s) -> occurs (String c0 x) s.
Proof.
  induction p as [|c p IH]; simpl; intros Hm H; [exact H|].
  apply orb_false_iff in Hm. destruct Hm as [Hc Hp].
  apply IH; [exact Hp|]. now apply occurs_skip_char with c.
Qed.

Lemma before_char_unique (c : ascii) (a b x y : string) :
  Str.mem c a = false -> Str.mem c b = false ->
  (a ++ String c x = b ++ String c y)%string -> a = b.
Proof.
  revert b. induction a as [|d a IH]; intros b Ha Hb H.
  - destruct b as [|e b]; [reflexivity|]. simpl in *.
    injection H as -> _. now rewrite Ascii.eqb_refl in Hb.
  - destruct b as [|e b]; simpl in *.
    + injection H as -> _. now rewrite Ascii.eqb_refl in Ha.
    + apply orb_false_iff in Ha, Hb. injection H as -> H.
      f_equal. apply IH; tauto.
Qed.

(** In a well-formed text a placeholder occurs only as a placeholder. *)
Lemma occurs_placeholder_findall (b s : string) :
  well_formed s = true -> Str.mem Str.rbrace b = false ->
  occurs (placeholder b) s -> In b (findall s).
Proof.
  intros Hwf Hb. revert Hwf.
  induction s as [|c s Hc IH|s n r M IH] using tokens_ind.
  - intros _ H. apply occurs_nil in H. discriminate.
  - rewrite (well_formed_lit c s Hc), (findall_lit c s Hc).
    intros H Ho. apply andb_true_iff in H. destruct H as [Hnb Hs].
    apply IH; [exact Hs|].
    apply occurs_skip_char with c; [|exact Ho].
    now apply not_brace_lbrace.
  - intros Hwf Ho.
    assert (Hn : In n (findall (String Str.lbrace s))).
    { rewrite (findall_hole s n r M). now left. }
    pose proof (well_formed_names n _ Hwf Hn) as Hbf.
    apply brace_free_spec in Hbf. destruct Hbf as [Hnl Hnr].
    rewrite (well_formed_hole s n r M) in Hwf.
    apply andb_true_iff in Hwf. destruct Hwf as [_ Hr].
    rewrite (findall_hole s n r M).
    apply match_name_spec in M. destruct M as [-> _].
    destruct Ho as (pre & post & H). destruct pre as [|p pre].
    + left. unfold placeholder in H. simpl in H. injection H as H.
      rewrite sapp_assoc in H. simpl in H.
      now apply (before_char_unique Str.rbrace n b r post).
    + right. apply IH; [exact Hr|]. simpl in H. injection H as _ H.
      assert (Ho : occurs (placeholder b) (n ++ String Str.rbrace r)).
      { now exists pre, post. }
      apply occurs_skip in Ho; [|exact Hnl].
      now apply occurs_skip_char in Ho.
Qed.

(** ** Acyclic graphs *)

Lemma clos_trans_weaken (R R' : string -> string -> Prop) :
  (forall a b, R' a b -> clos_trans string R a b) ->
  forall a b, clos_trans string R' a b -> clos_trans string R a b.
Proof.
  intros H a b Hab. induction Hab as [a b Hab | a b c _ IH1 _ IH2].
  - now apply H.
  - now apply t_trans with b.
Qed.

(** A non-empty finite set in which every element has a predecessor in
    the set holds a cycle. *)
Lemma no_source_cycle (U : list string) :
  forall R : string -> string -> Prop,
    U <> [] ->
    (forall u, In u U -> exists p, In p U /\ R p u) ->
    exists c, In c U /\ clos_trans string R c c.
Proof.
  induction U as [|x U IH]; intros R Hne H; [congruence|].
  destruct (H x (or_introl eq_refl)) as (q & Hq & Rqx).
  destruct Hq as [<-|Hq].
  { exists x. split; [now left | now apply t_step]. }
  destruct (IH (fun a b => R a b \/ (R a x /\ R x b))) as (c & Hin & Hc).
  - intros ->. destruct Hq.
  - intros u Hu. destruct (H u (or_intror Hu)) as (p & [<-|Hp] & Rpu).
    + exists q. split; [exact Hq | now right].
    + exists p. split; [exact Hp | now left].
  - exists c. split; [now right|]. revert Hc. apply clos_trans_weaken.
    intros a b [Hab|[Hax Hxb]]; [now apply t_step|].
    apply t_trans with x; now apply t_step.
Qed.

Lemma forallb_false_witness {A : Type} (f : A -> bool) (l : list A) :
  forallb f l = false -> exists x, In x l /\ f x = false.
Proof.
  induction l as [|a l IH]; simpl; [discriminate|].
  destruct (f a) eqn:E; simpl.
  - intros H. destruct (IH H) as (x & Hx & Hf). eauto.
  - intros _. eauto.
Qed.

Lemma ready_spec (es : list edge) (placed : list string) (n : string) :
  ready es [] placed n = true <->
  forall h, depends_on es h n -> In h placed.
Proof.
  unfold ready, depends_on. rewrite forallb_forall. split.
  - intros H h Hh. specialize (H (h, n) Hh). simpl in H.
    rewrite String.eqb_refl, orb_false_r in H. simpl in H.
    now apply mem_str_In.
  - intros H [h t] He. simpl. rewrite orb_false_r.
    destruct (String.eqb t n) eqn:E; [|reflexivity].
    apply String.eqb_eq in E. subst t. simpl. apply mem_str_In. now apply H.
Qed.

Lemma ready_exists (es : list edge) (placed todo : list string) :
  acyclic es -> todo <> [] ->
  (forall x, In x (nodes es) -> In x placed \/ In x todo) ->
  exists n, find (ready es [] placed) todo = Some n.
Proof.
  intros Hac Hne Hcover.
  destruct (find (ready es [] placed) todo) as [n|] eqn:F; [eauto|].
  exfalso.
  destruct (no_source_cycle todo (depends_on es) Hne) as (c & _ & Hc).
  - intros u Hu. pose proof (find_none _ _ F u Hu) as Hr.
    unfold ready in Hr. apply forallb_false_witness in Hr.
    destruct Hr as ([h t] & He & Hf). simpl in Hf.
    rewrite orb_false_r in Hf. apply orb_false_iff in Hf.
    destruct Hf as [Ht Hh]. apply negb_false_iff, String.eqb_eq in Ht.
    subst t. apply mem_str_not_In in Hh. exists h. split; [|exact He].
    destruct (Hcover h); [|tauto|assumption].
    apply nodes_In. exists (h, u). split; [exact He | now left].
  - now apply (Hac c).
Qed.

Lemma dependencies_In (env : dict) (k d : string) :
  depends_on (dependencies env) k d <->
  exists v, In (k, v) env /\ In d (findall v) /\ d <> k.
Proof.
  unfold depends_on, dependencies, dependencies_of. rewrite in_flat_map.
  split.
  - intros ([k' v] & Hkv & H). simpl in H. apply in_map_iff in H.
    destruct H as (d' & [= -> ->] & H). apply filter_In in H.
    destruct H as [H Hne]. exists v. repeat split; auto.
    apply negb_true_iff, String.eqb_neq in Hne. exact Hne.
  - intros (v & Hkv & Hd & Hne). exists (k, v). split; [exact Hkv|].
    simpl. apply in_map_iff. exists d. split; [reflexivity|].
    apply filter_In. split; [exact Hd|].
    now apply negb_true_iff, String.eqb_neq.
Qed.

Section Acyclic.

Variable env : dict.
Hypothesis Hwf : wf_dict env.
Hypothesis Hvals : forall k v, In (k, v) env -> well_formed v = true.
Hypothesis Hacyc : acyclic (dependencies env).

Lemma resolved_format (S' : dict) (n v0 : string) (todo' : list string) :
  keys S' = keys env ->
  dict_get env n = Some v0 ->
  (forall h, depends_on (dependencies env) n h -> In h (keys env) ->
             In h todo') ->
  (forall k v, In k todo' -> dict_get S' k = Some v -> resolved env v) ->
  resolved env (partial_format v0 (dict_pop S' n) None).
Proof.
  intros Hkeys G Hdeps Hres.
  assert (HwfS : wf_dict S') by (unfold wf_dict; now rewrite Hkeys).
  assert (Hv0 : well_formed v0 = true).
  { apply (Hvals n). now apply dict_get_Some_In. }
  assert (Hsub : forall h w, In h (findall v0) ->
            dict_get (dict_pop S' n) h = Some w -> resolved env w).
  { intros h w Hh Hg. rewrite dict_get_pop in Hg by exact HwfS.
    destruct (String.eqb n h) eqn:E; [discriminate|].
    apply String.eqb_neq in E. apply (Hres h w); [|exact Hg].
    apply Hdeps.
    - apply dependencies_In. exists v0.
      repeat split; auto. now apply dict_get_Some_In.
    - rewrite <- Hkeys. apply dict_get_In. congruence. }
  split.
  - apply partial_format_well_formed; [exact Hv0|].
    intros h w Hh Hg. now apply (Hsub h w Hh Hg).
  - intros x Hx. apply partial_format_holes in Hx; [|exact Hv0|].
    + destruct Hx as (h & Hh & Hm).
      destruct (dict_get (dict_pop S' n) h) as [w|] eqn:Hg.
      * now apply (Hsub h w Hh Hg).
      * subst x. rewrite dict_get_pop in Hg by exact HwfS.
        destruct (String.eqb n h) eqn:E.
        -- apply String.eqb_eq in E. subst h. right. now exists v0.
        -- left. rewrite <- Hkeys, dict_get_In. congruence.
    + intros h w Hh Hg. now apply (Hsub h w Hh Hg).
Qed.

(** The nodes placed after [placed] are formatted before it, each one
    after everything it depends on. *)
Lemma place_resolves (fuel : nat) :
  forall placed todo,
    NoDup todo ->
    (forall x, In x (nodes (dependencies env)) ->
               In x placed \/ In x todo) ->
    (forall x, In x placed -> ~ In x todo) ->
    (forall d h, In d placed -> depends_on (dependencies env) h d ->
                 In h placed) ->
    List.length todo <= fuel ->
    exists rest,
      place fuel (dependencies env) [] placed todo = placed ++ rest
      /\ (forall k, ~ In k todo ->
            dict_get (format_values (rev rest) env) k = dict_get env k)
      /\ (forall k v, In k todo ->
            dict_get (format_values (rev rest) env) k = Some v ->
            resolved env v).
Proof.
  induction fuel as [|fuel IH]; intros placed todo Hnd Hcover Hdis Hinv Hlen.
  - destruct todo; [|simpl in Hlen; lia].
    exists []. simpl. rewrite app_nil_r.
    split; [reflexivity | split; [reflexivity | intros k v []]].
  - destruct todo as [|t0 todo0] eqn:Etodo.
    { exists []. simpl. rewrite app_nil_r.
      split; [reflexivity | split; [reflexivity | intros k v []]]. }
    rewrite <- Etodo in *.
    assert (Hne : todo <> []) by (rewrite Etodo; discriminate).
    destruct (ready_exists (dependencies env) placed todo Hacyc Hne Hcover)
      as [n F].
    simpl. rewrite F. apply find_some in F. destruct F as [Hn Hr].
    rewrite ready_spec in Hr.
    destruct (IH (placed ++ [n]) (remove_str n todo))
      as (rest & Hplace & Hkeep & Hres).
    + now apply remove_str_NoDup.
    + intros x Hx. rewrite in_app_iff, remove_str_In. simpl.
      destruct (string_dec x n) as [->|Hne']; [tauto|].
      destruct (Hcover x Hx); tauto.
    + intros x Hx. rewrite remove_str_In. apply in_app_iff in Hx.
      destruct Hx as [Hx|[E|[]]]; [|subst x; tauto].
      intros [Hx' _]. now apply (Hdis x).
    + intros d h Hd Hhd. apply in_app_iff. apply in_app_iff in Hd.
      destruct Hd as [Hd|[E|[]]].
      * left. now apply (Hinv d h).
      * subst d. left. now apply Hr.
    + pose proof (remove_str_length n todo Hn). lia.
    + exists (n :: rest). split.
      { rewrite Hplace, <- app_assoc. reflexivity. }
      simpl rev. rewrite format_values_app. simpl.
      set (S' := format_values (rev rest) env) in *.
      assert (Hkeys : keys S' = keys env) by apply keys_format_values.
      assert (Hn' : dict_get S' n = dict_get env n).
      { apply Hkeep. rewrite remove_str_In. tauto. }
      split.
      * intros k Hk. rewrite dict_get_format_value_other by congruence.
        apply Hkeep. rewrite remove_str_In. tauto.
      * intros k v Hk. destruct (string_dec n k) as [<-|Hne'].
        -- destruct (dict_get env n) as [v0|] eqn:G.
           ++ rewrite (dict_get_format_value_same S' n v0 Hn').
              intros [= <-]. apply resolved_format with
                (todo' := remove_str n todo); auto.
              intros h Hnh Hh. apply remove_str_In. split.
              ** destruct (Hcover h); [| |assumption].
                 --- apply nodes_In. exists (n, h). split; [exact Hnh|].
                     now right.
                 --- exfalso. apply (Hdis n); [|exact Hn].
                     now apply (Hinv h n).
              ** intros ->. apply (Hacyc n). now apply t_step.
           ++ unfold format_value. rewrite Hn'. congruence.
        -- rewrite dict_get_format_value_other by exact Hne'.
           apply Hres. rewrite remove_str_In. split; [exact Hk|congruence].
Qed.

Lemma acyclic_no_cyclic :
  filter (on_cycle (dependencies env)) (nodes (dependencies env)) = []
  /\ filter (fun n => negb (on_cycle (dependencies env) n))
            (nodes (dependencies env)) = nodes (dependencies env).
Proof.
  assert (H : forall n, on_cycle (dependencies env) n = false).
  { intros n. destruct (on_cycle (dependencies env) n) eqn:E;
      [|reflexivity].
    apply on_cycle_spec in E. now apply Hacyc in E. }
  split.
  - induction (nodes (dependencies env)) as [|n l IH]; simpl;
      [reflexivity|]. now rewrite H.
  - apply filter_fixed. intros n _. now rewrite H.
Qed.

(** In an acyclic environment of well-formed templates every resolved
    value is left with unresolvable placeholders only. *)
Lemma resolve_values_resolved (k v : string) :
  dict_get (resolve_values env) k = Some v -> resolved env v.
Proof.
  unfold resolve_values, topological_sort. cbn [sorted cyclic].
  destruct acyclic_no_cyclic as [-> ->]. cbn [format_values fold_left].
  destruct (place_resolves (List.length (nodes (dependencies env)))
              [] (nodes (dependencies env)))
    as (rest & Hplace & Hkeep & Hres).
  - apply nodes_NoDup.
  - tauto.
  - intros x [].
  - intros d h [].
  - lia.
  - rewrite Hplace. simpl.
    fold (format_values (rev rest) env).
    destruct (in_dec string_dec k (nodes (dependencies env))) as [Hk|Hk].
    + now apply Hres.
    + rewrite (Hkeep k Hk). intros G. split.
      * apply (Hvals k). now apply dict_get_Some_In.
      * intros h Hh. destruct (string_dec h k) as [->|Hne].
        -- right. now exists v.
        -- exfalso. apply Hk. apply nodes_In. exists (k, h).
           split; [|now left]. apply dependencies_In. exists v.
           repeat split; auto. now apply dict_get_Some_In.
Qed.

End Acyclic.

Lemma acyclic_by_sort (es : list edge) :
  cyclic (topological_sort es) = [] -> acyclic es.
Proof.
  intros H n Hn. apply cyclic_spec in Hn. rewrite H in Hn. destruct Hn.
Qed.

Lemma path_first_edge (es : list edge) (a b : string) :
  path es a b -> exists d, depends_on es a d.
Proof. induction 1 as [a b H | a b c _ IH _ _]; eauto. Qed.

Lemma path_last_edge (es : list edge) (a b : string) :
  path es a b -> exists x, depends_on es x b.
Proof. induction 1 as [a b H | a b c _ _ _ IH]; eauto. Qed.

Lemma no_unresolved_leaf (env : dict) (b value : string) :
  wf_dict env -> dict_get env b = Some value -> findall value = [] ->
  no_unresolved env b.
Proof.
  intros Hwf G Hv c [->|H].
  - split; [apply dict_get_In; congruence|].
    intros (v & Hv' & Hin). rewrite G in Hv'. injection Hv' as <-.
    rewrite Hv in Hin. destruct Hin.
  - apply path_first_edge in H. destruct H as (d & Hd).
    apply dependencies_In in Hd. destruct Hd as (v & Hin & Hd & _).
    apply (dict_get_In_pair env b v Hwf) in Hin.
    rewrite G in Hin. injection Hin as <-.
    rewrite Hv in Hd. destruct Hd.
Qed.

(** C2, as stated, fails, in two ways. [braces_env] is acyclic, [A]
    depends on [B], and [B] ("x") has no dependency at all; yet with the
    default flags the returned value of [A] is "x{B}": the brace that is
    the value of [C] is pasted in front of the text "B}". [segment_env] is
    acyclic and well-formed, [A] depends on [x;y], whose value is "v"; yet
    with the default flags and the path separator [;] the returned value
    of [A] is "v{x;y}": the cleanup drops the empty segment of the absent
    [{x;;y}]. *)
Lemma build_acyclic_leaves_placeholder :
  (acyclic (dependencies braces_env)
   /\ path (dependencies braces_env) "A" "B"
   /\ no_unresolved braces_env "B"
   /\ build ":" braces_env true false false true
      = Ok [("A", "x{B}"); ("B", "x"); ("C", "{")]
   /\ Str.contains (placeholder "B") "x{B}" = true)
  /\ (acyclic (dependencies segment_env)
      /\ path (dependencies segment_env) "A" "x;y"
      /\ no_unresolved segment_env "x;y"
      /\ build ";" segment_env true false false true
         = Ok [("A", "v{x;y}"); ("x;y", "v")]
      /\ Str.contains (placeholder "x;y") "v{x;y}" = true).
Proof.
  split.
  - split; [apply acyclic_by_sort; reflexivity|].
    split; [apply t_step; unfold depends_on; simpl; tauto|].
    split; [|split; reflexivity].
    apply no_unresolved_leaf with "x"; [|reflexivity|reflexivity].
    repeat constructor; simpl; intuition discriminate.
  - split; [apply acyclic_by_sort; reflexivity|].
    split; [apply t_step; unfold depends_on; simpl; tauto|].
    split; [|split; reflexivity].
    apply no_unresolved_leaf with "v"; [|reflexivity|reflexivity].
    repeat constructor; simpl; intuition discriminate.
Qed.

(** C2, amended. For every environment whose dependency graph is acyclic
    and whose values are well-formed templates (every brace belongs to a
    placeholder, and no placeholder name holds a brace): for all keys [a]
    and [b], if [a] depends on [b] directly or transitively and [b] has no
    unresolved external dependency, the resolved value of [a] holds no
    occurrence of [{b}]; and neither does the value that a completed
    [build] returns under the resolved name of [a], provided [cleanup] is
    off or [{b}] does not contain the path separator. *)
Theorem build_acyclic_substitutes (pathsep : ascii) (env : dict)
  (dynamic_keys allow_cycle allow_key_clash cleanup : bool) (a b : string)
  (Hwf : wf_dict env)
  (Hvals : forall k v, In (k, v) env -> well_formed v = true)
  (Hacyc : acyclic (dependencies env))
  (Hab : path (dependencies env) a b)
  (Hb : no_unresolved env b) :
  (exists v, dict_get (resolve_values env) a = Some v
             /\ ~ occurs (placeholder b) v)
  /\ forall out,
       build pathsep env dynamic_keys allow_cycle allow_key_clash cleanup
       = Ok out ->
       cleanup = false \/ Str.mem pathsep (placeholder b) = false ->
       exists v',
         dict_get out (if dynamic_keys
                       then partial_format a (resolve_values env) None
                       else a) = Some v'
         /\ ~ occurs (placeholder b) v'.
Proof.
  assert (Hbrace : Str.mem Str.rbrace b = false).
  { destruct (path_last_edge _ _ _ Hab) as (x & Hx).
    apply dependencies_In in Hx. destruct Hx as (vx & Hvx & Hin & _).
    pose proof (well_formed_names b vx (Hvals x vx Hvx) Hin) as Hbf.
    now apply brace_free_spec in Hbf. }
  assert (Ha : exists v, dict_get (resolve_values env) a = Some v).
  { destruct (path_first_edge _ _ _ Hab) as (d & Hd).
    apply dependencies_In in Hd. destruct Hd as (va & Hva & _).
    destruct (dict_get (resolve_values env) a) as [v|] eqn:G; [eauto|].
    exfalso. assert (Hk : In a (keys (resolve_values env))).
    { rewrite keys_resolve_values. apply (in_map fst) in Hva. exact Hva. }
    apply dict_get_In in Hk. congruence. }
  destruct Ha as (v & Hv).
  assert (Hno : forall key w, dict_get (resolve_values env) key = Some w ->
                              ~ occurs (placeholder b) w).
  { intros key w Hw Ho.
    destruct (resolve_values_resolved env Hwf Hvals Hacyc key w Hw)
      as [Hwfw Hholes].
    apply occurs_placeholder_findall in Ho; [|exact Hwfw|exact Hbrace].
    destruct (Hb b (or_introl eq_refl)) as [Hin Hself].
    destruct (Hholes b Ho); tauto. }
  split; [exists v; split; [exact Hv | now apply (Hno a)]|].
  intros out Hbuild Hc.
  destruct (build_output pathsep env dynamic_keys allow_cycle
              allow_key_clash cleanup out a v Hwf Hbuild Hv)
    as (key' & v' & Hv' & Hout).
  eexists. split; [exact Hout|].
  destruct cleanup; [|now apply (Hno key')].
  destruct Hc as [Hc|Hc]; [discriminate|].
  rewrite occurs_clean_value;
    [now apply (Hno key') | exact Hc | apply placeholder_nonblank].
Qed.

Lemma chain_env_acyclic : acyclic (dependencies chain_env).
Proof. apply acyclic_by_sort. reflexivity. Defined.

Lemma chain_env_well_formed (k v : string) :
  In (k, v) chain_env -> well_formed v = true.
Proof.
  intros [[= <- <-]|[[= <- <-]|[[= <- <-]|[]]]]; reflexivity.
Defined.

Lemma chain_env_no_unresolved : no_unresolved chain_env "C".
Proof.
  intros c [->|H].
  - split; [simpl; tauto|]. intros (v & Hv & Hin).
    simpl in Hv. injection Hv as <-. destruct Hin.
  - apply path_first_edge in H. destruct H as (d & Hd).
    unfold depends_on in Hd. simpl in Hd.
    destruct Hd as [[=]|[[=]|[]]].
Defined.

Lemma build_acyclic_substitutes_witness :
  (exists v, dict_get (resolve_values chain_env) "A" = Some v
             /\ ~ occurs (placeholder "C") v)
  /\ forall out,
       build ":" chain_env true false false true = Ok out ->
       true = false \/ Str.mem ":" (placeholder "C") = false ->
       exists v',
         dict_get out (partial_format "A" (resolve_values chain_env) None)
         = Some v'
         /\ ~ occurs (placeholder "C") v'.
Proof.
  apply (build_acyclic_substitutes ":" chain_env true false false true
           "A" "C").
  - repeat constructor; simpl; intuition discriminate.
  - exact chain_env_well_formed.
  - exact chain_env_acyclic.
  - apply t_trans with "B"; apply t_step; unfold depends_on; simpl; tauto.
  - exact chain_env_no_unresolved.
Defined.

(** ** The store *)

Lemma length_upd (r : Heap.ref) (d : dict) (st : Heap.store) :
  List.length (Heap.upd r d st) = List.length st.
Proof.
  revert r. induction st as [|x st IH]; intros [|r]; simpl; auto.
Qed.

Lemma nth_upd_same (r : Heap.ref) (d : dict) (st : Heap.store) :
  r < List.length st -> nth r (Heap.upd r d st) [] = d.
Proof.
  revert r. induction st as [|x st IH]; intros [|r]; simpl; try lia; auto.
  intros H. apply IH. lia.
Qed.

Lemma nth_upd_other (r q : Heap.ref) (d : dict) (st : Heap.store) :
  q <> r -> nth q (Heap.upd r d st) [] = nth q st [].
Proof.
  revert r q. induction st as [|x st IH]; intros [|r] [|q] H; simpl;
    try congruence; auto.
Qed.

Lemma nth_alloc_new (d : dict) (st : Heap.store) :
  nth (List.length st) (st ++ [d]) [] = d.
Proof. now rewrite app_nth2, Nat.sub_diag by lia. Qed.

Lemma nth_alloc_old (q : nat) (d : dict) (st : Heap.store) :
  q < List.length st -> nth q (st ++ [d]) [] = nth q st [].
Proof. intros H. now rewrite app_nth1. Qed.

Lemma keeps_refl (n : nat) (st : Heap.store) : keeps n st st.
Proof. split; auto. Qed.

Lemma keeps_trans (n : nat) (st1 st2 st3 : Heap.store) :
  keeps n st1 st2 -> keeps n st2 st3 -> keeps n st1 st3.
Proof.
  intros [L1 H1] [L2 H2]. split; [lia|].
  intros q Hq. now rewrite H2, H1.
Qed.

Lemma keeps_upd (n : nat) (r : Heap.ref) (d : dict) (st : Heap.store) :
  n <= r -> keeps n st (Heap.upd r d st).
Proof.
  intros H. split; [rewrite length_upd; lia|].
  intros q Hq. apply nth_upd_other. lia.
Qed.

Lemma keeps_alloc (n : nat) (d : dict) (st : Heap.store) :
  n <= List.length st -> keeps n st (st ++ [d]).
Proof.
  intros H. split; [rewrite length_app; simpl; lia|].
  intros q Hq. apply nth_alloc_old. lia.
Qed.

(** One pass of lines 70-73 on the working copy at [e]. *)
Lemma run_format_step (n : nat) (e : Heap.ref) (key : string)
  (st : Heap.store) :
  n <= e -> e < List.length st ->
  exists st',
    Heap.format_step e key st = (Ok tt, st')
    /\ nth e st' [] = format_value (nth e st []) key
    /\ keeps n st st'.
Proof.
  intros Hn He.
  unfold Heap.format_step, Heap.bind, Heap.contains, Heap.read, Heap.ret.
  unfold format_value, dict_mem.
  destruct (dict_get (nth e st []) key) as [v|] eqn:G.
  - unfold Heap.copy, Heap.pop, Heap.getitem, Heap.setitem, Heap.bind,
      Heap.read, Heap.alloc, Heap.write, Heap.ret.
    rewrite G. cbv beta iota.
    rewrite nth_alloc_new, G. cbv beta iota.
    rewrite nth_upd_other by lia.
    rewrite nth_alloc_old by exact He. rewrite G. cbv beta iota.
    rewrite nth_upd_same by (rewrite length_app; simpl; lia).
    rewrite nth_upd_other by lia.
    rewrite nth_alloc_old by exact He.
    eexists. split; [reflexivity|]. split.
    + apply nth_upd_same. rewrite length_upd, length_app. simpl. lia.
    + apply keeps_trans with (st ++ [nth e st []]);
        [apply keeps_alloc; lia|].
      apply keeps_trans with
        (Heap.upd (List.length st) (dict_pop (nth e st []) key)
           (st ++ [nth e st []])); apply keeps_upd; lia.
  - exists st. split; [|split; [reflexivity | apply keeps_refl]].
    unfold Heap.bind. now rewrite G.
Qed.

Lemma run_format_loop (n : nat) (e : Heap.ref) (order : list string) :
  forall st,
    n <= e -> e < List.length st ->
    exists st',
      Heap.for_each order (Heap.format_step e) st = (Ok tt, st')
      /\ nth e st' [] = format_values order (nth e st [])
      /\ keeps n st st'.
Proof.
  induction order as [|key order IH]; intros st Hn He.
  - exists st. repeat split; auto.
  - destruct (run_format_step n e key st Hn He) as (st1 & R1 & V1 & K1).
    destruct (IH st1 Hn) as (st2 & R2 & V2 & K2).
    { destruct K1 as [L _]. lia. }
    exists st2. split; [|split].
    + simpl. unfold Heap.bind. now rewrite R1.
    + rewrite V2, V1. reflexivity.
    + now apply keeps_trans with st1.
Qed.

Lemma run_key_step (allow_key_clash : bool) (e f : Heap.ref)
  (kv : string * string) (st : Heap.store) :
  Heap.key_step allow_key_clash e f kv st
  = let new_key := partial_format (fst kv) (nth e st []) None in
    if dict_mem (nth f st []) new_key && negb allow_key_clash
    then (Raise (DynamicKeyClashError new_key (fst kv)), st)
    else (Ok tt, Heap.upd f (dict_set (nth f st []) new_key (snd kv)) st).
Proof.
  unfold Heap.key_step, Heap.contains, Heap.setitem, Heap.read, Heap.write,
    Heap.raise, Heap.ret, Heap.bind.
  cbv beta iota zeta.
  now destruct (dict_mem (nth f st [])
                  (partial_format (fst kv) (nth e st []) None)
                && negb allow_key_clash).
Qed.

(** The loop of lines 85-95, writing to [f] and reading [e]. *)
Lemma run_key_loop (n : nat) (allow_key_clash : bool) (e f : Heap.ref)
  (its : dict) :
  forall st,
    n <= f -> f < List.length st -> e <> f ->
    exists st',
      keeps n st st'
      /\ nth e st' [] = nth e st []
      /\ match format_keys allow_key_clash (nth e st []) its (nth f st []) with
         | Ok out =>
             Heap.for_each its (Heap.key_step allow_key_clash e f) st
             = (Ok tt, st')
             /\ nth f st' [] = out
         | Raise err =>
             Heap.for_each its (Heap.key_step allow_key_clash e f) st
             = (Raise err, st')
         end.
Proof.
  induction its as [|[key value] its IH]; intros st Hn Hf Hef.
  - exists st. repeat split; auto.
  - simpl format_keys.
    cbn [Heap.for_each]. unfold Heap.bind.
    rewrite !run_key_step. cbv zeta. cbn [fst snd].
    destruct (dict_mem (nth f st [])
                (partial_format key (nth e st []) None)
              && negb allow_key_clash).
    + exists st. split; [apply keeps_refl | split; reflexivity].
    + set (st1 := Heap.upd f (dict_set (nth f st [])
                                (partial_format key (nth e st []) None) value)
                    st).
      destruct (IH st1 Hn) as (st2 & K2 & E2 & R2).
      { unfold st1. now rewrite length_upd. }
      { exact Hef. }
      assert (Ee : nth e st1 [] = nth e st []).
      { unfold st1. now apply nth_upd_other. }
      assert (Ef : nth f st1 [] = dict_set (nth f st [])
                     (partial_format key (nth e st []) None) value).
      { unfold st1. now apply nth_upd_same. }
      rewrite Ee, Ef in R2. exists st2. split; [|split].
      * apply keeps_trans with st1; [|exact K2]. now apply keeps_upd.
      * now rewrite E2.
      * exact R2.
Qed.

Lemma run_clean_loop (n : nat) (separator : ascii) (e : Heap.ref)
  (its : dict) :
  forall st,
    n <= e -> e < List.length st ->
    exists st',
      Heap.for_each its (Heap.clean_step separator e) st = (Ok tt, st')
      /\ nth e st' []
         = fold_left
             (fun env kv =>
                dict_set env (fst kv) (clean_value separator (snd kv)))
             its (nth e st [])
      /\ keeps n st st'.
Proof.
  induction its as [|kv its IH]; intros st Hn He.
  - exists st. repeat split; auto.
  - set (st1 := Heap.upd e (dict_set (nth e st []) (fst kv)
                              (clean_value separator (snd kv))) st).
    destruct (IH st1 Hn) as (st2 & R2 & V2 & K2).
    { unfold st1. now rewrite length_upd. }
    exists st2. split; [|split].
    + exact R2.
    + rewrite V2. unfold st1. now rewrite nth_upd_same.
    + apply keeps_trans with st1; [|exact K2]. now apply keeps_upd.
Qed.

Lemma bind_Ok {A B : Type} (c : Heap.M A) (k : A -> Heap.M B)
  (st st' : Heap.store) (a : A) :
  c st = (Ok a, st') -> Heap.bind c k st = k a st'.
Proof. intros H. unfold Heap.bind. now rewrite H. Qed.

Lemma bind_Raise {A B : Type} (c : Heap.M A) (k : A -> Heap.M B)
  (st st' : Heap.store) (e : error) :
  c st = (Raise e, st') -> Heap.bind c k st = (Raise e, st').
Proof. intros H. unfold Heap.bind. now rewrite H. Qed.

(** The part of [build] after the value passes, on the working copy at
    [e]. *)
Lemma run_build_tail (n : nat) (pathsep : ascii) (e : Heap.ref)
  (dynamic_keys allow_key_clash cleanup : bool) (st : Heap.store) :
  n <= e -> e < List.length st ->
  let c :=
    Heap.bind
      (if dynamic_keys then
         Heap.bind Heap.new_dict (fun formatted =>
         Heap.bind (Heap.items e) (fun its =>
         Heap.bind
           (Heap.for_each its (Heap.key_step allow_key_clash e formatted))
           (fun _ => Heap.ret formatted)))
       else Heap.ret e)
      (fun env =>
         Heap.bind
           (if cleanup then
              Heap.bind (Heap.items env) (fun its =>
                Heap.for_each its (Heap.clean_step pathsep env))
            else Heap.ret tt)
           (fun _ => Heap.ret env)) in
  keeps n st (snd (c st))
  /\ Heap.outcome (c st)
     = match (if dynamic_keys
              then format_keys allow_key_clash (nth e st []) (nth e st []) []
              else Ok (nth e st [])) with
       | Raise err => Raise err
       | Ok env => Ok (if cleanup then cleanup_env pathsep env else env)
       end.
Proof.
  intros Hn He c. subst c.
  assert (Hclean : forall f st0,
            n <= f -> f < List.length st0 ->
            let c := Heap.bind
                       (if cleanup then
                          Heap.bind (Heap.items f) (fun its =>
                            Heap.for_each its (Heap.clean_step pathsep f))
                        else Heap.ret tt)
                       (fun _ => Heap.ret f) in
            keeps n st0 (snd (c st0))
            /\ Heap.outcome (c st0)
               = Ok (if cleanup then cleanup_env pathsep (nth f st0 [])
                     else nth f st0 [])).
  { intros f st0 Hf Hlen c. subst c. destruct cleanup.
    - destruct (run_clean_loop n pathsep f (nth f st0 []) st0 Hf Hlen)
        as (st1 & R & V & K).
      rewrite (bind_Ok _ _ st0 st1 tt).
      + split; [exact K|]. simpl. now rewrite V.
      + now rewrite (bind_Ok _ _ st0 st0 (nth f st0 [])).
    - split; [apply keeps_refl | reflexivity]. }
  destruct dynamic_keys.
  - set (st1 := st ++ [[]]).
    assert (K1 : keeps n st st1) by (apply keeps_alloc; lia).
    assert (Ee : nth e st1 [] = nth e st []) by now apply nth_alloc_old.
    assert (Ef : nth (List.length st) st1 [] = []) by apply nth_alloc_new.
    destruct (run_key_loop n allow_key_clash e (List.length st)
                (nth e st []) st1) as (st2 & K2 & E2 & R2).
    { lia. }
    { unfold st1. rewrite length_app. simpl. lia. }
    { lia. }
    rewrite Ee, Ef in R2.
    destruct (format_keys allow_key_clash (nth e st []) (nth e st []) [])
      as [out|err].
    + destruct R2 as [R2 V2].
      rewrite (bind_Ok _ _ st st2 (List.length st)).
      * cbv beta. destruct (Hclean (List.length st) st2) as [K3 O3].
        { lia. }
        { destruct K2 as [L _]. unfold st1 in L.
          rewrite length_app in L. simpl in L. lia. }
        split.
        -- apply keeps_trans with st1; [exact K1|].
           now apply keeps_trans with st2.
        -- rewrite V2 in O3. exact O3.
      * rewrite (bind_Ok _ _ st st1 (List.length st)) by reflexivity.
        rewrite (bind_Ok _ _ st1 st1 (nth e st []))
          by (unfold Heap.items, Heap.read; now rewrite Ee).
        now rewrite (bind_Ok _ _ st1 st2 tt).
    + rewrite (bind_Raise _ _ st st2 err).
      * split; [|reflexivity]. now apply keeps_trans with st1.
      * rewrite (bind_Ok _ _ st st1 (List.length st)) by reflexivity.
        rewrite (bind_Ok _ _ st1 st1 (nth e st []))
          by (unfold Heap.items, Heap.read; now rewrite Ee).
        now rewrite (bind_Raise _ _ st1 st2 err).
  - rewrite (bind_Ok _ _ st st e) by reflexivity.
    cbv beta. now apply Hclean.
Qed.

(** [Heap.build] computes [build] of the caller's dictionary, and leaves
    every object of the caller's store as it was. *)
Lemma build_refines (pathsep : ascii) (r : Heap.ref)
  (dynamic_keys allow_cycle allow_key_clash cleanup : bool)
  (st : Heap.store) :
  r < List.length st ->
  keeps (List.length st) st
    (snd (Heap.build pathsep r dynamic_keys allow_cycle allow_key_clash
            cleanup st))
  /\ Heap.outcome
       (Heap.build pathsep r dynamic_keys allow_cycle allow_key_clash
          cleanup st)
     = build pathsep (nth r st []) dynamic_keys allow_cycle allow_key_clash
         cleanup.
Proof.
  intros Hr. unfold Heap.build, build.
  set (d0 := nth r st []). set (e := List.length st).
  set (st1 := st ++ [d0]).
  assert (K1 : keeps e st st1) by (apply keeps_alloc; unfold e; lia).
  assert (E1 : nth e st1 [] = d0) by apply nth_alloc_new.
  assert (L1 : e < List.length st1).
  { unfold st1. rewrite length_app. simpl. unfold e. lia. }
  rewrite (bind_Ok _ _ st st1 e) by reflexivity. cbv beta.
  rewrite (bind_Ok _ _ st1 st1 d0)
    by (unfold Heap.items, Heap.read; now rewrite E1).
  cbv beta zeta. fold (dependencies d0).
  destruct (negb (Nat.eqb (List.length
              (cyclic (topological_sort (dependencies d0)))) 0)
            && negb allow_cycle).
  - rewrite (bind_Raise _ _ st1 st1
               (CycleError (cyclic (topological_sort (dependencies d0)))))
      by reflexivity.
    split; [exact K1 | reflexivity].
  - rewrite (bind_Ok _ _ st1 st1 tt) by reflexivity. cbv beta.
    destruct (run_format_loop e e
                (rev (sorted (topological_sort (dependencies d0)))) st1)
      as (st2 & R2 & V2 & K2); [lia | exact L1 |].
    rewrite (bind_Ok _ _ st1 st2 tt) by exact R2. cbv beta.
    assert (L2 : e < List.length st2) by (destruct K2; lia).
    destruct (run_format_loop e e
                (cyclic (topological_sort (dependencies d0))) st2)
      as (st3 & R3 & V3 & K3); [lia | exact L2 |].
    rewrite (bind_Ok _ _ st2 st3 tt) by exact R3. cbv beta.
    assert (L3 : e < List.length st3) by (destruct K3; lia).
    destruct (run_build_tail e pathsep e dynamic_keys allow_key_clash
                cleanup st3) as [K4 O4]; [lia | exact L3 |].
    rewrite V3, V2, E1 in O4. split.
    + apply keeps_trans with st1; [exact K1|].
      apply keeps_trans with st2; [exact K2|].
      apply keeps_trans with st3; [exact K3 | exact K4].
    + exact O4.
Qed.

(** C6. [build] never mutates the caller's input mapping: for every store,
    every valid reference [env] and every flag combination, after the call
    (whether it returns or raises) every dictionary the caller held, the
    input among them, holds exactly the pairs it held before. *)
Theorem build_never_mutates (pathsep : ascii) (env : Heap.ref)
  (dynamic_keys allow_cycle allow_key_clash cleanup : bool)
  (st : Heap.store) (q : Heap.ref)
  (Henv : env < List.length st) (Hq : q < List.length st) :
  nth q (snd (Heap.build pathsep env dynamic_keys allow_cycle
                allow_key_clash cleanup st)) []
  = nth q st [].
Proof.
  destruct (build_refines pathsep env dynamic_keys allow_cycle
              allow_key_clash cleanup st Henv) as [[_ K] _].
  now apply K.
Qed.

Lemma build_never_mutates_witness :
  nth 0 (snd (Heap.build ";" 0 true false false true [tools_env])) []
  = nth 0 [tools_env] [].
Proof.
  apply (build_never_mutates ";" 0 true false false true [tools_env] 0);
    simpl; lia.
Defined.

(** Without the copy of line 44 the same passes do change the caller's
    dictionary. *)
Example build_in_place_mutates :
  nth 0 (snd (Heap.build_in_place ";" 0 true false false true [tools_env])) []
  <> tools_env.
Proof. vm_compute. discriminate. Qed.



(** ** [prepare], [join] and the path separator *)

Lemma clean_value_whole (separator : ascii) (value : string) :
  Str.mem separator value = false -> Str.nonblank value = true ->
  clean_value separator value = value.
Proof.
  intros Hm Hb. unfold clean_value. rewrite (split_single _ _ Hm).
  unfold uniqify_ordered. simpl. now rewrite Hb.
Qed.

Lemma join_paths_filter (append_path : dict -> string -> string -> dict)
  (variable : string) (paths : list string) (env : dict) :
  join_paths append_path variable env paths
  = fold_left (fun env path => append_path env variable path)
      (filter Str.nonempty paths) env.
Proof.
  unfold join_paths. revert env.
  induction paths as [|p paths IH]; intros env; simpl; [reflexivity|].
  destruct (Str.nonempty p); simpl; apply IH.
Qed.

Lemma fold_left_ext {A B : Type} (f g : A -> B -> A) (l : list B) (a : A) :
  (forall x y, f x y = g x y) -> fold_left f l a = fold_left g l a.
Proof.
  intros H. revert a. induction l as [|b l IH]; intros a; simpl;
    [reflexivity|]. now rewrite H, IH.
Qed.

(** C10. [prepare] joins a list value with the literal [;] on every
    supported platform, and [join] splits every value of the second
    environment on the literal [;], whatever the platform: the paths that
    [prepare] joined are appended one by one. The cleanup of [build]
    splits on the platform's path separator instead: with separator [;]
    the joined value is cleaned path by path, but with separator [:] a
    joined value without [:] is one segment and comes back unchanged (so
    "a;b;a" keeps its duplicate on such a platform). *)
Theorem join_splits_on_semicolon
  (append_path : dict -> string -> string -> dict)
  (PLATFORM : string) (env : dict) (variable : string)
  (paths : list string) (platform_name : string)
  (Hne : paths <> [])
  (Hpaths : forall p, In p paths -> Str.mem ";" p = false /\ p <> "")
  (Hplatform : In platform_name ["windows"; "linux"; "darwin"]) :
  let value := Str.join ";" paths in
  prepare PLATFORM [(variable, Flat (VList paths))] (Some platform_name)
    = Ok [(variable, value)]
  /\ (forall env_b,
        join append_path env env_b
        = fold_left
            (fun env kv =>
               fold_left (fun env path => append_path env (fst kv) path)
                 (filter Str.nonempty (Str.split ";" (snd kv))) env)
            env_b env)
  /\ join append_path env [(variable, value)]
     = fold_left (fun env path => append_path env variable path) paths env
  /\ clean_value ";" value
     = Str.join ";" (filter Str.nonblank (uniqify_ordered paths))
  /\ (Str.mem ":" value = false -> Str.nonblank value = true ->
      clean_value ":" value = value)
  /\ build ":" [("PATH", "a;b;a")] true false false true
     = Ok [("PATH", "a;b;a")]
  /\ build ";" [("PATH", "a;b;a")] true false false true
     = Ok [("PATH", "a;b")].
Proof.
  intros value.
  assert (Hsplit : Str.split ";" value = paths).
  { apply (split_join ";" paths Hne). intros p Hp. now apply Hpaths. }
  split.
  { assert (Ht : truthy (VList paths) = true).
    { simpl. destruct paths; [congruence | reflexivity]. }
    destruct Hplatform as [<-|[<-|[<-|[]]]]; unfold prepare; simpl;
      unfold prepare_item; cbn [fst snd]; rewrite Ht; reflexivity. }
  split.
  { intros env_b. unfold join. apply fold_left_ext.
    intros x kv. apply join_paths_filter. }
  split.
  { unfold join. simpl. rewrite join_paths_filter, Hsplit.
    rewrite filter_fixed; [reflexivity|].
    intros p Hp. destruct (Hpaths p Hp) as [_ Hp'].
    destruct p; [congruence | reflexivity]. }
  split.
  { unfold clean_value. now rewrite Hsplit. }
  split.
  { apply clean_value_whole. }
  split; vm_compute; reflexivity.
Qed.

Lemma join_splits_on_semicolon_witness :
  prepare "linux" [("PATH", Flat (VList ["a"; "b"; "a"]))] (Some "linux")
    = Ok [("PATH", "a;b;a")]
  /\ (forall env_b,
        join (fun env k p => dict_set env k p) [] env_b
        = fold_left
            (fun env kv =>
               fold_left (fun env path => dict_set env (fst kv) path)
                 (filter Str.nonempty (Str.split ";" (snd kv))) env)
            env_b [])
  /\ join (fun env k p => dict_set env k p) [] [("PATH", "a;b;a")]
     = fold_left (fun env path => dict_set env "PATH" path) ["a"; "b"; "a"] []
  /\ clean_value ";" "a;b;a" = "a;b"
  /\ (Str.mem ":" "a;b;a" = false -> Str.nonblank "a;b;a" = true ->
      clean_value ":" "a;b;a" = "a;b;a")
  /\ build ":" [("PATH", "a;b;a")] true false false true
     = Ok [("PATH", "a;b;a")]
  /\ build ";" [("PATH", "a;b;a")] true false false true
     = Ok [("PATH", "a;b")].
Proof.
  apply (join_splits_on_semicolon (fun env k p => dict_set env k p)
           "linux" [] "PATH" ["a"; "b"; "a"] "linux").
  - discriminate.
  - intros p [<-|[<-|[<-|[]]]]; split; (reflexivity || discriminate).
  - simpl. tauto.
Defined.

(** ** The two parts of the sort result *)

Lemma ready_cyclic_spec (es : list edge) (cyc placed : list string)
  (n : string) :
  ready es cyc placed n = true <->
  forall h, depends_on es h n -> In h placed \/ In h cyc.
Proof.
  unfold ready, depends_on. rewrite forallb_forall. split.
  - intros H h Hh. specialize (H (h, n) Hh). simpl in H.
    rewrite String.eqb_refl in H. simpl in H.
    apply orb_true_iff in H. rewrite !mem_str_In in H. exact H.
  - intros H [h t] He. simpl.
    destruct (String.eqb t n) eqn:E; [|reflexivity].
    apply String.eqb_eq in E. subst t. simpl.
    apply orb_true_iff. rewrite !mem_str_In. now apply H.
Qed.

Lemma place_keeps_placed (es : list edge) (cyc : list string) (fuel : nat) :
  forall placed todo x,
    In x placed -> In x (place fuel es cyc placed todo).
Proof.
  induction fuel as [|fuel IH]; intros placed todo x Hx; simpl; [exact Hx|].
  destruct (find (ready es cyc placed) todo); [|exact Hx].
  apply IH. apply in_app_iff. now left.
Qed.

Lemma place_complete (es : list edge) (cyc : list string) (fuel : nat) :
  forall placed todo,
    (forall x, In x todo -> ~ path es x x) ->
    (forall x, In x (nodes es) -> In x placed \/ In x todo \/ In x cyc) ->
    List.length todo <= fuel ->
    forall x, In x todo -> In x (place fuel es cyc placed todo).
Proof.
  induction fuel as [|fuel IH]; intros placed todo Hac Hcover Hlen x Hx.
  - destruct todo; [destruct Hx | simpl in Hlen; lia].
  - simpl. destruct (find (ready es cyc placed) todo) as [n|] eqn:F.
    + apply find_some in F. destruct F as [Hn _].
      destruct (string_dec x n) as [->|Hne].
      * apply place_keeps_placed. apply in_app_iff. right. now left.
      * apply IH.
        -- intros y Hy. apply remove_str_In in Hy. now apply Hac.
        -- intros y Hy. rewrite in_app_iff, remove_str_In. simpl.
           destruct (string_dec y n) as [->|Hne']; [tauto|].
           destruct (Hcover y Hy) as [H|[H|H]]; tauto.
        -- pose proof (remove_str_length n todo Hn). lia.
        -- apply remove_str_In. now split.
    + exfalso.
      assert (Hne : todo <> []) by (intros ->; destruct Hx).
      destruct (no_source_cycle todo (depends_on es) Hne) as (c & Hc & Hcc).
      * intros u Hu. pose proof (find_none _ _ F u Hu) as Hr.
        unfold ready in Hr. apply forallb_false_witness in Hr.
        destruct Hr as ([h t] & He & Hf). simpl in Hf.
        apply orb_false_iff in Hf. destruct Hf as [Hf Hcyc].
        apply orb_false_iff in Hf. destruct Hf as [Ht Hh].
        apply negb_false_iff, String.eqb_eq in Ht. subst t.
        apply mem_str_not_In in Hh, Hcyc. exists h. split; [|exact He].
        destruct (Hcover h) as [H|[H|H]]; try tauto.
        apply nodes_In. exists (h, u). split; [exact He | now left].
      * now apply (Hac c).
Qed.

(** Every node of the edges is in exactly one of the two parts: [cyclic]
    if it lies on a cycle, [sorted] otherwise. *)
Lemma topological_sort_partition (es : list edge) (n : string) :
  In n (nodes es) ->
  (In n (cyclic (topological_sort es)) <-> path es n n)
  /\ (In n (sorted (topological_sort es)) <-> ~ path es n n).
Proof.
  intros Hn. split; [apply cyclic_spec|]. split.
  - intros H. now apply (proj2 (sorted_spec es) n).
  - intros H. simpl. apply place_complete.
    + intros x Hx. apply filter_In in Hx. destruct Hx as [_ Hx].
      rewrite <- on_cycle_spec. now destruct (on_cycle es x).
    + intros x Hx. right. rewrite !filter_In.
      destruct (on_cycle es x); [right | left]; now split.
    + lia.
    + apply filter_In. split; [exact Hn|].
      destruct (on_cycle es n) eqn:E; [|reflexivity].
      now apply on_cycle_spec in E.
Qed.

Lemma snoc_split {A : Type} (l l1 l2 : list A) (n t : A) :
  l ++ [n] = l1 ++ t :: l2 ->
  (l2 = [] /\ t = n /\ l1 = l)
  \/ exists l2', l2 = l2' ++ [n] /\ l = l1 ++ t :: l2'.
Proof.
  destruct l2 as [|x l2 _] using rev_ind; intros H.
  - left. apply app_inj_tail in H. destruct H as [-> ->]. auto.
  - right. exists l2.
    change (l ++ [n] = l1 ++ (t :: l2) ++ [x]) in H.
    rewrite app_assoc in H. apply app_inj_tail in H.
    destruct H as [-> ->]. auto.
Qed.

Lemma place_predecessors_first (es : list edge) (cyc : list string)
  (fuel : nat) :
  forall placed todo,
    predecessors_first es cyc placed ->
    predecessors_first es cyc (place fuel es cyc placed todo).
Proof.
  induction fuel as [|fuel IH]; intros placed todo Hinv; simpl; [exact Hinv|].
  destruct (find (ready es cyc placed) todo) as [n|] eqn:F; [|exact Hinv].
  apply find_some in F. destruct F as [_ Hr].
  rewrite ready_cyclic_spec in Hr. apply IH.
  intros l1 t l2 h E Hht. apply snoc_split in E.
  destruct E as [(-> & -> & ->) | (l2' & -> & E)].
  - now apply Hr.
  - now apply (Hinv l1 t l2' h).
Qed.

(** In [sorted] no predecessor comes after a successor: whatever stands
    before [t] holds every acyclic node that [t] is a dependency of. *)
Lemma sorted_predecessors_first (es : list edge) :
  predecessors_first es (cyclic (topological_sort es))
    (sorted (topological_sort es)).
Proof.
  simpl. apply place_predecessors_first.
  intros l1 t l2 h E. destruct l1; discriminate.
Qed.

(* ================================================================== *)
(** * Further properties of [build] *)

(** X1. [build] raises [CycleError] exactly when [allow_cycle] is false
    and the dependency graph has a cycle; the error then carries the
    cyclic nodes of the sort result. *)
Theorem build_cycle_error_iff (pathsep : ascii) (env : dict)
  (dynamic_keys allow_cycle allow_key_clash cleanup : bool)
  (reported : list string) :
  build pathsep env dynamic_keys allow_cycle allow_key_clash cleanup
    = Raise (CycleError reported)
  <-> allow_cycle = false
      /\ has_cycle (dependencies env)
      /\ reported = cyclic (topological_sort (dependencies env)).
Proof.
  unfold build. split.
  - destruct (cyclic (topological_sort (dependencies env))) as [|n ns] eqn:E.
    + simpl. destruct dynamic_keys.
      * destruct (format_keys _ _ _ _) as [o|e] eqn:F; [discriminate|].
        apply format_keys_raises in F. destruct F as (nk & k & ->).
        discriminate.
      * discriminate.
    + assert (Hn : path (dependencies env) n n).
      { apply cyclic_spec. rewrite E. now left. }
      destruct allow_cycle; simpl.
      * destruct dynamic_keys.
        -- destruct (format_keys _ _ _ _) as [o|e] eqn:F; [discriminate|].
           apply format_keys_raises in F. destruct F as (nk & k & ->).
           discriminate.
        -- discriminate.
      * intros [= <-]. split; [reflexivity|]. split; [now exists n|].
        reflexivity.
  - intros (-> & Hc & ->). now rewrite (cyclic_nonempty _ Hc).
Qed.

Lemma keys_cleanup_fold (separator : ascii) (its env : dict) :
  incl (keys its) (keys env) ->
  keys (fold_left
          (fun env kv =>
             dict_set env (fst kv) (clean_value separator (snd kv)))
          its env)
  = keys env.
Proof.
  revert env. induction its as [|[k v] its IH]; intros env Hin; simpl.
  - reflexivity.
  - assert (Hk : keys (dict_set env k (clean_value separator v)) = keys env).
    { rewrite keys_dict_set.
      assert (E : dict_mem env k = true).
      { apply dict_mem_In. apply Hin. now left. }
      now rewrite E. }
    rewrite IH; [exact Hk|]. rewrite Hk.
    intros x Hx. apply Hin. now right.
Qed.

Lemma keys_cleanup_env (separator : ascii) (env : dict) :
  keys (cleanup_env separator env) = keys env.
Proof. apply keys_cleanup_fold. apply incl_refl. Qed.

Lemma keys_cleaned (separator : ascii) (cleanup : bool) (env : dict) :
  keys (if cleanup then cleanup_env separator env else env) = keys env.
Proof. destruct cleanup; [apply keys_cleanup_env | reflexivity]. Qed.

(** X2. With [dynamic_keys] off, a completed [build] returns exactly the
    keys of its input, in the same order, whatever the other flags. *)
Theorem build_static_keys (pathsep : ascii) (env out : dict)
  (allow_cycle allow_key_clash cleanup : bool)
  (Hbuild : build pathsep env false allow_cycle allow_key_clash cleanup
            = Ok out) :
  keys out = keys env.
Proof.
  unfold build in Hbuild.
  destruct (negb (Nat.eqb (List.length
              (cyclic (topological_sort (dependencies env)))) 0)
            && negb allow_cycle); [discriminate|].
  fold (resolve_values env) in Hbuild. injection Hbuild as <-.
  now rewrite keys_cleaned, keys_resolve_values.
Qed.

Lemma build_static_keys_witness :
  keys [("ROOT", "/tools"); ("BIN", "/tools/bin"); ("LIB", "/tools/lib")]
  = keys tools_env.
Proof.
  apply (build_static_keys ";" tools_env _ false false true).
  vm_compute. reflexivity.
Defined.

Lemma format_keys_strict_keys (env items formatted out : dict) :
  format_keys false env items formatted = Ok out ->
  keys out
  = keys formatted ++ map (fun kv => partial_format (fst kv) env None) items.
Proof.
  revert formatted. induction items as [|[key value] items IH];
    intros formatted; simpl.
  - intros [= <-]. now rewrite app_nil_r.
  - rewrite andb_true_r.
    destruct (dict_mem formatted (partial_format key env None)) eqn:E;
      [discriminate|].
    intros H. rewrite (IH _ H), keys_dict_set, E, <- app_assoc.
    reflexivity.
Qed.

(** X3. With dynamic keys on and key clashes refused, a completed [build]
    returns one key per input key: the resolved names, in input order,
    pairwise distinct; no entry is lost. *)
Theorem build_dynamic_keys_strict (pathsep : ascii) (env out : dict)
  (allow_cycle cleanup : bool)
  (Hbuild : build pathsep env true allow_cycle false cleanup = Ok out) :
  keys out
  = map (fun kv => partial_format (fst kv) (resolve_values env) None)
      (resolve_values env)
  /\ NoDup (keys out)
  /\ List.length out = List.length env.
Proof.
  unfold build in Hbuild.
  destruct (negb (Nat.eqb (List.length
              (cyclic (topological_sort (dependencies env)))) 0)
            && negb allow_cycle); [discriminate|].
  fold (resolve_values env) in Hbuild.
  destruct (format_keys false (resolve_values env) (resolve_values env) [])
    as [o|e] eqn:F; [|discriminate].
  injection Hbuild as <-.
  assert (Hk : keys (if cleanup then cleanup_env pathsep o else o)
               = map (fun kv => partial_format (fst kv)
                                  (resolve_values env) None)
                   (resolve_values env)).
  { rewrite keys_cleaned. now rewrite (format_keys_strict_keys _ _ _ _ F). }
  split; [exact Hk|]. split.
  - rewrite Hk. now destruct (format_keys_strict _ _ _ _ F).
  - assert (L : List.length (keys (if cleanup then cleanup_env pathsep o
                                   else o))
                = List.length (keys env)).
    { rewrite Hk, length_map, <- (keys_resolve_values env).
      unfold keys. now rewrite length_map. }
    unfold keys in L. now rewrite !length_map in L.
Qed.

Lemma build_dynamic_keys_strict_witness :
  keys [("X", "1"); ("A", "X")]
  = map (fun kv => partial_format (fst kv)
                     (resolve_values [("{A}", "1"); ("A", "X")]) None)
      (resolve_values [("{A}", "1"); ("A", "X")])
  /\ NoDup (keys [("X", "1"); ("A", "X")])
  /\ List.length [("X", "1"); ("A", "X")]
     = List.length [("{A}", "1"); ("A", "X")].
Proof.
  apply (build_dynamic_keys_strict ":" [("{A}", "1"); ("A", "X")] _
           false true).
  vm_compute. reflexivity.
Defined.

Lemma format_keys_clash (env items formatted : dict) (new_key key : string) :
  format_keys false env items formatted
    = Raise (DynamicKeyClashError new_key key) ->
  exists l1 v l3,
    items = l1 ++ (key, v) :: l3
    /\ partial_format key env None = new_key
    /\ (In new_key (keys formatted)
        \/ exists k1 v1, In (k1, v1) l1
                         /\ partial_format k1 env None = new_key).
Proof.
  revert formatted. induction items as [|[k0 v0] items IH];
    intros formatted; simpl; [discriminate|].
  rewrite andb_true_r.
  destruct (dict_mem formatted (partial_format k0 env None)) eqn:E.
  - intros [= <- <-]. exists [], v0, items. split; [reflexivity|].
    split; [reflexivity|]. left. now apply dict_mem_In.
  - intros H. destruct (IH _ H) as (l1 & v & l3 & -> & Hk & Hor).
    exists ((k0, v0) :: l1), v, l3. split; [reflexivity|].
    split; [exact Hk|]. destruct Hor as [Hin | (k1 & v1 & Hin & Hk1)].
    + rewrite keys_dict_set, E, in_app_iff in Hin. simpl in Hin.
      destruct Hin as [Hin|[Hin|[]]]; [now left|].
      right. exists k0, v0. split; [now left | exact Hin].
    + right. exists k1, v1. split; [now right | exact Hk1].
Qed.

(** X4. When [build] raises [DynamicKeyClashError new_key key], the
    resolved environment holds [key] after an earlier key, and both
    resolve to [new_key]: the error names the later source and the
    clashing name. *)
Theorem build_key_clash_error (pathsep : ascii) (env : dict)
  (allow_cycle allow_key_clash cleanup : bool) (new_key key : string)
  (Hbuild : build pathsep env true allow_cycle allow_key_clash cleanup
            = Raise (DynamicKeyClashError new_key key)) :
  allow_key_clash = false
  /\ exists l1 k1 v1 l2 v l3,
       resolve_values env = l1 ++ (k1, v1) :: l2 ++ (key, v) :: l3
       /\ partial_format k1 (resolve_values env) None = new_key
       /\ partial_format key (resolve_values env) None = new_key.
Proof.
  unfold build in Hbuild.
  destruct (negb (Nat.eqb (List.length
              (cyclic (topological_sort (dependencies env)))) 0)
            && negb allow_cycle); [discriminate|].
  fold (resolve_values env) in Hbuild.
  destruct allow_key_clash.
  - destruct (format_keys_allowed (resolve_values env) (resolve_values env) [])
      as (o & Ho & _). rewrite Ho in Hbuild. discriminate.
  - split; [reflexivity|].
    destruct (format_keys false (resolve_values env) (resolve_values env) [])
      as [o|e] eqn:F; [discriminate|].
    injection Hbuild as ->. apply format_keys_clash in F.
    destruct F as (l & v & l3 & E & Hk & [[]|(k1 & v1 & Hin & Hk1)]).
    apply in_split in Hin. destruct Hin as (l1 & l2 & ->).
    exists l1, k1, v1, l2, v, l3.
    split; [rewrite E, <- app_assoc; reflexivity | split; assumption].
Qed.

Lemma build_key_clash_error_witness :
  false = false
  /\ exists l1 k1 v1 l2 v l3,
       resolve_values clash_env = l1 ++ (k1, v1) :: l2 ++ ("{B}", v) :: l3
       /\ partial_format k1 (resolve_values clash_env) None = "X"
       /\ partial_format "{B}" (resolve_values clash_env) None = "X".
Proof.
  apply (build_key_clash_error ":" clash_env false false true "X" "{B}").
  vm_compute. reflexivity.
Defined.

Lemma format_values_plain (order : list string) :
  forall env key value,
    dict_get env key = Some value -> findall value = [] ->
    dict_get (format_values order env) key = Some value.
Proof.
  induction order as [|x order IH]; intros env key value G Hp; simpl.
  - exact G.
  - apply IH; [|exact Hp].
    destruct (string_dec x key) as [->|Hne].
    + rewrite (dict_get_format_value_same env key value G).
      now rewrite partial_format_plain.
    + now rewrite dict_get_format_value_other.
Qed.

(** X5. A value without placeholders goes through [build] untouched: a
    completed [build] (no allowed key clash) returns it under the key's
    resolved name, cleaned under [cleanup] and otherwise as it was. *)
Theorem build_keeps_plain_value (pathsep : ascii) (env out : dict)
  (dynamic_keys allow_cycle allow_key_clash cleanup : bool)
  (key value : string)
  (Hwf : wf_dict env)
  (Hclash : dynamic_keys = false \/ allow_key_clash = false)
  (Hbuild : build pathsep env dynamic_keys allow_cycle allow_key_clash
              cleanup = Ok out)
  (Hget : dict_get env key = Some value)
  (Hplain : findall value = []) :
  dict_get out (if dynamic_keys
                then partial_format key (resolve_values env) None
                else key)
  = Some (if cleanup then clean_value pathsep value else value).
Proof.
  apply (build_strict_output pathsep env dynamic_keys allow_cycle
           allow_key_clash cleanup out key value Hwf Hclash Hbuild).
  unfold resolve_values. apply format_values_plain; [|exact Hplain].
  now apply format_values_plain.
Qed.

Lemma build_keeps_plain_value_witness :
  dict_get [("ROOT", "/tools"); ("BIN", "/tools/bin"); ("LIB", "/tools/lib")]
    (partial_format "ROOT" (resolve_values tools_env) None)
  = Some (clean_value ";" "/tools").
Proof.
  apply (build_keeps_plain_value ";" tools_env _ true false false true
           "ROOT" "/tools").
  - repeat constructor; simpl; intuition discriminate.
  - now right.
  - vm_compute. reflexivity.
  - reflexivity.
  - reflexivity.
Defined.

(* ================================================================== *)
(** * Further properties of the cleanup *)

Lemma split_clean_value (separator : ascii) (value : string) :
  kept separator value <> [] ->
  Str.split separator (clean_value separator value) = kept separator value.
Proof.
  intros Hne. unfold clean_value. fold (kept separator value).
  apply split_join; [exact Hne|].
  intros seg Hseg. apply kept_spec in Hseg. destruct Hseg as [Hseg _].
  now apply split_no_sep in Hseg.
Qed.

Lemma clean_value_no_kept (separator : ascii) (value : string) :
  kept separator value = [] -> clean_value separator value = "".
Proof.
  intros H. unfold clean_value. fold (kept separator value). now rewrite H.
Qed.

(** X6. Cleaning neither loses nor invents a path: the non-blank segments
    of the cleaned value are exactly the non-blank segments of the
    value. *)
Theorem clean_value_segments (separator : ascii) (value seg : string) :
  (In seg (Str.split separator (clean_value separator value))
   /\ Str.nonblank seg = true)
  <-> (In seg (Str.split separator value) /\ Str.nonblank seg = true).
Proof.
  destruct (kept separator value) as [|s0 ss] eqn:E.
  - rewrite (clean_value_no_kept _ _ E). simpl. split.
    + intros [[<-|[]] H]. discriminate.
    + intros H. apply kept_spec in H. rewrite E in H. destruct H.
  - rewrite split_clean_value by (rewrite E; discriminate).
    rewrite kept_spec. tauto.
Qed.

(** X7. A cleaned value is empty, or its segments are pairwise distinct
    and none of them is blank. *)
Theorem clean_value_shape (separator : ascii) (value : string) :
  clean_value separator value = ""
  \/ (NoDup (Str.split separator (clean_value separator value))
      /\ forall seg,
           In seg (Str.split separator (clean_value separator value)) ->
           Str.nonblank seg = true).
Proof.
  destruct (kept separator value) as [|s0 ss] eqn:E.
  - left. now apply clean_value_no_kept.
  - right. rewrite split_clean_value by (rewrite E; discriminate).
    split; [apply kept_NoDup|].
    intros seg Hseg. now apply kept_spec in Hseg.
Qed.

(** X8. A value is cleaned to the empty string exactly when every one of
    its segments is blank. *)
Theorem clean_value_empty_iff (separator : ascii) (value : string) :
  clean_value separator value = ""
  <-> forall seg, In seg (Str.split separator value) ->
                  Str.nonblank seg = false.
Proof.
  split.
  - intros H seg Hseg. destruct (Str.nonblank seg) eqn:Hb; [|reflexivity].
    assert (Hk : In seg (kept separator value)) by now apply kept_spec.
    assert (Hne : kept separator value <> []).
    { intros E. rewrite E in Hk. destruct Hk. }
    pose proof (split_clean_value _ _ Hne) as Hs.
    rewrite H in Hs. simpl in Hs. rewrite <- Hs in Hk.
    destruct Hk as [<-|[]]. discriminate.
  - intros H. apply clean_value_no_kept.
    destruct (kept separator value) as [|s0 ss] eqn:E; [reflexivity|].
    assert (Hk : In s0 (kept separator value)) by (rewrite E; now left).
    apply kept_spec in Hk. destruct Hk as [Hin Hb].
    rewrite (H s0 Hin) in Hb. discriminate.
Qed.

Lemma dict_set_app_new (pre post : dict) (k v x : string) :
  ~ In k (keys pre) ->
  dict_set (pre ++ (k, v) :: post) k x = pre ++ (k, x) :: post.
Proof.
  induction pre as [|[k0 v0] pre IH]; simpl; intros Hk.
  - now rewrite String.eqb_refl.
  - destruct (String.eqb k0 k) eqn:E.
    + apply String.eqb_eq in E. tauto.
    + rewrite IH by tauto. reflexivity.
Qed.

Lemma cleanup_fold_map (separator : ascii) (its pre : dict) :
  NoDup (keys (pre ++ its)) ->
  fold_left
    (fun env kv => dict_set env (fst kv) (clean_value separator (snd kv)))
    its (pre ++ its)
  = pre ++ map (fun kv => (fst kv, clean_value separator (snd kv))) its.
Proof.
  revert pre. induction its as [|[k v] its IH]; intros pre Hnd; simpl.
  - reflexivity.
  - assert (Hk : ~ In k (keys pre)).
    { unfold keys in *. rewrite map_app in Hnd. simpl in Hnd.
      apply NoDup_remove_2 in Hnd. rewrite in_app_iff in Hnd. tauto. }
    rewrite dict_set_app_new by exact Hk.
    change (pre ++ (k, clean_value separator v) :: its)
      with (pre ++ [(k, clean_value separator v)] ++ its).
    rewrite app_assoc, IH.
    + now rewrite <- app_assoc.
    + unfold keys in *. rewrite <- app_assoc, map_app. simpl.
      rewrite map_app in Hnd. exact Hnd.
Qed.

(** On a dictionary the cleanup loop is a map over the values. *)
Lemma cleanup_env_map (separator : ascii) (env : dict) :
  wf_dict env ->
  cleanup_env separator env
  = map (fun kv => (fst kv, clean_value separator (snd kv))) env.
Proof. intros H. apply (cleanup_fold_map separator env []). exact H. Qed.

(** X9. Under [cleanup] every value that [build] returns is a fixed point
    of the cleaning: its segments are already distinct and non-blank. *)
Theorem build_output_clean (pathsep : ascii) (env out : dict)
  (dynamic_keys allow_cycle allow_key_clash : bool) (k v : string)
  (Hwf : wf_dict env)
  (Hbuild : build pathsep env dynamic_keys allow_cycle allow_key_clash true
            = Ok out)
  (Hin : In (k, v) out) :
  clean_value pathsep v = v.
Proof.
  unfold build in Hbuild.
  destruct (negb (Nat.eqb (List.length
              (cyclic (topological_sort (dependencies env)))) 0)
            && negb allow_cycle); [discriminate|].
  fold (resolve_values env) in Hbuild.
  assert (Hmap : forall d, wf_dict d -> In (k, v) (cleanup_env pathsep d) ->
                           clean_value pathsep v = v).
  { intros d Hd H. rewrite (cleanup_env_map pathsep d Hd) in H.
    apply in_map_iff in H. destruct H as ([k0 v0] & [= <- <-] & _).
    simpl.
    change (Str.join (Str.of_char pathsep)
              (kept pathsep (clean_value pathsep v0))
            = Str.join (Str.of_char pathsep) (kept pathsep v0)).
    now rewrite kept_clean. }
  destruct dynamic_keys.
  - destruct (format_keys allow_key_clash (resolve_values env)
                (resolve_values env) []) as [o|e] eqn:F; [|discriminate].
    injection Hbuild as <-.
    apply (Hmap o); [|exact Hin].
    apply (proj1 (format_keys_get _ _ _ _ _ F)), wf_dict_nil.
  - injection Hbuild as <-.
    apply (Hmap (resolve_values env)); [|exact Hin].
    now apply wf_resolve_values.
Qed.

Lemma build_output_clean_witness : clean_value ";" "/tools/lib" = "/tools/lib".
Proof.
  apply (build_output_clean ";" tools_env
           [("ROOT", "/tools"); ("BIN", "/tools/bin"); ("LIB", "/tools/lib")]
           true false false "LIB" "/tools/lib").
  - repeat constructor; simpl; intuition discriminate.
  - vm_compute. reflexivity.
  - simpl. tauto.
Defined.

(* ================================================================== *)
(** * Full resolution *)

Lemma In_dict_set (d : dict) (k v k' v' : string) :
  In (k', v') (dict_set d k v) -> (k' = k /\ v' = v) \/ In (k', v') d.
Proof.
  induction d as [|[k0 v0] d IH]; simpl.
  - intros [[= <- <-]|[]]. now left.
  - destruct (String.eqb k0 k) eqn:E; simpl.
    + apply String.eqb_eq in E. subst k0.
      intros [[= <- <-]|H]; auto.
    + intros [H|H]; [now right; left|].
      destruct (IH H); auto.
Qed.

Lemma format_value_values (P : string -> Prop) (env : dict) (x : string) :
  wf_dict env ->
  (forall k v, In (k, v) env ->
               well_formed v = true /\ forall n, In n (findall v) -> P n) ->
  forall k v, In (k, v) (format_value env x) ->
              well_formed v = true /\ forall n, In n (findall v) -> P n.
Proof.
  intros Hwf Hall k v. unfold format_value.
  destruct (dict_get env x) as [value|] eqn:G; [|apply (Hall k v)].
  intros H. apply In_dict_set in H.
  destruct H as [[-> ->]|H]; [|now apply (Hall k v)].
  destruct (Hall x value (dict_get_Some_In _ _ _ G)) as [Hv Hholes].
  assert (Hdata : forall h w, dict_get (dict_pop env x) h = Some w ->
                              In (h, w) env).
  { intros h w Hg. rewrite dict_get_pop in Hg by exact Hwf.
    destruct (String.eqb x h); [discriminate|].
    now apply dict_get_Some_In. }
  split.
  - apply partial_format_well_formed; [exact Hv|].
    intros h w _ Hg. now apply (Hall h w), Hdata.
  - intros n Hn. apply partial_format_holes in Hn; [|exact Hv|].
    + destruct Hn as (h & Hh & Hm).
      destruct (dict_get (dict_pop env x) h) as [w|] eqn:Hg.
      * now apply (proj2 (Hall h w (Hdata h w Hg))).
      * subst n. now apply Hholes.
    + intros h w _ Hg. now apply (Hall h w), Hdata.
Qed.

Lemma format_values_values (P : string -> Prop) (order : list string) :
  forall env,
    wf_dict env ->
    (forall k v, In (k, v) env ->
                 well_formed v = true /\ forall n, In n (findall v) -> P n) ->
    forall k v, In (k, v) (format_values order env) ->
                well_formed v = true /\ forall n, In n (findall v) -> P n.
Proof.
  induction order as [|x order IH]; intros env Hwf Hall; simpl;
    [exact Hall|].
  apply IH.
  - unfold wf_dict. now rewrite keys_format_value.
  - now apply format_value_values.
Qed.

Lemma well_formed_plain_brace_free (v : string) :
  well_formed v = true -> findall v = [] -> brace_free v = true.
Proof.
  induction v as [|c s Hc IH|s n r M IH] using tokens_ind.
  - reflexivity.
  - rewrite (well_formed_lit c s Hc), (findall_lit c s Hc).
    intros H Hf. apply andb_true_iff in H. destruct H as [Hb Hs].
    specialize (IH Hs Hf). apply brace_free_spec in IH.
    destruct IH as [Hl Hr]. apply brace_free_spec.
    unfold not_brace in Hb. apply andb_true_iff in Hb.
    destruct Hb as [H1 H2]. apply negb_true_iff in H1, H2.
    simpl. now rewrite H1, H2, Hl, Hr.
  - rewrite (findall_hole s n r M). discriminate.
Qed.

Lemma mem_app (c : ascii) (a b : string) :
  Str.mem c (a ++ b) = Str.mem c a || Str.mem c b.
Proof.
  induction a as [|x a IH]; simpl; [reflexivity|].
  now rewrite IH, orb_assoc.
Qed.

Lemma mem_split (c sep : ascii) (v seg : string) :
  In seg (Str.split sep v) -> Str.mem c seg = true -> Str.mem c v = true.
Proof.
  revert seg. induction v as [|x v IH]; simpl; intros seg H Hm.
  - destruct H as [<-|[]]. discriminate.
  - destruct (Ascii.eqb x sep) eqn:E.
    + destruct H as [<-|H]; [discriminate|].
      rewrite (IH seg H Hm). apply orb_true_r.
    + destruct (Str.split sep v) as [|seg0 segs] eqn:Es.
      * destruct H as [<-|[]]. simpl in Hm. rewrite orb_false_r in Hm.
        now rewrite Hm.
      * destruct H as [<-|H].
        -- simpl in Hm. apply orb_true_iff in Hm. destruct Hm as [Hm|Hm].
           ++ now rewrite Hm.
           ++ rewrite (IH seg0 (or_introl eq_refl) Hm). apply orb_true_r.
        -- rewrite (IH seg (or_intror H) Hm). apply orb_true_r.
Qed.

Lemma mem_join (c sep : ascii) (segs : list string) :
  Str.mem c (Str.join (Str.of_char sep) segs) = true ->
  (c = sep /\ 2 <= List.length segs)
  \/ exists seg, In seg segs /\ Str.mem c seg = true.
Proof.
  induction segs as [|seg segs IH]; [discriminate|].
  destruct segs as [|seg' segs].
  - intros H. right. exists seg. split; [now left | exact H].
  - change (Str.join (Str.of_char sep) (seg :: seg' :: segs))
      with (seg ++ String sep (Str.join (Str.of_char sep) (seg' :: segs)))%string.
    rewrite mem_app. simpl. intros H.
    apply orb_true_iff in H. destruct H as [H|H].
    + right. exists seg. split; [now left | exact H].
    + apply orb_true_iff in H. destruct H as [H|H].
      * left. apply Ascii.eqb_eq in H. split; [now symmetry | simpl; lia].
      * destruct (IH H) as [[-> _]|(s & Hs & Hm)].
        -- left. split; [reflexivity | simpl; lia].
        -- right. exists s. split; [now right | exact Hm].
Qed.

(** The characters of a cleaned value are characters of the value. *)
Lemma mem_clean_value (c separator : ascii) (value : string) :
  Str.mem c (clean_value separator value) = true ->
  Str.mem c value = true.
Proof.
  unfold clean_value. fold (kept separator value). intros H.
  apply mem_join in H. destruct H as [[-> Hlen]|(seg & Hseg & Hm)].
  - destruct (Str.mem separator value) eqn:E; [reflexivity|].
    exfalso. unfold kept in Hlen. rewrite (split_single _ _ E) in Hlen.
    unfold uniqify_ordered in Hlen. simpl in Hlen.
    destruct (Str.nonblank value); simpl in Hlen; lia.
  - apply kept_spec in Hseg. destruct Hseg as [Hseg _].
    now apply mem_split with separator seg.
Qed.

Lemma brace_free_clean_value (separator : ascii) (value : string) :
  brace_free value = true ->
  brace_free (clean_value separator value) = true.
Proof.
  rewrite !brace_free_spec. intros [Hl Hr]. split.
  - destruct (Str.mem Str.lbrace (clean_value separator value)) eqn:E;
      [|reflexivity].
    apply mem_clean_value in E. congruence.
  - destruct (Str.mem Str.rbrace (clean_value separator value)) eqn:E;
      [|reflexivity].
    apply mem_clean_value in E. congruence.
Qed.

(** The values a completed [build] returns are resolved values, cleaned
    under [cleanup]. *)
Lemma build_values (pathsep : ascii) (env out : dict)
  (dynamic_keys allow_cycle allow_key_clash cleanup : bool) (k v : string) :
  wf_dict env ->
  build pathsep env dynamic_keys allow_cycle allow_key_clash cleanup = Ok out ->
  In (k, v) out ->
  exists key' v',
    In (key', v') (resolve_values env)
    /\ v = if cleanup then clean_value pathsep v' else v'.
Proof.
  intros Hwf Hb Hin. unfold build in Hb.
  destruct (negb (Nat.eqb (List.length
              (cyclic (topological_sort (dependencies env)))) 0)
            && negb allow_cycle); [discriminate|].
  fold (resolve_values env) in Hb.
  assert (Hclean : forall d, wf_dict d ->
            In (k, v) (if cleanup then cleanup_env pathsep d else d) ->
            exists v', In (k, v') d
                       /\ v = if cleanup then clean_value pathsep v' else v').
  { intros d Hd H. destruct cleanup; [|eauto].
    rewrite (cleanup_env_map pathsep d Hd) in H.
    apply in_map_iff in H. destruct H as ([k0 v0] & [= <- <-] & H).
    eauto. }
  destruct dynamic_keys.
  - destruct (format_keys allow_key_clash (resolve_values env)
                (resolve_values env) []) as [o|e] eqn:F; [|discriminate].
    injection Hb as <-.
    destruct (format_keys_get _ _ _ _ _ F) as [Hwfo Hget].
    destruct (Hclean o (Hwfo wf_dict_nil) Hin) as (v' & Hv' & ->).
    apply (dict_get_In_pair o k v' (Hwfo wf_dict_nil)) in Hv'.
    rewrite Hget in Hv'.
    destruct (last_produced (resolve_values env) (resolve_values env) k)
      as [w|] eqn:L; [|discriminate].
    injection Hv' as ->.
    destruct (last_produced_Some _ _ _ _ L) as (key' & Hk & _).
    eauto.
  - injection Hb as <-.
    destruct (Hclean (resolve_values env) (wf_resolve_values env Hwf) Hin)
      as (v' & Hv' & ->).
    eauto.
Qed.

Section Closed.

Variable env : dict.
Hypothesis Hwf : wf_dict env.
Hypothesis Hvals : forall k v, In (k, v) env -> well_formed v = true.
Hypothesis Hacyc : acyclic (dependencies env).
Hypothesis Hclosed : closed_env env.

Lemma resolve_values_brace_free (k v : string) :
  In (k, v) (resolve_values env) -> brace_free v = true.
Proof.
  intros Hin.
  assert (Hg : dict_get (resolve_values env) k = Some v).
  { apply dict_get_In_pair; [now apply wf_resolve_values | exact Hin]. }
  destruct (resolve_values_resolved env Hwf Hvals Hacyc k v Hg)
    as [Hwfv Hunres].
  assert (Horigin : forall n, In n (findall v) -> referenced env n).
  { rewrite resolve_values_app in Hin.
    apply (format_values_values (referenced env) _ env Hwf) in Hin.
    - apply Hin.
    - intros k0 v0 H0. split; [now apply (Hvals k0)|].
      intros n Hn. now exists k0, v0. }
  apply well_formed_plain_brace_free; [exact Hwfv|].
  destruct (findall v) as [|n ns] eqn:E; [reflexivity|]. exfalso.
  assert (Hn : In n (findall v)) by (rewrite E; now left).
  rewrite <- E in *.
  destruct (Horigin n Hn) as (k0 & v0 & H0 & Hn0).
  destruct (Hclosed k0 v0 n H0 Hn0) as [Hkey _].
  destruct (Hunres n Hn) as [Habs | (vn & Gn & Hself)]; [tauto|].
  apply dict_get_Some_In in Gn.
  destruct (Hclosed n vn n Gn Hself) as [_ Hne]. congruence.
Qed.

End Closed.

Lemma build_values_brace_free (pathsep : ascii) (env out : dict)
  (dynamic_keys allow_cycle allow_key_clash cleanup : bool) (k v : string) :
  wf_dict env ->
  (forall k v, In (k, v) env -> well_formed v = true) ->
  acyclic (dependencies env) ->
  closed_env env ->
  build pathsep env dynamic_keys allow_cycle allow_key_clash cleanup = Ok out ->
  In (k, v) out ->
  brace_free v = true /\ findall v = [].
Proof.
  intros Hwf Hvals Hacyc Hclosed Hbuild Hin.
  destruct (build_values pathsep env out dynamic_keys allow_cycle
              allow_key_clash cleanup k v Hwf Hbuild Hin)
    as (key' & v' & Hv' & ->).
  pose proof (resolve_values_brace_free env Hwf Hvals Hacyc Hclosed key' v' Hv')
    as Hbf.
  assert (H : brace_free (if cleanup then clean_value pathsep v' else v')
              = true).
  { destruct cleanup; [now apply brace_free_clean_value | exact Hbf]. }
  split; [exact H|]. apply findall_no_rbrace.
  now apply brace_free_spec in H.
Qed.

(** X10. Full resolution: when the dependency graph is acyclic, the values
    are well-formed templates and every placeholder names another key of
    the environment, no value that a completed [build] returns holds a
    brace; every placeholder has been substituted, whatever the flags. *)
Theorem build_fully_resolves (pathsep : ascii) (env out : dict)
  (dynamic_keys allow_cycle allow_key_clash cleanup : bool) (k v : string)
  (Hwf : wf_dict env)
  (Hvals : forall k v, In (k, v) env -> well_formed v = true)
  (Hacyc : acyclic (dependencies env))
  (Hclosed : closed_env env)
  (Hbuild : build pathsep env dynamic_keys allow_cycle allow_key_clash
              cleanup = Ok out)
  (Hin : In (k, v) out) :
  brace_free v = true /\ findall v = [].
Proof.
  now apply (build_values_brace_free pathsep env out dynamic_keys allow_cycle
               allow_key_clash cleanup k v).
Qed.

Lemma chain_env_closed : closed_env chain_env.
Proof.
  intros k v name [[= <- <-]|[[= <- <-]|[[= <- <-]|[]]]] Hn;
    vm_compute in Hn.
  - destruct Hn as [<-|[]]. split; [simpl; tauto | discriminate].
  - destruct Hn as [<-|[]]. split; [simpl; tauto | discriminate].
  - destruct Hn.
Defined.

Lemma chain_env_wf : wf_dict chain_env.
Proof. repeat constructor; simpl; intuition discriminate. Defined.

Lemma build_fully_resolves_witness :
  brace_free "/c/b/a" = true /\ findall "/c/b/a" = [].
Proof.
  apply (build_fully_resolves ":" chain_env
           [("A", "/c/b/a"); ("B", "/c/b"); ("C", "/c")]
           true false false true "A" "/c/b/a").
  - exact chain_env_wf.
  - exact chain_env_well_formed.
  - exact chain_env_acyclic.
  - exact chain_env_closed.
  - vm_compute. reflexivity.
  - simpl. tauto.
Defined.

Lemma dependencies_plain (d : dict) :
  (forall k v, In (k, v) d -> findall v = []) -> dependencies d = [].
Proof.
  induction d as [|[k v] d IH]; intros H; [reflexivity|].
  unfold dependencies in *. simpl. unfold dependencies_of at 1. simpl.
  rewrite (H k v (or_introl eq_refl)). simpl. apply IH.
  intros k' v' H'. apply (H k' v'). now right.
Qed.

(** On values without placeholders [build] has nothing to format. *)
Lemma build_plain (pathsep : ascii) (d : dict)
  (allow_cycle allow_key_clash cleanup : bool) :
  (forall k v, In (k, v) d -> findall v = []) ->
  build pathsep d false allow_cycle allow_key_clash cleanup
  = Ok (if cleanup then cleanup_env pathsep d else d).
Proof.
  intros H. unfold build. rewrite (dependencies_plain d H). reflexivity.
Qed.

Lemma clean_value_twice (separator : ascii) (value : string) :
  clean_value separator (clean_value separator value)
  = clean_value separator value.
Proof.
  change (Str.join (Str.of_char separator)
            (kept separator (clean_value separator value))
          = Str.join (Str.of_char separator) (kept separator value)).
  now rewrite kept_clean.
Qed.

Lemma cleanup_env_twice (separator : ascii) (d : dict) :
  wf_dict d ->
  cleanup_env separator (cleanup_env separator d) = cleanup_env separator d.
Proof.
  intros Hd.
  assert (Hd' : wf_dict (cleanup_env separator d)).
  { unfold wf_dict. now rewrite keys_cleanup_env. }
  rewrite (cleanup_env_map separator _ Hd').
  rewrite (cleanup_env_map separator d Hd), map_map. simpl.
  apply map_ext. intros [k v]. simpl. now rewrite clean_value_twice.
Qed.

(** X11. On an acyclic environment of well-formed templates in which
    every placeholder names another key, [build] with [dynamic_keys] off
    is idempotent: building its result again returns the same result. *)
Theorem build_idempotent (pathsep : ascii) (env out : dict)
  (allow_cycle allow_key_clash cleanup : bool)
  (Hwf : wf_dict env)
  (Hvals : forall k v, In (k, v) env -> well_formed v = true)
  (Hacyc : acyclic (dependencies env))
  (Hclosed : closed_env env)
  (Hbuild : build pathsep env false allow_cycle allow_key_clash cleanup
            = Ok out) :
  build pathsep out false allow_cycle allow_key_clash cleanup = Ok out.
Proof.
  rewrite build_plain.
  - destruct cleanup; [|reflexivity].
    unfold build in Hbuild.
    destruct (negb (Nat.eqb (List.length
                (cyclic (topological_sort (dependencies env)))) 0)
              && negb allow_cycle); [discriminate|].
    fold (resolve_values env) in Hbuild. injection Hbuild as <-.
    f_equal. apply cleanup_env_twice. now apply wf_resolve_values.
  - intros k v Hin.
    now destruct (build_values_brace_free pathsep env out false allow_cycle
                    allow_key_clash cleanup k v Hwf Hvals Hacyc Hclosed
                    Hbuild Hin).
Qed.

Lemma build_idempotent_witness :
  build ":" [("A", "/c/b/a"); ("B", "/c/b"); ("C", "/c")] false false false
    true
  = Ok [("A", "/c/b/a"); ("B", "/c/b"); ("C", "/c")].
Proof.
  apply (build_idempotent ":" chain_env _ false false true).
  - exact chain_env_wf.
  - exact chain_env_well_formed.
  - exact chain_env_acyclic.
  - exact chain_env_closed.
  - vm_compute. reflexivity.
Defined.

(* ================================================================== *)
(** * Further properties on the store *)

Lemma run_build_tail_ref (pathsep : ascii) (e : Heap.ref)
  (dynamic_keys allow_key_clash cleanup : bool) (st st' : Heap.store)
  (out : Heap.ref) :
  e < List.length st ->
  Heap.bind
    (if dynamic_keys then
       Heap.bind Heap.new_dict (fun formatted =>
       Heap.bind (Heap.items e) (fun its =>
       Heap.bind
         (Heap.for_each its (Heap.key_step allow_key_clash e formatted))
         (fun _ => Heap.ret formatted)))
     else Heap.ret e)
    (fun env =>
       Heap.bind
         (if cleanup then
            Heap.bind (Heap.items env) (fun its =>
              Heap.for_each its (Heap.clean_step pathsep env))
          else Heap.ret tt)
         (fun _ => Heap.ret env)) st = (Ok out, st') ->
  (out = e \/ out = List.length st) /\ out < List.length st'.
Proof.
  intros He.
  assert (Hclean : forall f st0 out0 st0',
            f < List.length st0 ->
            Heap.bind
              (if cleanup then
                 Heap.bind (Heap.items f) (fun its =>
                   Heap.for_each its (Heap.clean_step pathsep f))
               else Heap.ret tt)
              (fun _ => Heap.ret f) st0 = (Ok out0, st0') ->
            out0 = f /\ f < List.length st0').
  { intros f st0 out0 st0' Hf. destruct cleanup.
    - destruct (run_clean_loop 0 pathsep f (nth f st0 []) st0)
        as (st1 & R & _ & K); [lia | exact Hf |].
      rewrite (bind_Ok _ _ st0 st1 tt)
        by now rewrite (bind_Ok _ _ st0 st0 (nth f st0 [])).
      intros [= <- <-]. split; [reflexivity|]. destruct K. lia.
    - intros [= <- <-]. auto. }
  destruct dynamic_keys.
  - set (st1 := st ++ [[]]).
    assert (Ee : nth e st1 [] = nth e st []) by now apply nth_alloc_old.
    destruct (run_key_loop 0 allow_key_clash e (List.length st)
                (nth e st []) st1) as (st2 & K2 & _ & R2).
    { lia. }
    { unfold st1. rewrite length_app. simpl. lia. }
    { lia. }
    rewrite Ee in R2.
    assert (L2 : List.length st < List.length st2).
    { destruct K2 as [L _]. unfold st1 in L. rewrite length_app in L.
      simpl in L. lia. }
    destruct (format_keys allow_key_clash (nth e st []) (nth e st [])
                (nth (List.length st) st1 [])) as [o|err].
    + destruct R2 as [R2 _].
      rewrite (bind_Ok _ _ st st2 (List.length st)).
      * cbv beta. intros H. apply Hclean in H; [|exact L2].
        destruct H as [-> H]. auto.
      * rewrite (bind_Ok _ _ st st1 (List.length st)) by reflexivity.
        rewrite (bind_Ok _ _ st1 st1 (nth e st []))
          by (unfold Heap.items, Heap.read; now rewrite Ee).
        now rewrite (bind_Ok _ _ st1 st2 tt).
    + rewrite (bind_Raise _ _ st st2 err); [discriminate|].
      rewrite (bind_Ok _ _ st st1 (List.length st)) by reflexivity.
      rewrite (bind_Ok _ _ st1 st1 (nth e st []))
        by (unfold Heap.items, Heap.read; now rewrite Ee).
      now rewrite (bind_Raise _ _ st1 st2 err).
  - rewrite (bind_Ok _ _ st st e) by reflexivity. cbv beta.
    intros H. apply Hclean in H; [|exact He]. destruct H as [-> H]. auto.
Qed.

(** X12. The dictionary that [build] returns is a new object: its
    reference lies beyond every object the caller held, so it is neither
    the input nor any other dictionary of the caller. *)
Theorem build_returns_new_object (pathsep : ascii) (env : Heap.ref)
  (dynamic_keys allow_cycle allow_key_clash cleanup : bool)
  (st st' : Heap.store) (out : Heap.ref)
  (Henv : env < List.length st)
  (Hbuild : Heap.build pathsep env dynamic_keys allow_cycle allow_key_clash
              cleanup st = (Ok out, st')) :
  List.length st <= out /\ out < List.length st' /\ out <> env.
Proof.
  revert Hbuild. unfold Heap.build.
  set (d0 := nth env st []). set (e := List.length st).
  set (st1 := st ++ [d0]).
  assert (E1 : nth e st1 [] = d0) by apply nth_alloc_new.
  assert (L1 : e < List.length st1).
  { unfold st1. rewrite length_app. simpl. unfold e. lia. }
  rewrite (bind_Ok _ _ st st1 e) by reflexivity. cbv beta.
  rewrite (bind_Ok _ _ st1 st1 d0)
    by (unfold Heap.items, Heap.read; now rewrite E1).
  cbv beta zeta. fold (dependencies d0).
  destruct (negb (Nat.eqb (List.length
              (cyclic (topological_sort (dependencies d0)))) 0)
            && negb allow_cycle).
  - rewrite (bind_Raise _ _ st1 st1
               (CycleError (cyclic (topological_sort (dependencies d0)))))
      by reflexivity.
    discriminate.
  - rewrite (bind_Ok _ _ st1 st1 tt) by reflexivity. cbv beta.
    destruct (run_format_loop e e
                (rev (sorted (topological_sort (dependencies d0)))) st1)
      as (st2 & R2 & _ & K2); [lia | exact L1 |].
    rewrite (bind_Ok _ _ st1 st2 tt) by exact R2. cbv beta.
    assert (L2 : e < List.length st2) by (destruct K2; lia).
    destruct (run_format_loop e e
                (cyclic (topological_sort (dependencies d0))) st2)
      as (st3 & R3 & _ & K3); [lia | exact L2 |].
    rewrite (bind_Ok _ _ st2 st3 tt) by exact R3. cbv beta.
    assert (L3 : e < List.length st3) by (destruct K3; lia).
    intros H. apply run_build_tail_ref in H; [|exact L3].
    destruct H as [[-> | ->] H]; unfold e in *; lia.
Qed.

Lemma build_returns_new_object_witness :
  List.length [tools_env] <= 1
  /\ 1 < List.length (snd (Heap.build ";" 0 false false false false
                             [tools_env]))
  /\ 1 <> 0.
Proof.
  apply (build_returns_new_object ";" 0 false false false false [tools_env]).
  - simpl. lia.
  - vm_compute. reflexivity.
Defined.

Lemma run_merge_step (cur res : Heap.ref) (kv : string * string)
  (st : Heap.store) :
  merge_step cur res kv st
  = (Ok tt,
     Heap.upd res
       (dict_set (nth res st []) (fst kv)
          (partial_format (snd kv) (nth cur st []) (Some EmptyString)))
       st).
Proof. reflexivity. Qed.

Lemma run_merge_loop (n : nat) (cur res : Heap.ref) (its : dict) :
  forall st,
    n <= res -> res < List.length st -> cur <> res ->
    exists st',
      Heap.for_each its (merge_step cur res) st = (Ok tt, st')
      /\ nth res st' []
         = fold_left
             (fun result kv =>
                dict_set result (fst kv)
                  (partial_format (snd kv) (nth cur st [])
                     (Some EmptyString)))
             its (nth res st [])
      /\ keeps n st st'.
Proof.
  induction its as [|kv its IH]; intros st Hn Hres Hne.
  - exists st. split; [reflexivity|]. split; [reflexivity|apply keeps_refl].
  - set (st1 := Heap.upd res
                  (dict_set (nth res st []) (fst kv)
                     (partial_format (snd kv) (nth cur st [])
                        (Some EmptyString))) st).
    destruct (IH st1 Hn) as (st2 & R2 & V2 & K2).
    { unfold st1. now rewrite length_upd. }
    { exact Hne. }
    assert (Ec : nth cur st1 [] = nth cur st []).
    { unfold st1. now apply nth_upd_other. }
    assert (Er : nth res st1 []
                 = dict_set (nth res st []) (fst kv)
                     (partial_format (snd kv) (nth cur st [])
                        (Some EmptyString))).
    { unfold st1. now apply nth_upd_same. }
    rewrite Ec, Er in V2. exists st2. split; [|split].
    + cbn [Heap.for_each]. unfold Heap.bind. rewrite run_merge_step.
      exact R2.
    + exact V2.
    + apply keeps_trans with st1; [|exact K2]. now apply keeps_upd.
Qed.

(** X13. [merge] on the store returns a new dictionary holding the merge
    of the two inputs, and mutates neither of them nor any other
    dictionary of the caller. *)
Theorem merge_never_mutates (env current_env : Heap.ref) (st : Heap.store)
  (Henv : env < List.length st) (Hcur : current_env < List.length st) :
  Heap.outcome (merge_in env current_env st)
    = Ok (merge (nth env st []) (nth current_env st []))
  /\ fst (merge_in env current_env st) = Ok (List.length st)
  /\ forall q, q < List.length st ->
               nth q (snd (merge_in env current_env st)) [] = nth q st [].
Proof.
  unfold merge_in.
  set (c0 := nth current_env st []). set (res := List.length st).
  set (st1 := st ++ [c0]).
  assert (K1 : keeps res st st1) by (apply keeps_alloc; unfold res; lia).
  assert (Er : nth res st1 [] = c0) by apply nth_alloc_new.
  assert (Ec : nth current_env st1 [] = c0) by now apply nth_alloc_old.
  assert (Ee : nth env st1 [] = nth env st []) by now apply nth_alloc_old.
  destruct (run_merge_loop res current_env res (nth env st []) st1)
    as (st2 & R2 & V2 & K2).
  { lia. }
  { unfold st1. rewrite length_app. simpl. unfold res. lia. }
  { unfold res. lia. }
  rewrite Ec, Er in V2.
  rewrite (bind_Ok _ _ st st1 res) by reflexivity. cbv beta.
  rewrite (bind_Ok _ _ st1 st1 (nth env st []))
    by (unfold Heap.items, Heap.read; now rewrite Ee).
  cbv beta. rewrite (bind_Ok _ _ st1 st2 tt) by exact R2. cbv beta.
  split; [|split].
  - simpl. now rewrite V2.
  - reflexivity.
  - intros q Hq. simpl.
    destruct K1 as [_ K1], K2 as [_ K2]. now rewrite K2, K1.
Qed.

Lemma merge_never_mutates_witness :
  Heap.outcome (merge_in 0 1 [tools_env; clash_env])
    = Ok (merge (nth 0 [tools_env; clash_env] [])
            (nth 1 [tools_env; clash_env] []))
  /\ fst (merge_in 0 1 [tools_env; clash_env])
     = Ok (List.length [tools_env; clash_env])
  /\ forall q, q < List.length [tools_env; clash_env] ->
               nth q (snd (merge_in 0 1 [tools_env; clash_env])) []
               = nth q [tools_env; clash_env] [].
Proof.
  apply (merge_never_mutates 0 1 [tools_env; clash_env]); simpl; lia.
Defined.

(* ================================================================== *)
(** * Properties of [merge] *)

Lemma merge_fold_get (current_env its result : dict) (k : string) :
  NoDup (keys its) ->
  dict_get
    (fold_left
       (fun result kv =>
          dict_set result (fst kv)
            (partial_format (snd kv) current_env (Some EmptyString)))
       its result) k
  = match dict_get its k with
    | Some v => Some (partial_format v current_env (Some EmptyString))
    | None => dict_get result k
    end.
Proof.
  revert result. induction its as [|[k0 v0] its IH]; intros result Hnd.
  - reflexivity.
  - simpl. inversion Hnd as [|? ? Hk0 Hnd']; subst.
    rewrite (IH _ Hnd'), dict_get_set.
    destruct (String.eqb k0 k) eqn:E; [|reflexivity].
    apply String.eqb_eq in E. subst k0.
    destruct (dict_get its k) eqn:G; [|reflexivity].
    exfalso. apply Hk0. apply dict_get_In. congruence.
Qed.

(** X14. [merge] overlays the tool environment on the current one: a key
    of [env] is mapped to its value formatted against the current
    environment, with the empty string for what is missing there; every
    other key keeps the value of the current environment. *)
Theorem merge_lookup (env current_env : dict) (k : string)
  (Hwf : wf_dict env) :
  dict_get (merge env current_env) k
  = match dict_get env k with
    | Some v => Some (partial_format v current_env (Some EmptyString))
    | None => dict_get current_env k
    end.
Proof. now apply merge_fold_get. Qed.

Lemma merge_lookup_witness :
  dict_get (merge tools_env [("ROOT", "/live"); ("HOME", "/root")]) "HOME"
  = match dict_get tools_env "HOME" with
    | Some v => Some (partial_format v [("ROOT", "/live"); ("HOME", "/root")]
                        (Some EmptyString))
    | None => dict_get [("ROOT", "/live"); ("HOME", "/root")] "HOME"
    end.
Proof.
  apply (merge_lookup tools_env [("ROOT", "/live"); ("HOME", "/root")] "HOME").
  repeat constructor; simpl; intuition discriminate.
Defined.

Lemma dict_mem_mem_str (d : dict) (k : string) :
  dict_mem d k = mem_str k (keys d).
Proof.
  destruct (dict_mem d k) eqn:E; symmetry.
  - apply mem_str_In. now apply dict_mem_In.
  - apply mem_str_not_In. rewrite <- dict_mem_In. congruence.
Qed.

Lemma merge_fold_keys (current_env its result : dict) :
  keys
    (fold_left
       (fun result kv =>
          dict_set result (fst kv)
            (partial_format (snd kv) current_env (Some EmptyString)))
       its result)
  = add_all (keys result) (keys its).
Proof.
  revert result. induction its as [|[k v] its IH]; intros result; simpl;
    [reflexivity|].
  rewrite IH, keys_dict_set, dict_mem_mem_str.
  now destruct (mem_str k (keys result)).
Qed.

(** X15. The keys of a merge are the keys of the current environment, in
    place, followed by the keys of the tool environment that are new, in
    the order of the tool environment. *)
Theorem merge_keys (env current_env : dict) :
  keys (merge env current_env) = add_all (keys current_env) (keys env).
Proof. apply merge_fold_keys. Qed.

Lemma brace_free_app (a b : string) :
  brace_free (a ++ b) = brace_free a && brace_free b.
Proof.
  unfold brace_free. rewrite !mem_app.
  destruct (Str.mem Str.lbrace a), (Str.mem Str.rbrace a),
    (Str.mem Str.lbrace b), (Str.mem Str.rbrace b); reflexivity.
Qed.

Lemma partial_format_missing_brace_free (data : dict) (s : string) :
  well_formed s = true ->
  (forall n w, dict_get data n = Some w -> brace_free w = true) ->
  brace_free (partial_format s data (Some EmptyString)) = true.
Proof.
  intros Hwf Hdata. revert Hwf.
  induction s as [|c s Hc IH|s n r M IH] using tokens_ind.
  - reflexivity.
  - rewrite (well_formed_lit c s Hc).
    rewrite (partial_format_lit c s data (Some EmptyString) Hc).
    intros H. apply andb_true_iff in H. destruct H as [Hb Hs].
    change (String c (partial_format s data (Some "")))
      with (String c "" ++ partial_format s data (Some ""))%string.
    rewrite brace_free_app, (IH Hs), andb_true_r.
    unfold not_brace in Hb. apply andb_true_iff in Hb.
    destruct Hb as [H1 H2]. apply negb_true_iff in H1, H2.
    unfold brace_free. simpl. now rewrite H1, H2.
  - rewrite (well_formed_hole s n r M).
    rewrite (partial_format_hole s n r data (Some EmptyString) M).
    intros H. apply andb_true_iff in H. destruct H as [_ Hr].
    rewrite brace_free_app, (IH Hr), andb_true_r. simpl.
    destruct (dict_get data n) as [w|] eqn:G; [|reflexivity].
    now apply (Hdata n w).
Qed.

(** X16. After [merge] nothing is left to substitute: when a value of the
    tool environment is a well-formed template and no value of the current
    environment holds a brace, the merged value holds no brace; the
    placeholders missing from the current environment have become the
    empty string. *)
Theorem merge_leaves_no_placeholder (env current_env : dict)
  (k v : string)
  (Hwf : wf_dict env)
  (Hget : dict_get env k = Some v)
  (Hv : well_formed v = true)
  (Hcur : forall n w, dict_get current_env n = Some w ->
                      brace_free w = true) :
  exists v',
    dict_get (merge env current_env) k = Some v'
    /\ brace_free v' = true /\ findall v' = [].
Proof.
  exists (partial_format v current_env (Some EmptyString)).
  pose proof (partial_format_missing_brace_free current_env v Hv Hcur) as Hbf.
  split; [|split; [exact Hbf|]].
  - unfold merge. rewrite merge_fold_get by exact Hwf. now rewrite Hget.
  - apply findall_no_rbrace. now apply brace_free_spec in Hbf.
Qed.

Lemma merge_leaves_no_placeholder_witness :
  exists v',
    dict_get (merge [("PATH", "{PATH};/tools/{NOPE}bin")]
                [("PATH", "/usr/bin")]) "PATH" = Some v'
    /\ brace_free v' = true /\ findall v' = [].
Proof.
  apply (merge_leaves_no_placeholder [("PATH", "{PATH};/tools/{NOPE}bin")]
           [("PATH", "/usr/bin")] "PATH" "{PATH};/tools/{NOPE}bin").
  - repeat constructor; simpl; intuition discriminate.
  - reflexivity.
  - reflexivity.
  - intros n w H. cbn [dict_get] in H.
    destruct (String.eqb "PATH" n); [|discriminate].
    injection H as <-. reflexivity.
Defined.

(* ================================================================== *)
(** * Properties of [prepare] and [join] *)

Lemma assoc_lookup_supported (p : string) :
  assoc lookup p <> None <-> In p ["windows"; "linux"; "darwin"].
Proof.
  unfold lookup. cbn [assoc In].
  destruct (String.eqb "windows" p) eqn:E1.
  { apply String.eqb_eq in E1. split; [auto | intros _; discriminate]. }
  destruct (String.eqb "linux" p) eqn:E2.
  { apply String.eqb_eq in E2. split; [auto | intros _; discriminate]. }
  destruct (String.eqb "darwin" p) eqn:E3.
  { apply String.eqb_eq in E3. split; [auto | intros _; discriminate]. }
  apply String.eqb_neq in E1, E2, E3.
  split; [congruence | intros [H|[H|[H|[]]]]; congruence].
Qed.

(** X17. [prepare] raises (a [KeyError]) exactly when the platform it
    works for is none of windows, linux and darwin, whatever the
    environment, the empty one included; a missing or empty
    [platform_name] stands for [PLATFORM]. *)
Theorem prepare_raises_iff (PLATFORM : string)
  (env : list (string * raw_value)) (platform_name : option string) :
  (exists e, prepare PLATFORM env platform_name = Raise e)
  <-> ~ In (effective_platform PLATFORM platform_name)
          ["windows"; "linux"; "darwin"].
Proof.
  rewrite <- assoc_lookup_supported. unfold prepare.
  fold (effective_platform PLATFORM platform_name).
  destruct (assoc lookup (effective_platform PLATFORM platform_name)).
  - split; [intros [e H]; discriminate | intros H; exfalso; apply H].
    discriminate.
  - split; [intros _ H; now apply H | intros _; eauto].
Qed.

Lemma prepare_fold_get (p : string) (its : list (string * raw_value))
  (result : dict) (variable : string) :
  NoDup (map fst its) ->
  dict_get (fold_left (prepare_item p) its result) variable
  = match assoc its variable with
    | Some raw =>
        if truthy (select_value p raw)
        then Some (flatten_value (select_value p raw))
        else dict_get result variable
    | None => dict_get result variable
    end.
Proof.
  revert result. induction its as [|[k0 raw0] its IH]; intros result Hnd.
  - reflexivity.
  - simpl. inversion Hnd as [|? ? Hk0 Hnd']; subst.
    rewrite (IH _ Hnd').
    assert (Hnone : String.eqb k0 variable = true -> assoc its variable = None).
    { intros E. apply String.eqb_eq in E. subst k0.
      destruct (assoc its variable) eqn:G; [|reflexivity].
      exfalso. apply Hk0. clear - G.
      induction its as [|[k1 r1] its IH]; simpl in *; [discriminate|].
      destruct (String.eqb k1 variable) eqn:E.
      - apply String.eqb_eq in E. now left.
      - right. now apply IH. }
    unfold prepare_item at 1 2. cbn [fst snd].
    fold (select_value p raw0).
    destruct (String.eqb k0 variable) eqn:E.
    + rewrite (Hnone eq_refl).
      destruct (truthy (select_value p raw0)) eqn:T; simpl.
      * rewrite dict_get_set. apply String.eqb_eq in E. subst k0.
        rewrite String.eqb_refl. reflexivity.
      * reflexivity.
    + destruct (truthy (select_value p raw0)) eqn:T; simpl.
      * destruct (assoc its variable) as [raw|].
        -- destruct (truthy (select_value p raw)); [reflexivity|].
           now rewrite dict_get_set, E.
        -- now rewrite dict_get_set, E.
      * reflexivity.
Qed.

(** X18. On a supported platform [prepare] returns, for each variable, the
    value selected for that platform (the per-platform entry, or the flat
    value), a list joined with [;]; a variable whose selected value is
    empty, or that has no entry for the platform, is left out. *)
Theorem prepare_lookup (PLATFORM : string)
  (env : list (string * raw_value)) (p variable : string)
  (Hnd : NoDup (map fst env))
  (Hp : In p ["windows"; "linux"; "darwin"]) :
  exists out,
    prepare PLATFORM env (Some p) = Ok out
    /\ dict_get out variable
       = match assoc env variable with
         | Some raw =>
             if truthy (select_value p raw)
             then Some (flatten_value (select_value p raw))
             else None
         | None => None
         end.
Proof.
  assert (Hne : effective_platform PLATFORM (Some p) = p).
  { destruct Hp as [<-|[<-|[<-|[]]]]; reflexivity. }
  unfold prepare. fold (effective_platform PLATFORM (Some p)). rewrite Hne.
  apply assoc_lookup_supported in Hp.
  destruct (assoc lookup p); [|congruence].
  eexists. split; [reflexivity|].
  rewrite prepare_fold_get by exact Hnd. simpl.
  destruct (assoc env variable) as [raw|]; [|reflexivity].
  now destruct (truthy (select_value p raw)).
Qed.

Lemma prepare_lookup_witness :
  exists out,
    prepare "linux"
      [("A", PerPlatform [("windows", VStr "w")]);
       ("B", PerPlatform [("windows", VStr "w"); ("darwin", VList ["x"; "y"])])]
      (Some "darwin") = Ok out
    /\ dict_get out "B"
       = match assoc
                 [("A", PerPlatform [("windows", VStr "w")]);
                  ("B", PerPlatform [("windows", VStr "w");
                                     ("darwin", VList ["x"; "y"])])] "B" with
         | Some raw =>
             if truthy (select_value "darwin" raw)
             then Some (flatten_value (select_value "darwin" raw))
             else None
         | None => None
         end.
Proof.
  apply (prepare_lookup "linux"
           [("A", PerPlatform [("windows", VStr "w")]);
            ("B", PerPlatform [("windows", VStr "w");
                               ("darwin", VList ["x"; "y"])])]
           "darwin" "B").
  - repeat constructor; simpl; intuition discriminate.
  - simpl. tauto.
Defined.

Lemma fold_left_flat_map {A B C : Type} (f : A -> C -> A) (g : B -> list C)
  (l : list B) (a : A) :
  fold_left f (flat_map g l) a
  = fold_left (fun a b => fold_left f (g b) a) l a.
Proof.
  revert a. induction l as [|b l IH]; intros a; simpl; [reflexivity|].
  now rewrite fold_left_app, IH.
Qed.

Lemma fold_left_map_fused {A B C : Type} (f : A -> C -> A) (g : B -> C)
  (l : list B) (a : A) :
  fold_left f (map g l) a = fold_left (fun a b => f a (g b)) l a.
Proof.
  revert a. induction l as [|b l IH]; intros a; simpl; [reflexivity|].
  apply IH.
Qed.

(** X19. [join] hands [lib.append_path] the paths of the second
    environment one by one, in order, each under the variable it came
    from; it never hands over an empty path nor one that holds a [;]. *)
Theorem join_calls_spec
  (append_path : dict -> string -> string -> dict) (env env_b : dict) :
  join append_path env env_b
  = fold_left (fun env call => append_path env (fst call) (snd call))
      (join_calls env_b) env
  /\ forall variable path,
       In (variable, path) (join_calls env_b) ->
       path <> "" /\ Str.mem ";" path = false
       /\ exists value, In (variable, value) env_b
                        /\ In path (Str.split ";" value).
Proof.
  split.
  - unfold join, join_calls. rewrite fold_left_flat_map.
    apply fold_left_ext. intros e kv. rewrite join_paths_filter.
    now rewrite fold_left_map_fused.
  - intros variable path H. unfold join_calls in H.
    apply in_flat_map in H. destruct H as ([k v] & Hkv & H).
    apply in_map_iff in H. destruct H as (p & [= <- <-] & Hp).
    apply filter_In in Hp. destruct Hp as [Hp Hne]. simpl in *.
    split; [intros ->; discriminate|].
    split; [now apply split_no_sep in Hp|].
    now exists v.
Qed.

(* ================================================================== *)
(** * Properties of [locate] *)

Section LocateFacts.

Variable pathsep : ascii.
Variable is_exe : string -> bool.
Variable path_join : string -> string -> string.
Variable os_getenv : string -> option string.

Lemma locate_in_find (program path : string) (exts : list string) :
  locate_in is_exe path_join program path exts
  = find is_exe (map (candidate path_join program path) exts).
Proof.
  induction exts as [|ext exts IH]; simpl; [reflexivity|].
  now rewrite IH.
Qed.

Lemma find_app {A : Type} (f : A -> bool) (l1 l2 : list A) :
  find f (l1 ++ l2)
  = match find f l1 with Some x => Some x | None => find f l2 end.
Proof.
  induction l1 as [|a l1 IH]; simpl; [reflexivity|].
  now destruct (f a).
Qed.

Lemma locate_paths_find (program : string) (paths exts : list string) :
  locate_paths is_exe path_join program paths exts
  = find is_exe (candidates path_join program paths exts).
Proof.
  induction paths as [|path paths IH]; simpl; [reflexivity|].
  now rewrite find_app, locate_in_find, IH.
Qed.

Lemma locate_eq (program : string) (env : dict) (path_value : string) :
  dict_get env "PATH" = Some path_value ->
  locate pathsep is_exe path_join os_getenv program env
  = Ok (find is_exe
          (candidates path_join program (Str.split pathsep path_value)
             (Str.split pathsep (path_extensions os_getenv env)))).
Proof.
  intros H. unfold locate. rewrite H.
  fold (path_extensions os_getenv env). now rewrite locate_paths_find.
Qed.

End LocateFacts.

(** X20. What [locate] returns is executable and is one of its
    candidates: a directory of [PATH], stripped of double quotes, joined
    with the program name followed by one of the extensions in lower
    case. *)
Theorem locate_sound (pathsep : ascii) (is_exe : string -> bool)
  (path_join : string -> string -> string)
  (os_getenv : string -> option string)
  (program : string) (env : dict) (abspath : string)
  (Hlocate : locate pathsep is_exe path_join os_getenv program env
             = Ok (Some abspath)) :
  is_exe abspath = true
  /\ exists path_value path ext,
       dict_get env "PATH" = Some path_value
       /\ In path (Str.split pathsep path_value)
       /\ In ext (Str.split pathsep (path_extensions os_getenv env))
       /\ abspath
          = path_join (strip_char dquote path) (program ++ lower ext)%string.
Proof.
  destruct (dict_get env "PATH") as [pv|] eqn:G.
  - rewrite (locate_eq pathsep is_exe path_join os_getenv program env pv G)
      in Hlocate.
    injection Hlocate as H. apply find_some in H. destruct H as [Hin Hexe].
    split; [exact Hexe|].
    unfold candidates in Hin. apply in_flat_map in Hin.
    destruct Hin as (path & Hpath & Hin). apply in_map_iff in Hin.
    destruct Hin as (ext & <- & Hext).
    exists pv, path, ext. auto.
  - unfold locate in Hlocate. rewrite G in Hlocate. discriminate.
Qed.

Lemma locate_sound_witness :
  String.eqb "/b/python.exe" "/b/python.exe" = true
  /\ exists path_value path ext,
       dict_get [("PATH", "/a;/b"); ("PATHEXT", ".COM;.EXE")] "PATH"
       = Some path_value
       /\ In path (Str.split ";" path_value)
       /\ In ext (Str.split ";"
                    (path_extensions (fun _ => None)
                       [("PATH", "/a;/b"); ("PATHEXT", ".COM;.EXE")]))
       /\ "/b/python.exe"
          = (strip_char dquote path ++ "/" ++ ("python" ++ lower ext))%string.
Proof.
  apply (locate_sound ";" (fun p => String.eqb p "/b/python.exe")
           (fun a b => (a ++ "/" ++ b)%string) (fun _ => None)
           "python" [("PATH", "/a;/b"); ("PATHEXT", ".COM;.EXE")]
           "/b/python.exe").
  vm_compute. reflexivity.
Defined.

(** X21. With [PATH] set, [locate] returns the first executable candidate
    in search order (directory by directory, and within a directory
    extension by extension), and [None] exactly when no candidate is
    executable. *)
Theorem locate_first (pathsep : ascii) (is_exe : string -> bool)
  (path_join : string -> string -> string)
  (os_getenv : string -> option string)
  (program : string) (env : dict) (path_value : string)
  (Hpath : dict_get env "PATH" = Some path_value) :
  let tried :=
    candidates path_join program (Str.split pathsep path_value)
      (Str.split pathsep (path_extensions os_getenv env)) in
  locate pathsep is_exe path_join os_getenv program env
    = Ok (find is_exe tried)
  /\ (locate pathsep is_exe path_join os_getenv program env = Ok None
      <-> forall c, In c tried -> is_exe c = false)
  /\ forall before abspath after,
       tried = before ++ abspath :: after ->
       is_exe abspath = true ->
       (forall c, In c before -> is_exe c = false) ->
       locate pathsep is_exe path_join os_getenv program env
       = Ok (Some abspath).
Proof.
  intros tried.
  pose proof (locate_eq pathsep is_exe path_join os_getenv program env
                path_value Hpath) as E.
  fold tried in E. split; [exact E|]. split.
  - rewrite E. split.
    + intros [= H]. now apply find_none.
    + intros H. f_equal. destruct (find is_exe tried) as [c|] eqn:F;
        [|reflexivity].
      apply find_some in F. destruct F as [Hin Hexe].
      rewrite (H c Hin) in Hexe. discriminate.
  - intros before abspath after Ht Hexe Hbefore. rewrite E, Ht. f_equal.
    clear - Hexe Hbefore. induction before as [|b before IH]; simpl.
    + now rewrite Hexe.
    + rewrite (Hbefore b (or_introl eq_refl)). apply IH.
      intros c Hc. apply Hbefore. now right.
Qed.

Lemma locate_first_witness :
  let tried :=
    candidates (fun a b => (a ++ "/" ++ b)%string) "python"
      (Str.split ";" "/a;/b")
      (Str.split ";"
         (path_extensions (fun _ => None)
            [("PATH", "/a;/b"); ("PATHEXT", ".COM;.EXE")])) in
  locate ";" (fun p => String.eqb p "/b/python.exe")
    (fun a b => (a ++ "/" ++ b)%string) (fun _ => None) "python"
    [("PATH", "/a;/b"); ("PATHEXT", ".COM;.EXE")]
    = Ok (find (fun p => String.eqb p "/b/python.exe") tried)
  /\ (locate ";" (fun p => String.eqb p "/b/python.exe")
        (fun a b => (a ++ "/" ++ b)%string) (fun _ => None) "python"
        [("PATH", "/a;/b"); ("PATHEXT", ".COM;.EXE")] = Ok None
      <-> forall c, In c tried -> String.eqb c "/b/python.exe" = false)
  /\ forall before abspath after,
       tried = before ++ abspath :: after ->
       String.eqb abspath "/b/python.exe" = true ->
       (forall c, In c before -> String.eqb c "/b/python.exe" = false) ->
       locate ";" (fun p => String.eqb p "/b/python.exe")
         (fun a b => (a ++ "/" ++ b)%string) (fun _ => None) "python"
         [("PATH", "/a;/b"); ("PATHEXT", ".COM;.EXE")]
       = Ok (Some abspath).
Proof.
  apply (locate_first ";" (fun p => String.eqb p "/b/python.exe")
           (fun a b => (a ++ "/" ++ b)%string) (fun _ => None) "python"
           [("PATH", "/a;/b"); ("PATHEXT", ".COM;.EXE")] "/a;/b").
  reflexivity.
Defined.

Lemma candidates_bare (path_join : string -> string -> string)
  (program : string) (paths : list string) :
  candidates path_join program paths [EmptyString]
  = map (fun path => path_join (strip_char dquote path) program) paths.
Proof.
  unfold candidates.
  induction paths as [|path paths IH]; simpl in *; [reflexivity|].
  rewrite IH. unfold candidate. simpl. now rewrite sapp_nil_r.
Qed.

(** X22. Without any [PATHEXT] (neither in the environment nor in the
    process) [locate] still searches: it tries the bare program name in
    each directory of [PATH]. *)
Theorem locate_without_pathext (pathsep : ascii) (is_exe : string -> bool)
  (path_join : string -> string -> string)
  (os_getenv : string -> option string)
  (program : string) (env : dict) (path_value : string)
  (Hpath : dict_get env "PATH" = Some path_value)
  (Henv : dict_get env "PATHEXT" = None)
  (Hos : os_getenv "PATHEXT" = None) :
  locate pathsep is_exe path_join os_getenv program env
  = Ok (find is_exe
          (map (fun path => path_join (strip_char dquote path) program)
             (Str.split pathsep path_value))).
Proof.
  rewrite (locate_eq pathsep is_exe path_join os_getenv program env
             path_value Hpath).
  unfold path_extensions. rewrite Henv, Hos.
  change (Str.split pathsep "") with [EmptyString].
  now rewrite candidates_bare.
Qed.

Lemma locate_without_pathext_witness :
  locate ":" (fun p => String.eqb p "/b/python")
    (fun a b => (a ++ "/" ++ b)%string) (fun _ => None) "python"
    [("PATH", "/a:/b")]
  = Ok (find (fun p => String.eqb p "/b/python")
          (map (fun path => (strip_char dquote path ++ "/" ++ "python")%string)
             (Str.split ":" "/a:/b"))).
Proof.
  apply (locate_without_pathext ":" (fun p => String.eqb p "/b/python")
           (fun a b => (a ++ "/" ++ b)%string) (fun _ => None) "python"
           [("PATH", "/a:/b")] "/a:/b"); reflexivity.
Defined.

Lemma lstrip_char_clean (c : ascii) (s : string) :
  Str.mem c s = false -> lstrip_char c s = s.
Proof.
  destruct s as [|d s]; simpl; [reflexivity|].
  intros H. apply orb_false_iff in H. destruct H as [H _]. now rewrite H.
Qed.

Lemma rstrip_char_clean (c : ascii) (s : string) :
  Str.mem c s = false -> rstrip_char c s = s.
Proof.
  induction s as [|d s IH]; simpl; [reflexivity|].
  intros H. apply orb_false_iff in H. destruct H as [Hd Hs].
  rewrite (IH Hs). destruct s; [now rewrite Hd | reflexivity].
Qed.

Lemma rstrip_char_last (c : ascii) (s : string) :
  Str.mem c s = false -> rstrip_char c (s ++ String c "") = s.
Proof.
  induction s as [|d s IH]; simpl.
  - intros _. now rewrite Ascii.eqb_refl.
  - intros H. apply orb_false_iff in H. destruct H as [Hd Hs].
    rewrite (IH Hs). destruct s; [now rewrite Hd | reflexivity].
Qed.

Lemma strip_char_clean (c : ascii) (s : string) :
  Str.mem c s = false -> strip_char c s = s.
Proof.
  intros H. unfold strip_char.
  now rewrite (lstrip_char_clean c s H), (rstrip_char_clean c s H).
Qed.

Lemma strip_char_wrapped (c : ascii) (s : string) :
  Str.mem c s = false -> strip_char c (String c (s ++ String c "")) = s.
Proof.
  intros H. unfold strip_char. cbn [lstrip_char]. rewrite Ascii.eqb_refl.
  destruct s as [|d s].
  - cbn [append lstrip_char]. now rewrite Ascii.eqb_refl.
  - pose proof H as H'. simpl in H'. apply orb_false_iff in H'.
    destruct H' as [Hd _]. cbn [append lstrip_char]. rewrite Hd.
    change (String d (s ++ String c ""))
      with (String d s ++ String c "")%string.
    now apply rstrip_char_last.
Qed.

(** X23. A directory of [PATH] wrapped in double quotes is searched like
    the bare directory: [locate] tries the same file for both. *)
Theorem locate_quoted_directory
  (path_join : string -> string -> string) (program dir ext : string)
  (Hdir : Str.mem dquote dir = false) :
  candidate path_join program (String dquote (dir ++ String dquote "")) ext
  = candidate path_join program dir ext.
Proof.
  unfold candidate.
  now rewrite (strip_char_wrapped dquote dir Hdir),
    (strip_char_clean dquote dir Hdir).
Qed.

Lemma locate_quoted_directory_witness :
  candidate (fun a b => (a ++ "/" ++ b)%string) "python"
    (String dquote ("C:/Program Files" ++ String dquote "")) ".EXE"
  = candidate (fun a b => (a ++ "/" ++ b)%string) "python"
      "C:/Program Files" ".EXE".
Proof.
  apply (locate_quoted_directory (fun a b => (a ++ "/" ++ b)%string)
           "python" "C:/Program Files" ".EXE").
  reflexivity.
Defined.

(* ================================================================== *)
(** * Properties of [discover] *)

Lemma prepare_supported (PLATFORM : string)
  (env : list (string * raw_value)) (p : string) :
  In p ["windows"; "linux"; "darwin"] ->
  prepare PLATFORM env (Some p) = Ok (fold_left (prepare_item p) env []).
Proof.
  intros Hp.
  assert (Hne : effective_platform PLATFORM (Some p) = p).
  { destruct Hp as [<-|[<-|[<-|[]]]]; reflexivity. }
  unfold prepare. fold (effective_platform PLATFORM (Some p)). rewrite Hne.
  apply assoc_lookup_supported in Hp.
  now destruct (assoc lookup p); [|congruence].
Qed.

Lemma prepare_unsupported (PLATFORM : string)
  (env : list (string * raw_value)) (platform_name : option string) :
  ~ In (effective_platform PLATFORM platform_name)
      ["windows"; "linux"; "darwin"] ->
  prepare PLATFORM env platform_name
  = Raise (KeyError "Given platform name is not supported").
Proof.
  intros Hp. rewrite <- assoc_lookup_supported in Hp. unfold prepare.
  fold (effective_platform PLATFORM platform_name).
  destruct (assoc lookup (effective_platform PLATFORM platform_name));
    [|reflexivity].
  exfalso. apply Hp. discriminate.
Qed.

Lemma discover_files_supported
  (load : string -> option (list (string * raw_value)))
  (PLATFORM : string) (append_path : dict -> string -> string -> dict)
  (p : string) (paths : list string) :
  In p ["windows"; "linux"; "darwin"] ->
  forall environment,
    discover_files load PLATFORM append_path paths (Some p) environment
    = Ok (fold_left
            (fun environment tool_env =>
               join append_path environment
                 (fold_left (prepare_item p) tool_env []))
            (loaded_tools load paths) environment).
Proof.
  intros Hp. induction paths as [|path paths IH]; intros environment;
    simpl; [reflexivity|].
  destruct (load path) as [tool_env|]; simpl; [|apply IH].
  rewrite (prepare_supported PLATFORM tool_env p Hp). apply IH.
Qed.

(** X24. With [TOOL_ENV] set and a supported platform, [discover] returns
    the environments of the tool files that can be read, each prepared for
    the platform and joined onto the ones before, in search order (every
    tool in the first directory, then the next directory); a file that
    cannot be read is skipped and changes nothing. *)
Theorem discover_joins_readable (pathsep : ascii) (environ : dict)
  (path_join : string -> string -> string)
  (load : string -> option (list (string * raw_value)))
  (PLATFORM : string) (append_path : dict -> string -> string -> dict)
  (tools : list string) (p directories : string)
  (Henv : dict_get environ "TOOL_ENV" = Some directories)
  (Hp : In p ["windows"; "linux"; "darwin"]) :
  discover pathsep environ path_join load PLATFORM append_path tools (Some p)
  = Ok (fold_left
          (fun environment tool_env =>
             join append_path environment
               (fold_left (prepare_item p) tool_env []))
          (loaded_tools load
             (tool_paths path_join (Str.split pathsep directories) tools))
          []).
Proof.
  unfold discover. rewrite Henv. now apply discover_files_supported.
Qed.

Lemma discover_joins_readable_witness :
  discover ":" [("TOOL_ENV", "/d1:/d2")]
    (fun a b => (a ++ "/" ++ b)%string)
    (fun path => if String.eqb path "/d2/maya.json"
                 then Some [("P", Flat (VList ["a"; "b"]))] else None)
    "linux" (fun env k v => dict_set env k v) ["maya"; "yeti"] (Some "linux")
  = Ok (fold_left
          (fun environment tool_env =>
             join (fun env k v => dict_set env k v) environment
               (fold_left (prepare_item "linux") tool_env []))
          (loaded_tools
             (fun path => if String.eqb path "/d2/maya.json"
                          then Some [("P", Flat (VList ["a"; "b"]))]
                          else None)
             (tool_paths (fun a b => (a ++ "/" ++ b)%string)
                (Str.split ":" "/d1:/d2") ["maya"; "yeti"]))
          []).
Proof.
  apply (discover_joins_readable ":" [("TOOL_ENV", "/d1:/d2")]
           (fun a b => (a ++ "/" ++ b)%string)
           (fun path => if String.eqb path "/d2/maya.json"
                        then Some [("P", Flat (VList ["a"; "b"]))] else None)
           "linux" (fun env k v => dict_set env k v) ["maya"; "yeti"]
           "linux" "/d1:/d2").
  - reflexivity.
  - simpl. tauto.
Defined.

Lemma discover_files_unsupported
  (load : string -> option (list (string * raw_value)))
  (PLATFORM : string) (append_path : dict -> string -> string -> dict)
  (platform_name : option string) (paths : list string) :
  ~ In (effective_platform PLATFORM platform_name)
      ["windows"; "linux"; "darwin"] ->
  forall environment,
    discover_files load PLATFORM append_path paths platform_name environment
    = match loaded_tools load paths with
      | [] => Ok environment
      | _ :: _ => Raise (KeyError "Given platform name is not supported")
      end.
Proof.
  intros Hp. induction paths as [|path paths IH]; intros environment;
    simpl; [reflexivity|].
  destruct (load path) as [tool_env|]; simpl; [|apply IH].
  now rewrite (prepare_unsupported PLATFORM tool_env platform_name Hp).
Qed.

(** X25. With [TOOL_ENV] set and an unsupported platform, [discover]
    raises the [KeyError] of [prepare] only if some tool file can be
    read; when none can, it returns the empty environment and the
    platform name goes unchecked. *)
Theorem discover_unsupported_platform (pathsep : ascii) (environ : dict)
  (path_join : string -> string -> string)
  (load : string -> option (list (string * raw_value)))
  (PLATFORM : string) (append_path : dict -> string -> string -> dict)
  (tools : list string) (platform_name : option string)
  (directories : string)
  (Henv : dict_get environ "TOOL_ENV" = Some directories)
  (Hp : ~ In (effective_platform PLATFORM platform_name)
            ["windows"; "linux"; "darwin"]) :
  let readable :=
    loaded_tools load
      (tool_paths path_join (Str.split pathsep directories) tools) in
  (readable = [] ->
   discover pathsep environ path_join load PLATFORM append_path tools
     platform_name = Ok [])
  /\ (readable <> [] ->
      discover pathsep environ path_join load PLATFORM append_path tools
        platform_name
      = Raise (KeyError "Given platform name is not supported")).
Proof.
  intros readable. unfold discover. rewrite Henv.
  rewrite (discover_files_unsupported load PLATFORM append_path
             platform_name _ Hp).
  subst readable.
  destruct (loaded_tools load
              (tool_paths path_join (Str.split pathsep directories) tools));
    split; intros H; [reflexivity | contradiction | discriminate
                     | reflexivity].
Qed.

Lemma discover_unsupported_platform_witness :
  let readable :=
    loaded_tools (fun _ => None)
      (tool_paths (fun a b => (a ++ "/" ++ b)%string)
         (Str.split ":" "/d1:/d2") ["maya"; "yeti"]) in
  (readable = [] ->
   discover ":" [("TOOL_ENV", "/d1:/d2")]
     (fun a b => (a ++ "/" ++ b)%string) (fun _ => None) "linux"
     (fun env k v => dict_set env k v) ["maya"; "yeti"] (Some "amiga")
   = Ok [])
  /\ (readable <> [] ->
      discover ":" [("TOOL_ENV", "/d1:/d2")]
        (fun a b => (a ++ "/" ++ b)%string) (fun _ => None) "linux"
        (fun env k v => dict_set env k v) ["maya"; "yeti"] (Some "amiga")
      = Raise (KeyError "Given platform name is not supported")).
Proof.
  apply (discover_unsupported_platform ":" [("TOOL_ENV", "/d1:/d2")]
           (fun a b => (a ++ "/" ++ b)%string) (fun _ => None) "linux"
           (fun env k v => dict_set env k v) ["maya"; "yeti"] (Some "amiga")
           "/d1:/d2").
  - reflexivity.
  - simpl. intros [H|[H|[H|[]]]]; discriminate.
Defined.
